(** * giskardpy: the kinematic tree model of [urdf_object.py]

    A shallow embedding of [src/giskardpy/urdf_object.py] and of the
    geometry helpers of [src/giskardpy/utils.py], with the properties of
    the kinematic tree specification stated and proved over it; then of
    the joint-state conversions of [utils.py] and of the commands of
    [src/giskardpy/python_interface.py], with further properties of the
    code.

    Conventions of the embedding.
    - Python floats are idealised as exact rationals ([Qc]): no rounding,
      no NaN.  [pi] is the double-precision constant that [numpy.pi] is.
    - Python objects are represented by their values.  Dictionaries are
      [gmap]s; the order in which Python 2 iterates over a dictionary is
      the order of [map_to_list].
    - A raised exception is the [Raise] case of [result].  A method that
      mutates [self] is a function from the object to a result and the
      object as the method leaves it.
    - The loop of [get_sub_tree_at_joint] need not terminate on a cyclic
      description; it is given fuel, and [None] means the fuel ran out. *)

From Stdlib Require Import QArith Qcanon.
From stdpp Require Import gmap strings list fin_maps numbers pretty.

Close Scope Qc_scope.
Close Scope Q_scope.
Open Scope string_scope.
Open Scope list_scope.

(** ** Python values and exceptions *)

Definition float := Qc.

(** Literals: an integer, and a decimal fraction [n / d]. *)
Definition num (n : Z) : float := Q2Qc (inject_Z n).
Definition frac (n : Z) (d : positive) : float := Q2Qc (n # d).

Inductive exception :=
| DuplicateNameException (msg : string)
| KeyError (msg : string)
| TypeError (msg : string)
| AssertionError (msg : string)
| AttributeError
| IndexError
| ValueError
| ParseError.

Inductive result (A : Type) :=
| Ok (a : A)
| Raise (e : exception).
Arguments Ok {A} a.
Arguments Raise {A} e.

Definition bind {A B} (m : result A) (k : A → result B) : result B :=
  match m with
  | Ok a => k a
  | Raise e => Raise e
  end.

Notation "'let*' x := m 'in' k" := (bind m (λ x, k))
  (at level 10, x name, m at level 100, k at level 200, only parsing).
Notation "'let*' ' p := m 'in' k" := (bind m (λ p, k))
  (at level 10, p strict pattern, m at level 100, k at level 200, only parsing).

(** [for x in xs: body] over an accumulator, stopping at the first raise. *)
Fixpoint for_each {A S} (body : S → A → result S) (xs : list A) (s : S) : result S :=
  match xs with
  | [] => Ok s
  | x :: xs' => let* s' := body s x in for_each body xs' s'
  end.

(** [try: body except AttributeError: handler] *)
Definition try_except_AttributeError {A} (body handler : result A) : result A :=
  match body with
  | Raise AttributeError => handler
  | other => other
  end.

(** [o.field] where [o] may be [None] *)
Definition getattr {A B} (o : option A) (field : A → B) : result B :=
  match o with
  | Some a => Ok (field a)
  | None => Raise AttributeError
  end.

(** The builtins [max(a, b)] and [min(a, b)]: the first argument is kept
    unless the second is strictly better. *)
Definition py_max (a b : float) : float := if decide (a < b)%Qc then b else a.
Definition py_min (a b : float) : float := if decide (b < a)%Qc then b else a.

(** [a and b], [a or b] on truth values, the right operand evaluated only
    when the left one does not decide. *)
Definition py_and (a b : result bool) : result bool :=
  let* x := a in if x then b else Ok false.
Definition py_or (a b : result bool) : result bool :=
  let* x := a in if x then Ok true else b.

Definition format1 (pre x post : string) : string := pre +:+ x +:+ post.

(** ** utils.py: volumes and surfaces *)

Module utils.

Definition pi : float := Q2Qc (884279719003555 # 281474976710656).

Definition sphere_volume (radius : float) : float :=
  ((num 4 / num 3) * pi * radius ^ 3)%Qc.

Definition sphere_surface (radius : float) : float :=
  (num 4 * pi * radius ^ 2)%Qc.

Definition cube_volume (length width height : float) : float :=
  (length * width * height)%Qc.

Definition cube_surface (length width height : float) : float :=
  (num 2 * (length * width + length * height + width * height))%Qc.

Definition cylinder_volume (r h : float) : float :=
  (pi * r ^ 2 * h)%Qc.

Definition cylinder_surface (r h : float) : float :=
  (num 2 * pi * r * (h + r))%Qc.

End utils.

(** ** The description objects of the URDF parser

    The parser library ([urdf_parser_py], imported as [up]) is not part of
    the repository.  Its objects are given here with the attributes that
    [urdf_object.py] reads and writes, and its robot container with the
    operations [urdf_object.py] calls, as the library carries them out. *)

Module up.

Inductive Geometry :=
| Box (size : float * float * float)
| Sphere (radius : float)
| Cylinder (radius length : float)
| Mesh (filename : string).

Record Material := { material_name : string; color : list float }.
Record Visual := { visual_geometry : Geometry; material : option Material }.
Record Collision := { geometry : Geometry }.

Record Link := {
  link_name : string;
  visual : option Visual;
  collision : option Collision
}.

Record Pose := { xyz : list float; rpy : list float }.
Record JointLimit := { lower : float; upper : float; velocity : float }.
Record SafetyController := { soft_lower_limit : float; soft_upper_limit : float }.

Record Joint := {
  joint_name : string;
  parent : string;
  child : string;
  joint_type : string;
  origin : option Pose;
  limit : option JointLimit;
  safety_controller : option SafetyController;
  mimic : option string
}.

(** What a robot aggregates, in document order. *)
Inductive Aggregate :=
| link (l : Link)
| joint (j : Joint).

#[global] Instance Geometry_eq_dec : EqDecision Geometry.
Proof. solve_decision. Defined.
#[global] Instance Material_eq_dec : EqDecision Material.
Proof. solve_decision. Defined.
#[global] Instance Visual_eq_dec : EqDecision Visual.
Proof. solve_decision. Defined.
#[global] Instance Collision_eq_dec : EqDecision Collision.
Proof. solve_decision. Defined.
#[global] Instance Link_eq_dec : EqDecision Link.
Proof. solve_decision. Defined.
#[global] Instance Pose_eq_dec : EqDecision Pose.
Proof. solve_decision. Defined.
#[global] Instance JointLimit_eq_dec : EqDecision JointLimit.
Proof. solve_decision. Defined.
#[global] Instance SafetyController_eq_dec : EqDecision SafetyController.
Proof. solve_decision. Defined.
#[global] Instance Joint_eq_dec : EqDecision Joint.
Proof. solve_decision. Defined.
#[global] Instance Aggregate_eq_dec : EqDecision Aggregate.
Proof. solve_decision. Defined.

Definition isinstance_Box (g : Geometry) : bool :=
  match g with Box _ => true | _ => false end.
Definition isinstance_Sphere (g : Geometry) : bool :=
  match g with Sphere _ => true | _ => false end.
Definition isinstance_Cylinder (g : Geometry) : bool :=
  match g with Cylinder _ _ => true | _ => false end.
Definition isinstance_Mesh (g : Geometry) : bool :=
  match g with Mesh _ => true | _ => false end.

(** Attribute reads; an object of another class has no such attribute. *)
Definition size (g : Geometry) : result (float * float * float) :=
  match g with Box s => Ok s | _ => Raise AttributeError end.
Definition radius (g : Geometry) : result float :=
  match g with
  | Sphere r => Ok r
  | Cylinder r _ => Ok r
  | _ => Raise AttributeError
  end.
Definition length (g : Geometry) : result float :=
  match g with Cylinder _ l => Ok l | _ => Raise AttributeError end.

Definition links_of (aggs : list Aggregate) : list Link :=
  omap (λ a, match a with link l => Some l | joint _ => None end) aggs.
Definition joints_of (aggs : list Aggregate) : list Joint :=
  omap (λ a, match a with joint j => Some j | link _ => None end) aggs.

(** The robot container: the aggregates in the order they were added,
    and the name tables kept beside them.  [links] and [joints] are the
    per-kind lists, which the container keeps equal to the projections
    of [aggregate_order]. *)
Record Robot := {
  robot_name : string;
  aggregate_order : list Aggregate;
  joint_map : gmap string Joint;
  link_map : gmap string Link;
  parent_map : gmap string (string * string);
  child_map : gmap string (list (string * string))
}.

Definition links (r : Robot) : list Link := links_of (aggregate_order r).
Definition joints (r : Robot) : list Joint := joints_of (aggregate_order r).

(** [up.Robot(name)] *)
Definition new_Robot (name : string) : Robot :=
  {| robot_name := name; aggregate_order := [];
     joint_map := ∅; link_map := ∅; parent_map := ∅; child_map := ∅ |}.

(** [add_link]: append, and enter the link in [link_map]. *)
Definition add_link (r : Robot) (l : Link) : Robot :=
  {| robot_name := robot_name r;
     aggregate_order := aggregate_order r ++ [link l];
     joint_map := joint_map r;
     link_map := <[link_name l := l]> (link_map r);
     parent_map := parent_map r;
     child_map := child_map r |}.

(** [add_joint]: append, enter the joint in [joint_map], record it as the
    parent of its child link and append it to the children of its parent
    link. *)
Definition add_joint (r : Robot) (j : Joint) : Robot :=
  {| robot_name := robot_name r;
     aggregate_order := aggregate_order r ++ [joint j];
     joint_map := <[joint_name j := j]> (joint_map r);
     link_map := link_map r;
     parent_map := <[child j := (joint_name j, parent j)]> (parent_map r);
     child_map :=
       <[parent j := default [] (child_map r !! parent j) ++ [(joint_name j, child j)]]>
         (child_map r) |}.

Definition add_aggregate (r : Robot) (a : Aggregate) : Robot :=
  match a with
  | link l => add_link r l
  | joint j => add_joint r j
  end.

(** [list.remove] of the object [a].  Objects are compared by identity;
    of several aggregates with the value of [a], the one the name tables
    hold is the one added last, so the last occurrence is dropped. *)
Fixpoint list_remove (a : Aggregate) (l : list Aggregate) : option (list Aggregate) :=
  match l with
  | [] => None
  | b :: l' =>
      match list_remove a l' with
      | Some l'' => Some (b :: l'')
      | None => if decide (a = b) then Some l' else None
      end
  end.

(** [remove_aggregate]: the object leaves the lists; the name tables are
    not touched. *)
Definition remove_aggregate (r : Robot) (a : Aggregate) : result Robot :=
  match list_remove a (aggregate_order r) with
  | Some aggs =>
      Ok {| robot_name := robot_name r;
            aggregate_order := aggs;
            joint_map := joint_map r;
            link_map := link_map r;
            parent_map := parent_map r;
            child_map := child_map r |}
  | None => Raise ValueError
  end.

(** The keys of a dictionary, as iteration yields them. *)
Definition keys {V} (m : gmap string V) : list string := (map_to_list m).*1.

(** [get_root]: the one link that is no joint's child. *)
Definition get_root (r : Robot) : result string :=
  let* root := for_each
    (λ (root : option string) (l : string),
       if decide (is_Some (parent_map r !! l)) then Ok root
       else match root with
            | None => Ok (Some l)
            | Some _ => Raise (AssertionError "Multiple roots detected, invalid URDF.")
            end)
    (keys (link_map r)) None in
  match root with
  | Some l => Ok l
  | None => Raise (AssertionError "No roots detected, invalid URDF.")
  end.

(** The document a robot is written to and read from: its name and its
    elements in order.  Writing and reading back loses nothing of a link
    or a joint. *)
Record xml := { xml_name : string; xml_elements : list Aggregate }.

Definition to_xml_string (r : Robot) : xml :=
  {| xml_name := robot_name r; xml_elements := aggregate_order r |}.

(** [URDF.from_xml_string]: a fresh robot, every element added in
    document order. *)
Definition from_xml_string (doc : xml) : Robot :=
  foldl add_aggregate (new_Robot (xml_name doc)) (xml_elements doc).

End up.

(** ** Messages

    The message classes ([geometry_msgs], [shape_msgs], [giskard_msgs]) are
    not part of the repository either; the constants have the values of
    the message definitions. *)

Module msg.

Record Point := { x : float; y : float; z : float }.
Record Quaternion := { qx : float; qy : float; qz : float; qw : float }.
Record Pose := { position : Point; orientation : Quaternion }.

Definition BOX : Z := 1.
Definition SPHERE : Z := 2.
Definition CYLINDER : Z := 3.
Definition CONE : Z := 4.

Record SolidPrimitive := { shape_type : Z; dimensions : list float }.

Definition PRIMITIVE_BODY : Z := 0.
Definition URDF_BODY : Z := 1.
Definition MESH_BODY : Z := 2.

Record WorldBody := {
  body_type : Z;
  name : string;
  shape : SolidPrimitive;
  mesh : string;
  urdf : up.xml
}.

End msg.

(** ** Methods that mutate [self]

    A method body runs on the object and leaves it in some state, whether
    it returns or raises. *)

Definition method (S A : Type) : Type := S → result A * S.

Definition ret {S A} (a : A) : method S A := λ s, (Ok a, s).
Definition raise {S A} (e : exception) : method S A := λ s, (Raise e, s).
Definition lift {S A} (m : result A) : method S A := λ s, (m, s).
Definition get {S} : method S S := λ s, (Ok s, s).
Definition put {S} (s : S) : method S unit := λ _, (Ok tt, s).
Definition and_then {S A B} (m : method S A) (k : A → method S B) : method S B :=
  λ s, match m s with
       | (Ok a, s') => k a s'
       | (Raise e, s') => (Raise e, s')
       end.

Notation "'do' x <- m ; k" := (and_then m (λ x, k))
  (at level 10, x name, m at level 100, k at level 200, only parsing).
Notation "'do_' m ; k" := (and_then m (λ _, k))
  (at level 10, m at level 100, k at level 200, only parsing).

Fixpoint for_each_do {S A} (body : A → method S unit) (xs : list A) : method S unit :=
  match xs with
  | [] => ret tt
  | x :: xs' => do_ body x; for_each_do body xs'
  end.

(** [d[k]] *)
Definition getitem {V} (d : gmap string V) (k : string) : result V :=
  match d !! k with
  | Some v => Ok v
  | None => Raise (KeyError k)
  end.

(** ** urdf_object.py *)

Definition JOINT_TYPES : list string := ["fixed"; "revolute"; "continuous"; "prismatic"].
Definition MOVABLE_JOINT_TYPES : list string := ["revolute"; "continuous"; "prismatic"].
Definition ROTATIONAL_JOINT_TYPES : list string := ["revolute"; "continuous"].
Definition TRANSLATIONAL_JOINT_TYPES : list string := ["prismatic"].

(** The removal of the [transmission] and [gazebo] sections works on the
    text of the document, before the parser sees it; a document here holds
    links and joints only, on which it changes nothing. *)
Definition hacky_urdf_parser_fix (urdf_str : up.xml) : up.xml := urdf_str.

Record URDFObject := {
  original_urdf : up.xml;
  _urdf_robot : up.Robot
}.

Definition __init__ (urdf : up.xml) : URDFObject :=
  {| original_urdf := urdf;
     _urdf_robot := up.from_xml_string (hacky_urdf_parser_fix urdf) |}.

Definition from_parts (robot_name : string) (links : list up.Link) (joints : list up.Joint)
    : URDFObject :=
  let r := up.new_Robot robot_name in
  let r := foldl up.add_link r links in
  let r := foldl up.add_joint r joints in
  __init__ (up.to_xml_string r).

(** The geometry object [from_world_body] constructs, with the arguments
    it passes to the constructor. *)
Inductive geometry_call :=
| up_Box (size : list float)
| up_Sphere (radius : float)
| up_Cylinder (dimensions : list float)
| up_Mesh (filename : string).

(** What the parser library makes of the constructed geometry when
    [from_parts] writes the robot out and parses that text again.  The
    library is not under src/; this follows its behaviour.
    - [up.Box(size)]: the size is written as a vector of three numbers, and
      writing asserts that length ("Invalid vector length").
    - [up.Sphere(radius)]: the radius is written as a number and read back.
    - [up.Cylinder(radius, length)]: the one argument [from_world_body]
      passes, the whole list of dimensions, is taken as the radius; it is
      written as the text of a list, which the parser does not read as a
      number: a [ParseError], whatever the dimensions are.
    - [up.Mesh(filename)]: the file name is written and read back. *)
Definition read_geometry (g : geometry_call) : result up.Geometry :=
  match g with
  | up_Box [a; b; c] => Ok (up.Box (a, b, c))
  | up_Box _ => Raise (AssertionError "Invalid vector length")
  | up_Sphere r => Ok (up.Sphere r)
  | up_Cylinder _ => Raise ParseError
  | up_Mesh f => Ok (up.Mesh f)
  end.

Definition green : up.Material :=
  {| up.material_name := "green"; up.color := [num 0; num 1; num 0; num 1] |}.

Definition from_world_body (world_body : msg.WorldBody) : result URDFObject :=
  let shape := msg.shape world_body in
  if decide (msg.body_type world_body = msg.PRIMITIVE_BODY
             ∨ msg.body_type world_body = msg.MESH_BODY) then
    let* geometry :=
      if decide (msg.shape_type shape = msg.BOX) then
        Ok (up_Box (msg.dimensions shape))
      else if decide (msg.shape_type shape = msg.SPHERE) then
        match msg.dimensions shape with
        | d0 :: _ => Ok (up_Sphere d0)
        | [] => Raise IndexError
        end
      else if decide (msg.shape_type shape = msg.CYLINDER) then
        Ok (up_Cylinder (msg.dimensions shape))
      else if decide (msg.shape_type shape = msg.CONE) then
        Raise (TypeError "primitive shape cone not supported")
      else if decide (msg.body_type world_body = msg.MESH_BODY) then
        Ok (up_Mesh (msg.mesh world_body))
      else
        Raise (TypeError (format1 "primitive shape '" (pretty (msg.shape_type shape))
                            "' not supported")) in
    let* geometry := read_geometry geometry in
    let link :=
      {| up.link_name := msg.name world_body;
         up.visual := Some {| up.visual_geometry := geometry; up.material := Some green |};
         up.collision := Some {| up.geometry := geometry |} |} in
    Ok (from_parts (msg.name world_body) [link] [])
  else if decide (msg.body_type world_body = msg.URDF_BODY) then
    Ok (__init__ (msg.urdf world_body))
  else
    Raise (TypeError (format1 "world body type '" (pretty (msg.body_type world_body))
                        "' not supported")).

Definition get_name (self : URDFObject) : string :=
  up.robot_name (_urdf_robot self).

(** *** Joint functions *)

Definition get_joint_names (self : URDFObject) : list string :=
  up.keys (up.joint_map (_urdf_robot self)).

Definition get_urdf_joint (self : URDFObject) (joint_name : string) : result up.Joint :=
  getitem (up.joint_map (_urdf_robot self)) joint_name.

Definition get_urdf_link (self : URDFObject) (link_name : string) : result up.Link :=
  getitem (up.link_map (_urdf_robot self)) link_name.

Definition get_joint_limits (self : URDFObject) (joint_names : string)
    : result (option float * option float) :=
  let* joint := get_urdf_joint self joint_names in
  try_except_AttributeError
    (let* soft_lower := getattr (up.safety_controller joint) up.soft_lower_limit in
     let* lower := getattr (up.limit joint) up.lower in
     let* soft_upper := getattr (up.safety_controller joint) up.soft_upper_limit in
     let* upper := getattr (up.limit joint) up.upper in
     Ok (Some (py_max soft_lower lower), Some (py_min soft_upper upper)))
    (try_except_AttributeError
       (let* lower := getattr (up.limit joint) up.lower in
        let* upper := getattr (up.limit joint) up.upper in
        Ok (Some lower, Some upper))
       (Ok (None, None))).

Definition is_joint_controllable (self : URDFObject) (name : string) : result bool :=
  let* joint := get_urdf_joint self name in
  Ok (bool_decide (up.joint_type joint ∈ MOVABLE_JOINT_TYPES)
      && bool_decide (up.mimic joint = None)).

Definition is_joint_mimic (self : URDFObject) (name : string) : result bool :=
  let* joint := get_urdf_joint self name in
  Ok (bool_decide (up.joint_type joint ∈ MOVABLE_JOINT_TYPES)
      && bool_decide (up.mimic joint ≠ None)).

Definition get_joint_type (self : URDFObject) (name : string) : result string :=
  let* joint := get_urdf_joint self name in Ok (up.joint_type joint).

Definition is_joint_continuous (self : URDFObject) (name : string) : result bool :=
  let* t := get_joint_type self name in Ok (bool_decide (t = "continuous")).

Definition is_joint_type_supported (self : URDFObject) (name : string) : result bool :=
  let* t := get_joint_type self name in Ok (bool_decide (t ∈ JOINT_TYPES)).

Definition is_rotational_joint (self : URDFObject) (name : string) : result bool :=
  let* t := get_joint_type self name in Ok (bool_decide (t ∈ ROTATIONAL_JOINT_TYPES)).

Definition is_translational_joint (self : URDFObject) (name : string) : result bool :=
  let* t := get_joint_type self name in Ok (bool_decide (t ∈ TRANSLATIONAL_JOINT_TYPES)).

Definition get_joint_names_controllable (self : URDFObject) : result (list string) :=
  for_each
    (λ acc joint_name,
       let* c := is_joint_controllable self joint_name in
       Ok (if c then acc ++ [joint_name] else acc))
    (get_joint_names self) [].

Definition get_all_joint_limits (self : URDFObject)
    : result (gmap string (option float * option float)) :=
  for_each
    (λ acc joint_name,
       let* c := is_joint_controllable self joint_name in
       if c then
         let* limits := get_joint_limits self joint_name in
         Ok (<[joint_name := limits]> acc)
       else Ok acc)
    (get_joint_names self) ∅.

(** *** Link functions *)

Definition get_link_names (self : URDFObject) : list string :=
  up.keys (up.link_map (_urdf_robot self)).

(** One round of the loop of [get_sub_tree_at_joint], for the joint
    [joint] the iteration has reached: the joints below its child link are
    appended to the work list and to [tree_joints], then the child link to
    [tree_links]. *)
Definition sub_tree_step (self : URDFObject) (joint : string)
    (joints : list string) (tree_links : list up.Link) (tree_joints : list up.Joint)
    : result (list string * list up.Link * list up.Joint) :=
  let* j := getitem (up.joint_map (_urdf_robot self)) joint in
  let child_link := up.child j in
  let* '(joints, tree_joints) :=
    match up.child_map (_urdf_robot self) !! child_link with
    | Some children =>
        for_each
          (λ '(joints, tree_joints) '(j, l),
             let* uj := get_urdf_joint self j in
             Ok (joints ++ [j], tree_joints ++ [uj]))
          children (joints, tree_joints)
    | None => Ok (joints, tree_joints)
    end in
  let* ul := get_urdf_link self child_link in
  Ok (joints, tree_links ++ [ul], tree_joints).

(** [for joint in joints] while the body appends to [joints]: the
    iteration takes the entries in order, the appended ones included.
    [joints] here is the part of the list not yet visited. *)
Fixpoint sub_tree_loop (fuel : nat) (self : URDFObject)
    (joints : list string) (tree_links : list up.Link) (tree_joints : list up.Joint)
    : option (result (list up.Link * list up.Joint)) :=
  match joints with
  | [] => Some (Ok (tree_links, tree_joints))
  | joint :: joints =>
      match fuel with
      | 0 => None
      | S fuel =>
          match sub_tree_step self joint joints tree_links tree_joints with
          | Ok (joints, tree_links, tree_joints) =>
              sub_tree_loop fuel self joints tree_links tree_joints
          | Raise e => Some (Raise e)
          end
      end
  end.

Definition get_sub_tree_at_joint (fuel : nat) (self : URDFObject) (joint_name : string)
    : option (result URDFObject) :=
  match sub_tree_loop fuel self [joint_name] [] [] with
  | Some (Ok (tree_links, tree_joints)) =>
      Some (Ok (from_parts joint_name tree_links tree_joints))
  | Some (Raise e) => Some (Raise e)
  | None => None
  end.

Definition get_links_from_sub_tree (fuel : nat) (self : URDFObject) (joint_name : string)
    : option (result (list string)) :=
  match get_sub_tree_at_joint fuel self joint_name with
  | Some (Ok sub_tree) => Some (Ok (get_link_names sub_tree))
  | Some (Raise e) => Some (Raise e)
  | None => None
  end.

Definition volume_threshold_default : float := frac 1 1000000.
Definition surface_threshold_default : float := frac 1 10000.

Definition gt (a b : float) : bool := bool_decide (b < a)%Qc.

Definition has_link_collision (self : URDFObject) (link_name : string)
    (volume_threshold surface_threshold : float) : result bool :=
  let* link := getitem (up.link_map (_urdf_robot self)) link_name in
  match up.collision link with
  | Some collision =>
      let geo := up.geometry collision in
      py_or
        (py_or
           (py_or
              (py_and (Ok (up.isinstance_Box geo))
                 (py_or
                    (let* '(l, w, h) := up.size geo in
                     Ok (gt (utils.cube_volume l w h) volume_threshold))
                    (let* '(l, w, h) := up.size geo in
                     Ok (gt (utils.cube_surface l w h) surface_threshold))))
              (py_and (Ok (up.isinstance_Sphere geo))
                 (let* r := up.radius geo in
                  Ok (gt (utils.sphere_volume r) volume_threshold))))
           (py_and (Ok (up.isinstance_Cylinder geo))
              (py_or
                 (let* r := up.radius geo in
                  let* l := up.length geo in
                  Ok (gt (utils.cylinder_volume r l) volume_threshold))
                 (let* r := up.radius geo in
                  let* l := up.length geo in
                  Ok (gt (utils.cylinder_surface r l) surface_threshold)))))
        (Ok (up.isinstance_Mesh geo))
  | None => Ok false
  end.

Definition get_sub_tree_link_names_with_collision (fuel : nat) (self : URDFObject)
    (root_joint : string) : option (result (list string)) :=
  match get_links_from_sub_tree fuel self root_joint with
  | Some (Ok sub_tree) =>
      Some (for_each
              (λ acc link_name,
                 let* c := has_link_collision self link_name
                             volume_threshold_default surface_threshold_default in
                 Ok (if c then acc ++ [link_name] else acc))
              sub_tree [])
  | Some (Raise e) => Some (Raise e)
  | None => None
  end.

Definition get_urdf (self : URDFObject) : up.xml :=
  up.to_xml_string (_urdf_robot self).

Definition get_root (self : URDFObject) : result string :=
  up.get_root (_urdf_robot self).

Definition get_parent_link_name (self : URDFObject) (child_link_name : string)
    : result string :=
  let* p := getitem (up.parent_map (_urdf_robot self)) child_link_name in Ok p.2.

Definition robot_name_to_root_joint (name : string) : string := name.

(** *** Attaching and detaching *)

(** [self._urdf_robot.m(...)]: the robot of [self] is updated in place. *)
Definition on_robot (f : up.Robot → result up.Robot) : method URDFObject unit :=
  λ self,
    match f (_urdf_robot self) with
    | Ok r => (Ok tt, {| original_urdf := original_urdf self; _urdf_robot := r |})
    | Raise e => (Raise e, self)
    end.

Definition reinitialize : method URDFObject unit :=
  λ self,
    (Ok tt, {| original_urdf := original_urdf self;
               _urdf_robot := up.from_xml_string (get_urdf self) |}).

Section attach.

(** [tf.transformations.euler_from_quaternion], which is not part of the
    repository. *)
Variable euler_from_quaternion : list float → list float.

Definition attach_urdf_object (urdf_object : URDFObject) (parent_link : string)
    (pose : msg.Pose) : method URDFObject unit :=
  do self <- get;
  if decide (get_name urdf_object ∈ get_link_names self) then
    raise (DuplicateNameException
             ("'" +:+ get_name self +:+ "' already has link with name '"
              +:+ get_name urdf_object +:+ "'."))
  else if decide (get_name urdf_object ∈ get_joint_names self) then
    raise (DuplicateNameException
             ("'" +:+ get_name self +:+ "' already has joint with name '"
              +:+ get_name urdf_object +:+ "'."))
  else if decide (parent_link ∉ get_link_names self) then
    raise (KeyError
             ("can not attach '" +:+ get_name urdf_object
              +:+ "' to non existent parent link '" +:+ parent_link
              +:+ "' of '" +:+ get_name self +:+ "'"))
  else
    do root <- lift (get_root urdf_object);
    let joint :=
      {| up.joint_name := robot_name_to_root_joint (get_name urdf_object);
         up.parent := parent_link;
         up.child := root;
         up.joint_type := "fixed";
         up.origin :=
           Some {| up.xyz := [msg.x (msg.position pose);
                              msg.y (msg.position pose);
                              msg.z (msg.position pose)];
                   up.rpy := euler_from_quaternion
                               [msg.qx (msg.orientation pose);
                                msg.qy (msg.orientation pose);
                                msg.qz (msg.orientation pose);
                                msg.qw (msg.orientation pose)] |};
         up.limit := None;
         up.safety_controller := None;
         up.mimic := None |} in
    do_ on_robot (λ r, Ok (up.add_joint r joint));
    do_ for_each_do (λ j, on_robot (λ r, Ok (up.add_joint r j)))
          (up.joints (_urdf_robot urdf_object));
    do_ for_each_do (λ l, on_robot (λ r, Ok (up.add_link r l)))
          (up.links (_urdf_robot urdf_object));
    reinitialize.

End attach.

Definition detach_sub_tree (fuel : nat) (joint_name : string)
    : URDFObject → option (result unit * URDFObject) :=
  λ self,
    match get_sub_tree_at_joint fuel self joint_name with
    | None => None
    | Some (Raise e) => Some (Raise e, self)
    | Some (Ok sub_tree) =>
        Some
          ((do_ for_each_do
                  (λ link,
                     do self <- get;
                     do l <- lift (get_urdf_link self link);
                     on_robot (λ r, up.remove_aggregate r (up.link l)))
                  (get_link_names sub_tree);
            do_ for_each_do
                  (λ joint,
                     do self <- get;
                     do j <- lift (get_urdf_joint self joint);
                     on_robot (λ r, up.remove_aggregate r (up.joint j)))
                  ([joint_name] ++ get_joint_names sub_tree);
            reinitialize) self)
    end.

(** ** Vocabulary of the specification *)

(** The registry: the names of the links and of the joints a tree holds. *)
Definition link_names (self : URDFObject) : list string :=
  up.link_name <$> up.links (_urdf_robot self).
Definition joint_names (self : URDFObject) : list string :=
  up.joint_name <$> up.joints (_urdf_robot self).

(** The index reflects the registry: the name tables are the ones the
    parser builds from the tree's own document.  This holds after
    [__init__] and after every [reinitialize]. *)
Definition initialized (self : URDFObject) : Prop :=
  _urdf_robot self = up.from_xml_string (get_urdf self).

(** The links without a parent joint. *)
Definition roots (self : URDFObject) : list string :=
  filter (λ l, up.parent_map (_urdf_robot self) !! l = None) (link_names self).

(** The number of steps the parent relation takes from [l] to a link
    without parent, if at most [fuel]. *)
Fixpoint depth (fuel : nat) (self : URDFObject) (l : string) : option nat :=
  match up.parent_map (_urdf_robot self) !! l with
  | None => Some 0
  | Some (_, p) =>
      match fuel with
      | 0 => None
      | S fuel => S <$> depth fuel self p
      end
  end.

(** The invariants of a kinematic tree: unique names, a single root and
    one parent joint for every other link, a parent relation that ends at
    the root, and joints between links of the tree. *)
Definition valid_tree (self : URDFObject) : Prop :=
  initialized self
  ∧ NoDup (link_names self ++ joint_names self)
  ∧ (length (roots self) = 1 ∧ NoDup (up.child <$> up.joints (_urdf_robot self)))
  ∧ Forall (λ l, is_Some (depth (length (link_names self)) self l)) (link_names self)
  ∧ Forall (λ j, up.parent j ∈ link_names self ∧ up.child j ∈ link_names self)
      (up.joints (_urdf_robot self)).

(** A joint leads from [l] down to [l']. *)
Definition edge (self : URDFObject) (l l' : string) : Prop :=
  ∃ j, j ∈ up.joints (_urdf_robot self) ∧ up.parent j = l ∧ up.child j = l'.

(** [l'] is [l] or is reached from it by following child joints. *)
Definition below (self : URDFObject) (l l' : string) : Prop :=
  rtc (edge self) l l'.

(** The joint named [j] hangs below [l]: its parent link is below [l]. *)
Definition joint_below (self : URDFObject) (l j : string) : Prop :=
  ∃ jt, jt ∈ up.joints (_urdf_robot self) ∧ up.joint_name jt = j
        ∧ below self l (up.parent jt).

(** Some link or joint name of [other] is a link or joint name of [self]. *)
Definition name_collision (self other : URDFObject) : Prop :=
  ∃ n, (n ∈ link_names other ∨ n ∈ joint_names other)
       ∧ (n ∈ link_names self ∨ n ∈ joint_names self).

(** The greater and the lesser of two numbers. *)
Definition Qcmax (a b : float) : float := if decide (a ≤ b)%Qc then b else a.
Definition Qcmin (a b : float) : float := if decide (a ≤ b)%Qc then a else b.

(** Collision relevance as the specification words it: by the kind of the
    collision geometry, against the two thresholds. *)
Definition collision_relevant (l : up.Link) (volume_threshold surface_threshold : float)
    : Prop :=
  ∃ c, up.collision l = Some c ∧
    match up.geometry c with
    | up.Mesh _ => True
    | up.Box (length, width, height) =>
        (volume_threshold < length * width * height)%Qc
        ∨ (surface_threshold
           < num 2 * (length * width + length * height + width * height))%Qc
    | up.Sphere r =>
        (volume_threshold < num 4 / num 3 * utils.pi * r ^ 3)%Qc
    | up.Cylinder r h =>
        (volume_threshold < utils.pi * r ^ 2 * h)%Qc
        ∨ (surface_threshold < num 2 * utils.pi * r * (h + r))%Qc
    end.

(** The sub-tree below a link, listed depth first: the link names, and the
    joints.  [n] bounds the depth of the listing. *)
Fixpoint links_under (n : nat) (js : list up.Joint) (l : string) : list string :=
  match n with
  | 0 => []
  | S n => l :: (filter (λ j, up.parent j = l) js ≫= λ j, links_under n js (up.child j))
  end.

Fixpoint joints_under (n : nat) (js : list up.Joint) (l : string) : list up.Joint :=
  match n with
  | 0 => []
  | S n => filter (λ j, up.parent j = l) js ≫= λ j, j :: joints_under n js (up.child j)
  end.

(** The links of [self] are ranked by [D]: the rank grows by one along
    every joint and stays within [N]; the tables are those of the
    document, joint names are distinct and every child of a joint is a
    link.  A valid tree is ranked by the depth of its links. *)
Definition ranked (self : URDFObject) (D : string → nat) (N : nat) : Prop :=
  initialized self
  ∧ NoDup (up.joint_name <$> up.joints (_urdf_robot self))
  ∧ (∀ j, j ∈ up.joints (_urdf_robot self) → up.child j ∈ link_names self)
  ∧ (∀ j, j ∈ up.joints (_urdf_robot self) →
       D (up.child j) = S (D (up.parent j)) ∧ (D (up.child j) ≤ N)%nat).

(** ** Helpers for stating what the mutations leave *)

(** [self] with another robot, and a robot with other aggregates beside
    the same name tables. *)
Definition with_robot (self : URDFObject) (r : up.Robot) : URDFObject :=
  {| original_urdf := original_urdf self; _urdf_robot := r |}.

Definition set_aggregates (r : up.Robot) (aggs : list up.Aggregate) : up.Robot :=
  {| up.robot_name := up.robot_name r;
     up.aggregate_order := aggs;
     up.joint_map := up.joint_map r;
     up.link_map := up.link_map r;
     up.parent_map := up.parent_map r;
     up.child_map := up.child_map r |}.

(** The aggregates that stay when the links, or the joints, named in [ks]
    are removed. *)
Definition keep_links (ks : list string) (a : up.Aggregate) : Prop :=
  match a with
  | up.link l => up.link_name l ∉ ks
  | up.joint _ => True
  end.

Definition keep_joints (ks : list string) (a : up.Aggregate) : Prop :=
  match a with
  | up.link _ => True
  | up.joint j => up.joint_name j ∉ ks
  end.

#[global] Instance keep_links_dec ks a : Decision (keep_links ks a).
Proof. destruct a; simpl; apply _. Defined.

#[global] Instance keep_joints_dec ks a : Decision (keep_joints ks a).
Proof. destruct a; simpl; apply _. Defined.

(** The tree after the sub-tree [sub_tree] below the joint [joint_name]
    has been detached. *)
Definition detached (self sub_tree : URDFObject) (joint_name : string) : URDFObject :=
  with_robot self
    (up.from_xml_string
       {| up.xml_name := get_name self;
          up.xml_elements :=
            filter (keep_joints (joint_name :: get_joint_names sub_tree))
              (filter (keep_links (get_link_names sub_tree))
                 (up.aggregate_order (_urdf_robot self))) |}).

(** ** Example descriptions *)

Definition plain_link (name : string) : up.Link :=
  {| up.link_name := name; up.visual := None; up.collision := None |}.

Definition plain_joint (name parent child type : string) : up.Joint :=
  {| up.joint_name := name; up.parent := parent; up.child := child;
     up.joint_type := type; up.origin := None; up.limit := None;
     up.safety_controller := None; up.mimic := None |}.

Definition limited_joint (name parent child type : string)
    (limit : option up.JointLimit) (soft : option up.SafetyController) : up.Joint :=
  {| up.joint_name := name; up.parent := parent; up.child := child;
     up.joint_type := type; up.origin := None; up.limit := limit;
     up.safety_controller := soft; up.mimic := None |}.

(** [base_link] carrying [arm_link] on the joint [j1]. *)
Definition arm_tree (j1 : up.Joint) : URDFObject :=
  __init__ {| up.xml_name := "robot";
              up.xml_elements :=
                [up.link (plain_link "base_link"); up.link (plain_link "arm_link");
                 up.joint j1] |}.

Definition hard_limits : up.JointLimit :=
  {| up.lower := num (-1); up.upper := num 1; up.velocity := num 1 |}.
Definition soft_limits : up.SafetyController :=
  {| up.soft_lower_limit := frac (-1) 2; up.soft_upper_limit := frac 4 5 |}.

Definition box_link (name : string) (size : float * float * float) : up.Link :=
  {| up.link_name := name; up.visual := None;
     up.collision := Some {| up.geometry := up.Box size |} |}.

Definition single_link (l : up.Link) : URDFObject :=
  __init__ {| up.xml_name := up.link_name l; up.xml_elements := [up.link l] |}.

(** The link [from_world_body] builds around a geometry. *)
Definition body_link (name : string) (geometry : up.Geometry) : up.Link :=
  {| up.link_name := name;
     up.visual := Some {| up.visual_geometry := geometry; up.material := Some green |};
     up.collision := Some {| up.geometry := geometry |} |}.


Section attach_result.

Variable euler_from_quaternion : list float → list float.

(** The joint that welds [urdf_object] below [parent_link]. *)
Definition weld (urdf_object : URDFObject) (root parent_link : string)
    (pose : msg.Pose) : up.Joint :=
  {| up.joint_name := get_name urdf_object;
     up.parent := parent_link;
     up.child := root;
     up.joint_type := "fixed";
     up.origin :=
       Some {| up.xyz := [msg.x (msg.position pose); msg.y (msg.position pose);
                          msg.z (msg.position pose)];
               up.rpy := euler_from_quaternion
                           [msg.qx (msg.orientation pose); msg.qy (msg.orientation pose);
                            msg.qz (msg.orientation pose); msg.qw (msg.orientation pose)] |};
     up.limit := None;
     up.safety_controller := None;
     up.mimic := None |}.

(** The tree after a successful attach: the weld joint, the joints and
    the links of the other tree follow the aggregates of the tree. *)
Definition attached (self urdf_object : URDFObject) (root parent_link : string)
    (pose : msg.Pose) : URDFObject :=
  with_robot self
    (up.from_xml_string
       {| up.xml_name := get_name self;
          up.xml_elements :=
            up.aggregate_order (_urdf_robot self)
            ++ [up.joint (weld urdf_object root parent_link pose)]
            ++ (up.joint <$> up.joints (_urdf_robot urdf_object))
            ++ (up.link <$> up.links (_urdf_robot urdf_object)) |}).

End attach_result.

Definition two_link_tree : URDFObject :=
  arm_tree (plain_joint "j1" "base_link" "arm_link" "revolute").

Definition three_link_tree : URDFObject :=
  __init__ {| up.xml_name := "robot";
              up.xml_elements :=
                [up.link (plain_link "base_link"); up.link (plain_link "arm_link");
                 up.link (plain_link "hand_link");
                 up.joint (plain_joint "j1" "base_link" "arm_link" "revolute");
                 up.joint (plain_joint "j2" "arm_link" "hand_link" "fixed")] |}.

(** A box that carries a second link, called as a link of
    [three_link_tree] is. *)
Definition arm_object : URDFObject :=
  __init__ {| up.xml_name := "box";
              up.xml_elements :=
                [up.link (box_link "box" (num 1, num 1, num 1));
                 up.link (box_link "arm_link" (num 1, num 1, num 1));
                 up.joint (plain_joint "bj" "box" "arm_link" "fixed")] |}.

Definition box_object : URDFObject :=
  single_link (box_link "box" (num 1, num 1, num 1)).

Definition origin_pose : msg.Pose :=
  {| msg.position := {| msg.x := num 0; msg.y := num 0; msg.z := num 0 |};
     msg.orientation :=
       {| msg.qx := num 0; msg.qy := num 0; msg.qz := num 0; msg.qw := num 1 |} |}.

Definition no_rotation (q : list float) : list float := [num 0; num 0; num 0].

(** [three_link_tree] without the hand. *)
Definition without_hand : URDFObject :=
  with_robot three_link_tree
    (up.from_xml_string
       {| up.xml_name := "robot";
          up.xml_elements :=
            [up.link (plain_link "base_link"); up.link (plain_link "arm_link");
             up.joint (plain_joint "j1" "base_link" "arm_link" "revolute")] |}).

(** A description in which two links bear the name [arm_link]: the name
    table holds the one added last, the box. *)
Definition twin_link_tree : URDFObject :=
  __init__ {| up.xml_name := "robot";
              up.xml_elements :=
                [up.link (plain_link "base_link"); up.link (plain_link "arm_link");
                 up.link (box_link "arm_link" (num 1, num 1, num 1));
                 up.joint (plain_joint "j1" "base_link" "arm_link" "revolute")] |}.

(** [twin_link_tree] without the joint and without the box. *)
Definition twins_apart : URDFObject :=
  with_robot twin_link_tree
    (up.from_xml_string
       {| up.xml_name := "robot";
          up.xml_elements :=
            [up.link (plain_link "base_link"); up.link (plain_link "arm_link")] |}).

(** * Further parts of the code *)

(** ** Comparing results *)

#[global] Instance exception_eq_dec : EqDecision exception.
Proof. solve_decision. Defined.

#[global] Instance result_eq_dec {A} `{!EqDecision A} : EqDecision (result A).
Proof. solve_decision. Defined.

(** ** The links above a link *)

(** [l] and the links above it, as the parent relation gives them, at
    most [fuel] steps up. *)
Fixpoint ancestors (fuel : nat) (self : URDFObject) (l : string) : list string :=
  l :: match up.parent_map (_urdf_robot self) !! l, fuel with
       | Some (_, p), S fuel => ancestors fuel self p
       | _, _ => []
       end.

(** ** utils.py: joint states and closest points *)

(** [sensor_msgs/JointState], with the fields the conversions touch. *)
Module sensor_msgs.

Record JointState := {
  name : list string;
  position : list float;
  velocity : list float;
  effort : list float
}.

(** [JointState()] *)
Definition new_JointState : JointState :=
  {| name := []; position := []; velocity := []; effort := [] |}.

End sensor_msgs.

(** [giskardpy.data_types.SingleJointState], every field of which
    [to_joint_state_dict] assigns. *)
Record SingleJointState := {
  sjs_name : string;
  sjs_position : float;
  sjs_velocity : float;
  sjs_effort : float
}.

(** An [OrderedDict]: the entries in the order their keys were first
    set. *)
Definition OrderedDict (V : Type) : Type := list (string * V).

(** [d[k] = v] *)
Fixpoint od_setitem {V} (k : string) (v : V) (d : OrderedDict V) : OrderedDict V :=
  match d with
  | [] => [(k, v)]
  | (k', v') :: d' => if decide (k' = k) then (k, v) :: d' else (k', v') :: od_setitem k v d'
  end.

(** [d.get(k)] *)
Fixpoint od_get {V} (k : string) (d : OrderedDict V) : option V :=
  match d with
  | [] => None
  | (k', v') :: d' => if decide (k' = k) then Some v' else od_get k d'
  end.

(** [l[i]] for an index that is not negative *)
Definition list_getitem {A} (l : list A) (i : nat) : result A :=
  match l !! i with
  | Some a => Ok a
  | None => Raise IndexError
  end.

(** [try: body except IndexError: handler] *)
Definition try_except_IndexError {A} (body handler : result A) : result A :=
  match body with
  | Raise IndexError => handler
  | other => other
  end.

(** [enumerate(l)] *)
Definition enumerate {A} (l : list A) : list (nat * A) := imap (λ i x, (i, x)) l.

Definition to_joint_state_dict (msg : sensor_msgs.JointState)
    : result (OrderedDict SingleJointState) :=
  for_each
    (λ mjs '(i, joint_name),
       let* position := list_getitem (sensor_msgs.position msg) i in
       let* velocity :=
         try_except_IndexError (list_getitem (sensor_msgs.velocity msg) i) (Ok (num 0)) in
       let* effort :=
         try_except_IndexError (list_getitem (sensor_msgs.effort msg) i) (Ok (num 0)) in
       let sjs := {| sjs_name := joint_name; sjs_position := position;
                     sjs_velocity := velocity; sjs_effort := effort |} in
       Ok (od_setitem joint_name sjs mjs))
    (enumerate (sensor_msgs.name msg)) [].

Definition dict_to_joint_states (joint_state_dict : gmap string float)
    : sensor_msgs.JointState :=
  foldl
    (λ js '(k, v),
       {| sensor_msgs.name := sensor_msgs.name js ++ [k];
          sensor_msgs.position := sensor_msgs.position js ++ [v];
          sensor_msgs.velocity := sensor_msgs.velocity js ++ [num 0];
          sensor_msgs.effort := sensor_msgs.effort js ++ [num 0] |})
    sensor_msgs.new_JointState
    (map_to_list joint_state_dict).

(** [giskardpy.data_types.ClosestPointInfo], with the fields
    [closest_point_constraint_violated] reads. *)
Record ClosestPointInfo := {
  link_a : string;
  link_b : string;
  contact_distance : float;
  min_dist : float
}.

(** The loop returns at the first violation it meets (and prints it). *)
Fixpoint closest_point_loop (items : list (string * ClosestPointInfo)) (tolerance : float)
    : bool :=
  match items with
  | [] => false
  | (link_name, cpi_info) :: items =>
      if decide (contact_distance cpi_info < min_dist cpi_info * tolerance)%Qc then true
      else closest_point_loop items tolerance
  end.

Definition closest_point_constraint_violated
    (closest_point_infos : gmap string ClosestPointInfo) (tolerance : float) : bool :=
  closest_point_loop (map_to_list closest_point_infos) tolerance.

(** The state a joint has in the dictionary made from [msg], read at index [i]. *)
Definition state_at (msg : sensor_msgs.JointState) (i : nat) (joint_name : string)
    : option SingleJointState :=
  position ← sensor_msgs.position msg !! i;
  Some {| sjs_name := joint_name; sjs_position := position;
          sjs_velocity := default (num 0) (sensor_msgs.velocity msg !! i);
          sjs_effort := default (num 0) (sensor_msgs.effort msg !! i) |}.

(** ** urdf_object.py: the text of a description

    [hacky_urdf_parser_fix] as it works on the text of a document, line by
    line. *)

Module text.

(** The line feed, and the string ['\n']. *)
Definition LF : Ascii.ascii := Ascii.ascii_of_nat 10.
Definition newline : string := String LF "".

(** [s.split('\n')] *)
Fixpoint split_lines (s : string) : list string :=
  match s with
  | EmptyString => [""]
  | String c s' =>
      if decide (c = LF) then "" :: split_lines s'
      else match split_lines s' with
           | line :: lines => String c line :: lines
           | [] => [String c ""]  (* not reached: a split is never empty *)
           end
  end.

(** [x in line] *)
Fixpoint contains (x line : string) : bool :=
  String.prefix x line
  || match line with
     | EmptyString => false
     | String _ line' => contains x line'
     end.

Definition black_list : list string := ["transmission"; "gazebo"].
Definition black_open : list string := (λ x, "<" +:+ x) <$> black_list.
Definition black_close : list string := (λ x, "</" +:+ x) <$> black_list.

(** One round of the loop, on the text kept so far and the flag
    [delete]. *)
Definition fix_line (state : string * bool) (line : string) : string * bool :=
  let '(fixed_urdf, delete) := state in
  let delete :=
    if decide (0 < length (filter (λ x, contains x line) black_open))%nat then true
    else delete in
  if decide (0 < length (filter (λ x, contains x line) black_close))%nat then
    (fixed_urdf, false)
  else if negb delete then (fixed_urdf +:+ (line +:+ newline), delete)
  else (fixed_urdf, delete).

(** The loop over the lines. *)
Definition fix_lines (lines : list string) : string :=
  fst (foldl fix_line ("", false) lines).

Definition hacky_urdf_parser_fix (urdf_str : string) : string :=
  fix_lines (split_lines urdf_str).

(** A line holds an opening tag, or a closing tag, of the black list. *)
Definition opens (line : string) : bool := existsb (λ x, contains x line) black_open.
Definition closes (line : string) : bool := existsb (λ x, contains x line) black_close.
Definition tagged (line : string) : bool := opens line || closes line.

(** No section is open after the lines [pre]: the last of them that
    holds a tag, if any, holds a closing tag. *)
Definition section_closed (pre : list string) : bool :=
  match last (filter (λ line, tagged line) pre) with
  | Some line => closes line
  | None => true
  end.

End text.

(** ** Chains

    [get_chain] of the parser library's robot, as the library carries it
    out: it climbs from [tip] to [root] along [parent_map], collecting
    joint and link names, and reverses what it collected.  The climb need
    not end when [root] is not above [tip] in a cyclic description; it is
    given fuel. *)

Module Robot.

Fixpoint get_chain_loop (fuel : nat) (r : up.Robot) (root link : string)
    (joints links fixed : bool) (chain : list string) : option (result (list string)) :=
  if decide (link = root) then Some (Ok chain)
  else
    match fuel with
    | 0 => None
    | S fuel =>
        match
          (let* '(joint, parent) := getitem (up.parent_map r) link in
           let* chain :=
             if joints then
               let* keep :=
                 if fixed then Ok true
                 else let* j := getitem (up.joint_map r) joint in
                      Ok (bool_decide (up.joint_type j ≠ "fixed")) in
               Ok (if keep then chain ++ [joint] else chain)
             else Ok chain in
           let chain := if links then chain ++ [parent] else chain in
           Ok (parent, chain))
        with
        | Ok (parent, chain) => get_chain_loop fuel r root parent joints links fixed chain
        | Raise e => Some (Raise e)
        end
    end.

Definition get_chain (fuel : nat) (r : up.Robot) (root tip : string)
    (joints links fixed : bool) : option (result (list string)) :=
  let chain := if links then [tip] else [] in
  match get_chain_loop fuel r root tip joints links fixed chain with
  | Some (Ok chain) => Some (Ok (reverse chain))
  | other => other
  end.

End Robot.

Definition get_joint_names_from_chain (fuel : nat) (self : URDFObject)
    (root_link tip_link : string) : option (result (list string)) :=
  Robot.get_chain fuel (_urdf_robot self) root_link tip_link true false true.

Definition get_joint_names_from_chain_controllable (fuel : nat) (self : URDFObject)
    (root_link tip_link : string) : option (result (list string)) :=
  Robot.get_chain fuel (_urdf_robot self) root_link tip_link true false false.

Definition get_link_names_from_chain (fuel : nat) (self : URDFObject)
    (root_link tip_link : string) : option (result (list string)) :=
  Robot.get_chain fuel (_urdf_robot self) root_link tip_link false true false.

(** The joints [js] lead from [root] down to [tip], one after the
    other. *)
Inductive chain_path (self : URDFObject) (root : string)
    : string → list up.Joint → Prop :=
| chain_path_nil : chain_path self root root []
| chain_path_snoc l js j :
    chain_path self root l js →
    j ∈ up.joints (_urdf_robot self) →
    up.parent j = l →
    chain_path self root (up.child j) (js ++ [j]).

(** What the climb collects at the joint [j]. *)
Definition chain_entries (joints links fixed : bool) (j : up.Joint) : list string :=
  (if joints && (fixed || bool_decide (up.joint_type j ≠ "fixed"))
   then [up.joint_name j] else [])
  ++ (if links then [up.parent j] else []).

(** ** python_interface.py: the commands of [GiskardWrapper]

    The messages of [giskard_msgs] and [geometry_msgs] are not part of the
    repository; they are given with the fields [python_interface.py]
    assigns, a field it does not assign holding the default of a fresh
    message.  The connections to ROS are left out. *)

Module PoseStamped.

Record t := { frame_id : string; pose : msg.Pose }.

(** [PoseStamped()] *)
Definition new : t :=
  {| frame_id := "";
     pose := {| msg.position := {| msg.x := num 0; msg.y := num 0; msg.z := num 0 |};
                msg.orientation := {| msg.qx := num 0; msg.qy := num 0;
                                      msg.qz := num 0; msg.qw := num 0 |} |} |}.

End PoseStamped.

Module Controller.

Inductive kind := JOINT | TRANSLATION_3D | ROTATION_3D.

Record t := {
  type : kind;
  root_link : string;
  tip_link : string;
  goal_pose : PoseStamped.t;
  goal_state : sensor_msgs.JointState;
  weight : float;
  max_speed : float;
  p_gain : float
}.

End Controller.

Module CollisionEntry.

Inductive kind :=
| AVOID_COLLISION
| ALLOW_COLLISION
| AVOID_ALL_COLLISIONS
| ALLOW_ALL_COLLISIONS.

Record t := {
  type : kind;
  min_dist : float;
  robot_links : list string;
  body_b : string;
  link_bs : list string
}.

End CollisionEntry.

Module MoveCmd.

Record t := {
  controllers : list Controller.t;
  collisions : list CollisionEntry.t
}.

(** [MoveCmd()] *)
Definition new : t := {| controllers := []; collisions := [] |}.

End MoveCmd.

Module MoveGoal.

Inductive kind := PLAN_AND_EXECUTE.

Record t := { type : kind; cmd_seq : list MoveCmd.t }.

End MoveGoal.

Module GiskardWrapper.

Record t := {
  cmd_seq : list MoveCmd.t;
  collisions : list CollisionEntry.t;
  joint_gain : float;
  joint_max_speed : float;
  robot_name : string
}.

Definition set_cmd_seq (self : t) (cmd_seq : list MoveCmd.t) : t :=
  {| cmd_seq := cmd_seq;
     collisions := collisions self;
     joint_gain := joint_gain self;
     joint_max_speed := joint_max_speed self;
     robot_name := robot_name self |}.

(** [self.cmd_seq[-1]], updated in place by [f]. *)
Definition on_last_cmd (f : MoveCmd.t → MoveCmd.t) : method t unit :=
  λ self,
    match cmd_seq self with
    | [] => (Raise IndexError, self)
    | _ :: _ =>
        (Ok tt, set_cmd_seq self (alter f (pred (length (cmd_seq self))) (cmd_seq self)))
    end.

Definition append_controller (controller : Controller.t) (cmd : MoveCmd.t) : MoveCmd.t :=
  {| MoveCmd.controllers := MoveCmd.controllers cmd ++ [controller];
     MoveCmd.collisions := MoveCmd.collisions cmd |}.

Definition extend_collisions (collisions : list CollisionEntry.t) (cmd : MoveCmd.t)
    : MoveCmd.t :=
  {| MoveCmd.controllers := MoveCmd.controllers cmd;
     MoveCmd.collisions := MoveCmd.collisions cmd ++ collisions |}.

Definition p_gain_default : float := num 3.
Definition max_speed_default : float := frac 1 5.

Definition set_tranlation_goal (root tip : string) (pose_stamped : PoseStamped.t)
    (p_gain max_speed : float) : method t unit :=
  let controller :=
    {| Controller.type := Controller.TRANSLATION_3D;
       Controller.root_link := root;
       Controller.tip_link := tip;
       Controller.goal_pose := pose_stamped;
       Controller.goal_state := sensor_msgs.new_JointState;
       Controller.weight := num 1;
       Controller.max_speed := max_speed;
       Controller.p_gain := p_gain |} in
  on_last_cmd (append_controller controller).

Definition set_rotation_goal (root tip : string) (pose_stamped : PoseStamped.t)
    (p_gain max_speed : float) : method t unit :=
  let controller :=
    {| Controller.type := Controller.ROTATION_3D;
       Controller.root_link := root;
       Controller.tip_link := tip;
       Controller.goal_pose := pose_stamped;
       Controller.goal_state := sensor_msgs.new_JointState;
       Controller.weight := num 1;
       Controller.max_speed := max_speed;
       Controller.p_gain := p_gain |} in
  on_last_cmd (append_controller controller).

Definition set_cart_goal (root tip : string) (pose_stamped : PoseStamped.t)
    : method t unit :=
  do_ set_tranlation_goal root tip pose_stamped p_gain_default max_speed_default;
  set_rotation_goal root tip pose_stamped p_gain_default max_speed_default.

(** What [set_joint_goal] is given: a dictionary, a [JointState], or
    something else. *)
Inductive joint_state_arg :=
| a_dict (joint_state : gmap string float)
| a_JointState (joint_state : sensor_msgs.JointState)
| another.

Definition set_joint_goal (joint_state : joint_state_arg) : method t unit :=
  do self <- get;
  let goal_state :=
    match joint_state with
    | a_dict joint_state =>
        foldl
          (λ goal_state '(joint_name, joint_position),
             {| sensor_msgs.name := sensor_msgs.name goal_state ++ [joint_name];
                sensor_msgs.position := sensor_msgs.position goal_state ++ [joint_position];
                sensor_msgs.velocity := sensor_msgs.velocity goal_state;
                sensor_msgs.effort := sensor_msgs.effort goal_state |})
          sensor_msgs.new_JointState (map_to_list joint_state)
    | a_JointState joint_state => joint_state
    | another => sensor_msgs.new_JointState
    end in
  let controller :=
    {| Controller.type := Controller.JOINT;
       Controller.root_link := "";
       Controller.tip_link := "";
       Controller.goal_pose := PoseStamped.new;
       Controller.goal_state := goal_state;
       Controller.weight := num 1;
       Controller.max_speed := joint_max_speed self;
       Controller.p_gain := joint_gain self |} in
  on_last_cmd (append_controller controller).

Definition set_collision_entries (collisions : list CollisionEntry.t) : method t unit :=
  on_last_cmd (extend_collisions collisions).

(** [x if x is not None else []] *)
Definition or_empty (links : option (list string)) : list string := default [] links.

Definition allow_collision (robot_links : option (list string)) (body_b : string)
    (link_bs : option (list string)) : method t unit :=
  let collision_entry :=
    {| CollisionEntry.type := CollisionEntry.ALLOW_COLLISION;
       CollisionEntry.min_dist := num 0;
       CollisionEntry.robot_links := or_empty robot_links;
       CollisionEntry.body_b := body_b;
       CollisionEntry.link_bs := or_empty link_bs |} in
  set_collision_entries [collision_entry].

Definition avoid_collision (min_dist : float) (robot_links : option (list string))
    (body_b : string) (link_bs : option (list string)) : method t unit :=
  let collision_entry :=
    {| CollisionEntry.type := CollisionEntry.AVOID_COLLISION;
       CollisionEntry.min_dist := min_dist;
       CollisionEntry.robot_links := or_empty robot_links;
       CollisionEntry.body_b := body_b;
       CollisionEntry.link_bs := or_empty link_bs |} in
  set_collision_entries [collision_entry].

Definition allow_all_collisions : method t unit :=
  let collision_entry :=
    {| CollisionEntry.type := CollisionEntry.ALLOW_ALL_COLLISIONS;
       CollisionEntry.min_dist := num 0;
       CollisionEntry.robot_links := [];
       CollisionEntry.body_b := "";
       CollisionEntry.link_bs := [] |} in
  set_collision_entries [collision_entry].

Definition avoid_all_collisions (distance : float) : method t unit :=
  let collision_entry :=
    {| CollisionEntry.type := CollisionEntry.AVOID_ALL_COLLISIONS;
       CollisionEntry.min_dist := distance;
       CollisionEntry.robot_links := [];
       CollisionEntry.body_b := "";
       CollisionEntry.link_bs := [] |} in
  set_collision_entries [collision_entry].

Definition add_cmd : method t unit :=
  λ self, (Ok tt, set_cmd_seq self (cmd_seq self ++ [MoveCmd.new])).

Definition clear_cmds : method t unit :=
  do_ (λ self, (Ok tt, set_cmd_seq self []));
  add_cmd.

Definition get_collision_entries : method t (list MoveCmd.t) :=
  do self <- get; ret (cmd_seq self).

Definition _get_goal : method t MoveGoal.t :=
  do self <- get;
  let goal :=
    {| MoveGoal.type := MoveGoal.PLAN_AND_EXECUTE; MoveGoal.cmd_seq := cmd_seq self |} in
  do_ clear_cmds;
  ret goal.

Definition disable_self_collision : method t unit :=
  do self <- get;
  let collision_entry :=
    {| CollisionEntry.type := CollisionEntry.ALLOW_COLLISION;
       CollisionEntry.min_dist := num 1;
       CollisionEntry.robot_links := [];
       CollisionEntry.body_b := robot_name self;
       CollisionEntry.link_bs := [] |} in
  set_collision_entries [collision_entry].

(** [make_box]: [size] is [None] or a sequence, of which the first three
    entries are read. *)
Definition make_box (name : string) (size : option (list float)) : result msg.WorldBody :=
  let* dimensions :=
    match size with
    | Some size =>
        let* s0 := list_getitem size 0 in
        let* s1 := list_getitem size 1 in
        let* s2 := list_getitem size 2 in
        Ok [s0; s1; s2]
    | None => Ok []
    end in
  Ok {| msg.body_type := msg.PRIMITIVE_BODY;
        msg.name := name;
        msg.shape := {| msg.shape_type := msg.BOX; msg.dimensions := dimensions |};
        msg.mesh := "";
        msg.urdf := {| up.xml_name := ""; up.xml_elements := [] |} |}.

(** The calls that build up a goal. *)
Inductive call :=
| call_set_cart_goal (root tip : string) (pose_stamped : PoseStamped.t)
| call_set_tranlation_goal (root tip : string) (pose_stamped : PoseStamped.t)
    (p_gain max_speed : float)
| call_set_rotation_goal (root tip : string) (pose_stamped : PoseStamped.t)
    (p_gain max_speed : float)
| call_set_joint_goal (joint_state : joint_state_arg)
| call_set_collision_entries (collisions : list CollisionEntry.t)
| call_allow_collision (robot_links : option (list string)) (body_b : string)
    (link_bs : option (list string))
| call_avoid_collision (min_dist : float) (robot_links : option (list string))
    (body_b : string) (link_bs : option (list string))
| call_allow_all_collisions
| call_avoid_all_collisions (distance : float)
| call_disable_self_collision
| call_add_cmd
| call_clear_cmds
| call__get_goal.

Definition run (c : call) : method t unit :=
  match c with
  | call_set_cart_goal root tip pose_stamped => set_cart_goal root tip pose_stamped
  | call_set_tranlation_goal root tip pose_stamped p_gain max_speed =>
      set_tranlation_goal root tip pose_stamped p_gain max_speed
  | call_set_rotation_goal root tip pose_stamped p_gain max_speed =>
      set_rotation_goal root tip pose_stamped p_gain max_speed
  | call_set_joint_goal joint_state => set_joint_goal joint_state
  | call_set_collision_entries collisions => set_collision_entries collisions
  | call_allow_collision robot_links body_b link_bs =>
      allow_collision robot_links body_b link_bs
  | call_avoid_collision min_dist robot_links body_b link_bs =>
      avoid_collision min_dist robot_links body_b link_bs
  | call_allow_all_collisions => allow_all_collisions
  | call_avoid_all_collisions distance => avoid_all_collisions distance
  | call_disable_self_collision => disable_self_collision
  | call_add_cmd => add_cmd
  | call_clear_cmds => clear_cmds
  | call__get_goal => do_ _get_goal; ret tt
  end.

(** The calls that set a goal or a collision entry. *)
Definition is_setter (c : call) : bool :=
  match c with
  | call_add_cmd | call_clear_cmds | call__get_goal => false
  | _ => true
  end.

End GiskardWrapper.

(** ** Further example descriptions *)

(** A wrapper as [__init__] leaves it. *)
Definition idle_wrapper : GiskardWrapper.t :=
  {| GiskardWrapper.cmd_seq := [MoveCmd.new];
     GiskardWrapper.collisions := [];
     GiskardWrapper.joint_gain := num 10;
     GiskardWrapper.joint_max_speed := num 1;
     GiskardWrapper.robot_name := "robot" |}.

(** A tool on a link of its own. *)
Definition tool_object : URDFObject :=
  __init__ {| up.xml_name := "tool";
              up.xml_elements := [up.link (plain_link "tool_link")] |}.

(** A box as [from_world_body] receives it. *)
Definition box_body (name : string) (dimensions : list float) : msg.WorldBody :=
  {| msg.body_type := msg.PRIMITIVE_BODY; msg.name := name;
     msg.shape := {| msg.shape_type := msg.BOX; msg.dimensions := dimensions |};
     msg.mesh := "";
     msg.urdf := {| up.xml_name := ""; up.xml_elements := [] |} |}.

(** * Proofs by evaluation *)

Ltac by_computation := apply (bool_decide_unpack _); vm_compute; exact I.

Ltac valid_by_computation :=
  unfold valid_tree; split_and!;
  [vm_compute; reflexivity|by_computation|vm_compute; reflexivity
  |by_computation|by_computation|by_computation].

(** * Limits *)

Lemma py_max_Qcmax a b : py_max a b = Qcmax b a.
Proof.
  unfold py_max, Qcmax.
  destruct (decide (a < b)%Qc) as [Hlt|Hge], (decide (b ≤ a)%Qc) as [Hle|Hnle]; try done.
  - exfalso. by eapply Qclt_not_le.
  - exfalso. by apply Hge, Qcnot_le_lt.
Qed.

Lemma py_min_Qcmin a b : py_min a b = Qcmin b a.
Proof.
  unfold py_min, Qcmin.
  destruct (decide (b < a)%Qc) as [Hlt|Hge], (decide (b ≤ a)%Qc) as [Hle|Hnle]; try done.
  - exfalso. by apply Hnle, Qclt_le_weak.
  - apply Qcle_antisym; [|done]. by apply Qcnot_lt_le.
Qed.

Lemma Qcmax_spec a b :
  (a ≤ Qcmax a b)%Qc ∧ (b ≤ Qcmax a b)%Qc ∧ (Qcmax a b = a ∨ Qcmax a b = b).
Proof.
  unfold Qcmax. case_decide as H.
  - split_and!; [done|apply Qcle_refl|by right].
  - split_and!; [apply Qcle_refl| |by left].
    by apply Qclt_le_weak, Qcnot_le_lt.
Qed.

Lemma Qcmin_spec a b :
  (Qcmin a b ≤ a)%Qc ∧ (Qcmin a b ≤ b)%Qc ∧ (Qcmin a b = a ∨ Qcmin a b = b).
Proof.
  unfold Qcmin. case_decide as H.
  - split_and!; [apply Qcle_refl|done|by left].
  - split_and!; [|apply Qcle_refl|by right].
    by apply Qclt_le_weak, Qcnot_le_lt.
Qed.

(** What the query returns, by what the joint declares. *)
Lemma get_joint_limits_eq self name j :
  get_urdf_joint self name = Ok j →
  get_joint_limits self name =
    Ok (match up.limit j, up.safety_controller j with
        | Some hard, Some soft =>
            (Some (Qcmax (up.lower hard) (up.soft_lower_limit soft)),
             Some (Qcmin (up.upper hard) (up.soft_upper_limit soft)))
        | Some hard, None => (Some (up.lower hard), Some (up.upper hard))
        | None, _ => (None, None)
        end).
Proof.
  intros Hj. unfold get_joint_limits. rewrite Hj. simpl.
  destruct (up.limit j) as [hard|], (up.safety_controller j) as [soft|]; simpl;
    by rewrite ?py_max_Qcmax, ?py_min_Qcmin.
Qed.

(** C4: a joint with hard position limits resolves to
    [(max(hard.lower, soft.lower), min(hard.upper, soft.upper))] when it has
    soft limits, and to its hard limits when it has none. *)
Theorem effective_limits_of_hard_limits self name j hard :
  get_urdf_joint self name = Ok j →
  up.limit j = Some hard →
  get_joint_limits self name =
    Ok (match up.safety_controller j with
        | Some soft =>
            (Some (Qcmax (up.lower hard) (up.soft_lower_limit soft)),
             Some (Qcmin (up.upper hard) (up.soft_upper_limit soft)))
        | None => (Some (up.lower hard), Some (up.upper hard))
        end).
Proof.
  intros Hj Hhard. rewrite (get_joint_limits_eq _ _ _ Hj), Hhard.
  by destruct (up.safety_controller j).
Qed.

Lemma effective_limits_of_hard_limits_witness :
  get_joint_limits
    (arm_tree (limited_joint "j1" "base_link" "arm_link" "revolute"
                 (Some hard_limits) (Some soft_limits))) "j1"
  = Ok (Some (frac (-1) 2), Some (frac 4 5))
  ∧ get_joint_limits
      (arm_tree (limited_joint "j1" "base_link" "arm_link" "revolute"
                   (Some hard_limits) None)) "j1"
    = Ok (Some (num (-1)), Some (num 1)).
Proof.
  split.
  - rewrite (effective_limits_of_hard_limits _ _
               (limited_joint "j1" "base_link" "arm_link" "revolute"
                  (Some hard_limits) (Some soft_limits)) hard_limits);
      [|reflexivity|reflexivity].
    reflexivity.
  - rewrite (effective_limits_of_hard_limits _ _
               (limited_joint "j1" "base_link" "arm_link" "revolute"
                  (Some hard_limits) None) hard_limits);
      [|reflexivity|reflexivity].
    reflexivity.
Defined.

(** A continuous joint that declares limits gets them back. *)
Lemma continuous_joint_keeps_declared_limits :
  is_joint_continuous
    (arm_tree (limited_joint "j1" "base_link" "arm_link" "continuous"
                 (Some hard_limits) None)) "j1" = Ok true
  ∧ get_joint_limits
      (arm_tree (limited_joint "j1" "base_link" "arm_link" "continuous"
                   (Some hard_limits) None)) "j1"
    = Ok (Some (num (-1)), Some (num 1)).
Proof. split; reflexivity. Qed.

(** C5, as the code has it: a continuous joint resolves to no position
    bound when it declares no limits; the kind of the joint plays no part
    in the resolution, and declared limits are resolved as for any joint. *)
Theorem continuous_joint_without_limits_unbounded self name j :
  get_urdf_joint self name = Ok j →
  up.joint_type j = "continuous" →
  (up.limit j = None → get_joint_limits self name = Ok (None, None))
  ∧ (∀ hard, up.limit j = Some hard →
       get_joint_limits self name =
         Ok (match up.safety_controller j with
             | Some soft =>
                 (Some (Qcmax (up.lower hard) (up.soft_lower_limit soft)),
                  Some (Qcmin (up.upper hard) (up.soft_upper_limit soft)))
             | None => (Some (up.lower hard), Some (up.upper hard))
             end)).
Proof.
  intros Hj _. rewrite (get_joint_limits_eq _ _ _ Hj). split.
  - by intros ->.
  - intros hard ->. by destruct (up.safety_controller j).
Qed.

Lemma continuous_joint_without_limits_unbounded_witness :
  get_joint_limits
    (arm_tree (plain_joint "j1" "base_link" "arm_link" "continuous")) "j1"
  = Ok (None, None).
Proof.
  apply (continuous_joint_without_limits_unbounded _ _
           (plain_joint "j1" "base_link" "arm_link" "continuous"));
    reflexivity.
Defined.

(** A fixed joint that declares limits gets them back: the query neither
    fails nor answers "not applicable". *)
Lemma fixed_joint_limits_returned :
  get_joint_type
    (arm_tree (limited_joint "j1" "base_link" "arm_link" "fixed"
                 (Some hard_limits) None)) "j1" = Ok "fixed"
  ∧ get_joint_limits
      (arm_tree (limited_joint "j1" "base_link" "arm_link" "fixed"
                   (Some hard_limits) None)) "j1"
    = Ok (Some (num (-1)), Some (num 1)).
Proof. split; reflexivity. Qed.

(** C6, as the code has it: for a fixed joint, which declares no limits,
    the query returns the pair [(None, None)]; it does not raise.  The kind
    of the joint plays no part: declared limits are resolved as for any
    joint. *)
Theorem fixed_joint_limits_not_applicable self name j :
  get_urdf_joint self name = Ok j →
  up.joint_type j = "fixed" →
  (up.limit j = None → get_joint_limits self name = Ok (None, None))
  ∧ (∀ hard, up.limit j = Some hard →
       get_joint_limits self name =
         Ok (match up.safety_controller j with
             | Some soft =>
                 (Some (Qcmax (up.lower hard) (up.soft_lower_limit soft)),
                  Some (Qcmin (up.upper hard) (up.soft_upper_limit soft)))
             | None => (Some (up.lower hard), Some (up.upper hard))
             end)).
Proof.
  intros Hj _. rewrite (get_joint_limits_eq _ _ _ Hj). split.
  - by intros ->.
  - intros hard ->. by destruct (up.safety_controller j).
Qed.

Lemma fixed_joint_limits_not_applicable_witness :
  get_joint_limits
    (arm_tree (plain_joint "j1" "base_link" "arm_link" "fixed")) "j1"
  = Ok (None, None).
Proof.
  apply (fixed_joint_limits_not_applicable _ _
           (plain_joint "j1" "base_link" "arm_link" "fixed"));
    reflexivity.
Defined.

(** * Collision relevance *)

Lemma gt_true a b : gt a b = true ↔ (b < a)%Qc.
Proof. unfold gt. apply bool_decide_eq_true. Qed.

(** The query never raises on a registered link. *)
Lemma has_link_collision_returns self name l vt st :
  up.link_map (_urdf_robot self) !! name = Some l →
  ∃ b, has_link_collision self name vt st = Ok b.
Proof.
  intros Hl. unfold has_link_collision, getitem. rewrite Hl. simpl.
  destruct (up.collision l) as [[geo]|]; [|by eexists].
  destruct geo as [[[? ?] ?]| | |]; simpl; unfold py_or, py_and; simpl;
    repeat match goal with |- context [gt ?a ?b] => destruct (gt a b); simpl end;
    by eexists.
Qed.

(** C7: a link is collision-relevant iff it has collision geometry that is
    a mesh, a box whose volume or surface exceeds its threshold, a sphere
    whose volume does, or a cylinder whose volume or surface does; a link
    without collision geometry never is. *)
Theorem has_link_collision_iff self name l vt st :
  up.link_map (_urdf_robot self) !! name = Some l →
  (has_link_collision self name vt st = Ok true ↔ collision_relevant l vt st)
  ∧ (has_link_collision self name vt st = Ok true
     ∨ has_link_collision self name vt st = Ok false)
  ∧ (up.collision l = None → has_link_collision self name vt st = Ok false).
Proof.
  intros Hl. split_and!.
  - unfold has_link_collision, getitem, collision_relevant. rewrite Hl. simpl.
    destruct (up.collision l) as [[geo]|]; [|by split; [|intros (? & ? & ?)]].
    destruct geo as [[[a b] c]|r|r h|f]; simpl; unfold py_or, py_and; simpl.
    + unfold utils.cube_volume, utils.cube_surface.
      destruct (gt (a * b * c)%Qc vt) eqn:E1; simpl.
      { apply gt_true in E1. naive_solver. }
      destruct (gt _ st) eqn:E2; simpl.
      { apply gt_true in E2. naive_solver. }
      split; [done|]. intros (c' & [= <-] & [H|H]); simpl in *;
        apply gt_true in H; congruence.
    + unfold utils.sphere_volume.
      destruct (gt _ vt) eqn:E1; simpl.
      { apply gt_true in E1. naive_solver. }
      split; [done|]. intros (c' & [= <-] & H); simpl in *.
      apply gt_true in H; congruence.
    + unfold utils.cylinder_volume, utils.cylinder_surface.
      destruct (gt _ vt) eqn:E1; simpl.
      { apply gt_true in E1. naive_solver. }
      destruct (gt _ st) eqn:E2; simpl.
      { apply gt_true in E2. naive_solver. }
      split; [done|]. intros (c' & [= <-] & [H|H]); simpl in *;
        apply gt_true in H; congruence.
    + naive_solver.
  - destruct (has_link_collision_returns self name l vt st Hl) as [[] ->]; auto.
  - intros Hc. unfold has_link_collision, getitem. rewrite Hl. simpl. by rewrite Hc.
Qed.

Lemma has_link_collision_iff_witness :
  collision_relevant (box_link "box" (num 1, num 1, num 1))
    volume_threshold_default surface_threshold_default
  ∧ ¬ collision_relevant (box_link "box" (frac 1 1000, frac 1 1000, frac 1 1000))
        volume_threshold_default surface_threshold_default.
Proof.
  split.
  - apply (has_link_collision_iff
             (single_link (box_link "box" (num 1, num 1, num 1))) "box");
      reflexivity.
  - intros H.
    apply (has_link_collision_iff
             (single_link (box_link "box" (frac 1 1000, frac 1 1000, frac 1 1000)))
             "box") in H; [|reflexivity].
    discriminate H.
Defined.

(** * Construction from a body descriptor *)

Lemma from_parts_single name geometry :
  from_parts name [body_link name geometry] [] = single_link (body_link name geometry).
Proof. reflexivity. Qed.




(** * The robot container *)

Lemma robot_name_foldl_add_aggregate r aggs :
  up.robot_name (foldl up.add_aggregate r aggs) = up.robot_name r.
Proof.
  revert r. induction aggs as [|a aggs IH]; intros r; [done|].
  simpl. rewrite IH. by destruct a.
Qed.

Lemma aggregate_order_foldl_add_aggregate r aggs :
  up.aggregate_order (foldl up.add_aggregate r aggs) = up.aggregate_order r ++ aggs.
Proof.
  revert r. induction aggs as [|a aggs IH]; intros r; simpl.
  - by rewrite app_nil_r.
  - rewrite IH. destruct a; simpl; by rewrite <- app_assoc.
Qed.

Lemma foldl_add_link r ls :
  foldl up.add_link r ls = foldl up.add_aggregate r (up.link <$> ls).
Proof. revert r. induction ls as [|l ls IH]; intros r; [done|]. simpl. by rewrite IH. Qed.

Lemma foldl_add_joint r js :
  foldl up.add_joint r js = foldl up.add_aggregate r (up.joint <$> js).
Proof. revert r. induction js as [|j js IH]; intros r; [done|]. simpl. by rewrite IH. Qed.

Lemma to_xml_string_from_xml_string doc :
  up.to_xml_string (up.from_xml_string doc) = doc.
Proof.
  unfold up.to_xml_string, up.from_xml_string.
  rewrite robot_name_foldl_add_aggregate, aggregate_order_foldl_add_aggregate.
  by destruct doc.
Qed.

Lemma initialized___init__ urdf : initialized (__init__ urdf).
Proof.
  unfold initialized, get_urdf, __init__, hacky_urdf_parser_fix. simpl.
  by rewrite to_xml_string_from_xml_string.
Qed.

Lemma from_parts_eq name ls js :
  from_parts name ls js
  = __init__ {| up.xml_name := name;
                up.xml_elements := (up.link <$> ls) ++ (up.joint <$> js) |}.
Proof.
  unfold from_parts. f_equal. unfold up.to_xml_string.
  rewrite foldl_add_joint, foldl_add_link, <- foldl_app.
  by rewrite robot_name_foldl_add_aggregate, aggregate_order_foldl_add_aggregate.
Qed.

(** [get_root] raises nothing but its assertions. *)
Lemma get_root_raises r e :
  up.get_root r = Raise e → ∃ msg, e = AssertionError msg.
Proof.
  unfold up.get_root.
  generalize (@None string). induction (up.keys (up.link_map r)) as [|l ls IH];
    intros root; simpl.
  - destruct root; [done|]. intros [= <-]. by eexists.
  - case_decide; simpl; [apply IH|].
    destruct root; simpl; [|apply IH]. intros [= <-]. by eexists.
Qed.

(** * Methods on the robot of [self] *)

Lemma for_each_do_on_robot {A} (f : up.Robot → A → up.Robot) (xs : list A) self :
  for_each_do (λ x, on_robot (λ r, Ok (f r x))) xs self
  = (Ok tt, if xs is [] then self else with_robot self (foldl f (_urdf_robot self) xs)).
Proof.
  revert self. induction xs as [|x xs IH]; intros self; [done|].
  simpl. unfold and_then, on_robot at 1. rewrite IH. simpl.
  by destruct xs.
Qed.

Lemma on_robot_Ok (f : up.Robot → up.Robot) self :
  on_robot (λ r, Ok (f r)) self = (Ok tt, with_robot self (f (_urdf_robot self))).
Proof. reflexivity. Qed.

(** * Attaching *)

Section attach_facts.

Variable euler_from_quaternion : list float → list float.

Lemma attach_urdf_object_eq self urdf_object parent_link pose :
  attach_urdf_object euler_from_quaternion urdf_object parent_link pose self
  = if decide (get_name urdf_object ∈ get_link_names self) then
      (Raise (DuplicateNameException
                ("'" +:+ get_name self +:+ "' already has link with name '"
                 +:+ get_name urdf_object +:+ "'.")), self)
    else if decide (get_name urdf_object ∈ get_joint_names self) then
      (Raise (DuplicateNameException
                ("'" +:+ get_name self +:+ "' already has joint with name '"
                 +:+ get_name urdf_object +:+ "'.")), self)
    else if decide (parent_link ∉ get_link_names self) then
      (Raise (KeyError
                ("can not attach '" +:+ get_name urdf_object
                 +:+ "' to non existent parent link '" +:+ parent_link
                 +:+ "' of '" +:+ get_name self +:+ "'")), self)
    else match get_root urdf_object with
         | Raise e => (Raise e, self)
         | Ok root => (Ok tt, attached euler_from_quaternion self urdf_object root parent_link pose)
         end.
Proof.
  unfold attach_urdf_object, and_then, get at 1. cbv beta iota.
  repeat case_decide; try done.
  unfold lift. destruct (get_root urdf_object) as [root|e]; [|done].
  rewrite on_robot_Ok.
  rewrite (for_each_do_on_robot up.add_joint).
  set (s1 := if up.joints _ is [] then _ else _).
  rewrite (for_each_do_on_robot up.add_link).
  set (s2 := if up.links _ is [] then _ else _).
  unfold reinitialize, attached, with_robot. f_equal.
  assert (original_urdf s2 = original_urdf self) as ->.
  { subst s2 s1. by repeat case_match. }
  f_equal. unfold get_urdf, up.to_xml_string. f_equal.
  assert (_urdf_robot s2
          = foldl up.add_aggregate (_urdf_robot self)
              ([up.joint (weld euler_from_quaternion urdf_object root parent_link pose)]
               ++ (up.joint <$> up.joints (_urdf_robot urdf_object))
               ++ (up.link <$> up.links (_urdf_robot urdf_object)))) as ->.
  { subst s2 s1. rewrite !foldl_app. simpl.
    rewrite <- foldl_add_joint, <- foldl_add_link.
    by repeat case_match. }
  by rewrite robot_name_foldl_add_aggregate, aggregate_order_foldl_add_aggregate.
Qed.

(** C1, as the code has it: the preconditions that [attach_urdf_object]
    checks are that the name of the other tree is no link name and no
    joint name of the tree, that the parent link is a link of the tree, and
    that the other tree has a single root.  The call fails exactly when one
    of them is broken, and every call that fails leaves the tree as it
    was: the object, and with it the registry, the index and the
    serialized form, is unchanged, and nothing of the other tree has been
    inserted. *)
Theorem attach_failure_leaves_tree_unchanged self urdf_object parent_link pose :
  (get_name urdf_object ∈ get_link_names self
   ∨ get_name urdf_object ∈ get_joint_names self
   ∨ parent_link ∉ get_link_names self
   ∨ (∃ e, get_root urdf_object = Raise e)
   ↔ ∃ e, attach_urdf_object euler_from_quaternion urdf_object parent_link pose self
          = (Raise e, self))
  ∧ ∀ e self',
      attach_urdf_object euler_from_quaternion urdf_object parent_link pose self
      = (Raise e, self') →
      self' = self
      ∧ get_urdf self' = get_urdf self
      ∧ up.links (_urdf_robot self') = up.links (_urdf_robot self)
      ∧ up.joints (_urdf_robot self') = up.joints (_urdf_robot self).
Proof.
  rewrite attach_urdf_object_eq. split; [split|].
  - intros H. repeat case_decide; try by eexists.
    destruct H as [?|[?|[?|[e He]]]]; try done. rewrite He. by eexists.
  - intros [e H]. repeat case_decide; auto.
    destruct (get_root urdf_object) as [root|e'] eqn:Hroot; [done|].
    right; right; right. by exists e'.
  - intros e self' H.
    assert (self' = self) as ->; [|done].
    repeat case_decide; try by injection H.
    destruct (get_root urdf_object); [done|by injection H].
Qed.

(** Each failed precondition raises its exception. *)
Lemma attach_precondition_failures self urdf_object parent_link pose :
  (get_name urdf_object ∈ get_link_names self
   ∨ get_name urdf_object ∈ get_joint_names self →
   ∃ msg, attach_urdf_object euler_from_quaternion urdf_object parent_link pose self
          = (Raise (DuplicateNameException msg), self))
  ∧ (get_name urdf_object ∉ get_link_names self →
     get_name urdf_object ∉ get_joint_names self →
     parent_link ∉ get_link_names self →
     ∃ msg, attach_urdf_object euler_from_quaternion urdf_object parent_link pose self
            = (Raise (KeyError msg), self)).
Proof.
  rewrite attach_urdf_object_eq. split.
  - intros [H|H]; repeat case_decide; try done; by eexists.
  - intros H1 H2 H3. rewrite !decide_False, decide_True by done. by eexists.
Qed.

(** C2, as the code has it: the attach fails with [DuplicateName] exactly
    when the name of the other tree, which the new joint takes, is a link
    or joint name of the tree. *)
Theorem attach_duplicate_name_iff self urdf_object parent_link pose :
  (get_name urdf_object ∈ get_link_names self
   ∨ get_name urdf_object ∈ get_joint_names self)
  ↔ ∃ msg self',
      attach_urdf_object euler_from_quaternion urdf_object parent_link pose self
      = (Raise (DuplicateNameException msg), self').
Proof.
  split.
  - intros H. destruct (attach_precondition_failures self urdf_object parent_link pose)
      as [[msg Hf] _]; [done|]. by exists msg, self.
  - rewrite attach_urdf_object_eq. intros (msg & self' & H).
    repeat case_decide; auto; try done.
    destruct (get_root urdf_object) as [?|e'] eqn:Hroot; [done|].
    apply get_root_raises in Hroot as [? ->]. done.
Qed.

End attach_facts.

(** * The name tables of a parsed robot *)

Lemma from_xml_string_snoc name aggs a :
  up.from_xml_string {| up.xml_name := name; up.xml_elements := aggs ++ [a] |}
  = up.add_aggregate
      (up.from_xml_string {| up.xml_name := name; up.xml_elements := aggs |}) a.
Proof. unfold up.from_xml_string. simpl. by rewrite foldl_app. Qed.

Lemma links_of_app aggs1 aggs2 :
  up.links_of (aggs1 ++ aggs2) = up.links_of aggs1 ++ up.links_of aggs2.
Proof. apply omap_app. Qed.

Lemma joints_of_app aggs1 aggs2 :
  up.joints_of (aggs1 ++ aggs2) = up.joints_of aggs1 ++ up.joints_of aggs2.
Proof. apply omap_app. Qed.

Lemma links_of_links ls : up.links_of (up.link <$> ls) = ls.
Proof. induction ls as [|l ls IH]; [done|]. unfold up.links_of in *. csimpl. by rewrite IH. Qed.

Lemma links_of_joints js : up.links_of (up.joint <$> js) = [].
Proof. induction js as [|j js IH]; [done|]. unfold up.links_of in *. csimpl. by rewrite IH. Qed.

Lemma joints_of_joints js : up.joints_of (up.joint <$> js) = js.
Proof. induction js as [|j js IH]; [done|]. unfold up.joints_of in *. csimpl. by rewrite IH. Qed.

Lemma joints_of_links ls : up.joints_of (up.link <$> ls) = [].
Proof. induction ls as [|l ls IH]; [done|]. unfold up.joints_of in *. csimpl. by rewrite IH. Qed.

Lemma elem_of_links_of l aggs : l ∈ up.links_of aggs ↔ up.link l ∈ aggs.
Proof.
  unfold up.links_of. rewrite list_elem_of_omap. split.
  - intros ([l'|j] & Hin & Heq); simplify_eq. done.
  - intros Hin. by exists (up.link l).
Qed.

Lemma elem_of_joints_of j aggs : j ∈ up.joints_of aggs ↔ up.joint j ∈ aggs.
Proof.
  unfold up.joints_of. rewrite list_elem_of_omap. split.
  - intros ([l'|j'] & Hin & Heq); simplify_eq. done.
  - intros Hin. by exists (up.joint j).
Qed.

Section tables.

Variable name : string.

Local Abbreviation parse aggs :=
  (up.from_xml_string {| up.xml_name := name; up.xml_elements := aggs |}).

(** A name is looked up to the last link added under it. *)
Lemma link_map_lookup aggs k :
  up.link_map (parse aggs) !! k
  = last (filter (λ l, up.link_name l = k) (up.links_of aggs)).
Proof.
  induction aggs as [|a aggs IH] using rev_ind; [done|].
  rewrite from_xml_string_snoc, links_of_app, filter_app, last_app.
  destruct a as [l|j]; simpl.
  - change (up.links_of [up.link l]) with [l].
    rewrite lookup_insert, filter_cons, filter_nil.
    case_decide; [done|]. exact IH.
  - exact IH.
Qed.

Lemma joint_map_lookup aggs k :
  up.joint_map (parse aggs) !! k
  = last (filter (λ j, up.joint_name j = k) (up.joints_of aggs)).
Proof.
  induction aggs as [|a aggs IH] using rev_ind; [done|].
  rewrite from_xml_string_snoc, joints_of_app, filter_app, last_app.
  destruct a as [l|j]; simpl.
  - exact IH.
  - change (up.joints_of [up.joint j]) with [j].
    rewrite lookup_insert, filter_cons, filter_nil.
    case_decide; [done|]. exact IH.
Qed.

(** A link is looked up to the last joint added with it as child. *)
Lemma parent_map_lookup aggs c :
  up.parent_map (parse aggs) !! c
  = (λ j, (up.joint_name j, up.parent j))
      <$> last (filter (λ j, up.child j = c) (up.joints_of aggs)).
Proof.
  induction aggs as [|a aggs IH] using rev_ind; [done|].
  rewrite from_xml_string_snoc, joints_of_app, filter_app, last_app.
  destruct a as [l|j]; simpl.
  - exact IH.
  - change (up.joints_of [up.joint j]) with [j].
    rewrite lookup_insert, filter_cons, filter_nil.
    case_decide; [done|]. exact IH.
Qed.

(** A link is looked up to the joints added with it as parent, in order;
    a link without such joints has no entry. *)
Lemma child_map_lookup aggs p :
  up.child_map (parse aggs) !! p
  = match filter (λ j, up.parent j = p) (up.joints_of aggs) with
    | [] => None
    | cs => Some ((λ j, (up.joint_name j, up.child j)) <$> cs)
    end.
Proof.
  induction aggs as [|a aggs IH] using rev_ind; [done|].
  rewrite from_xml_string_snoc, joints_of_app, filter_app.
  destruct a as [l|j]; simpl.
  - change (up.joints_of [up.link l]) with (@nil up.Joint).
    rewrite filter_nil, app_nil_r. exact IH.
  - change (up.joints_of [up.joint j]) with [j].
    rewrite lookup_insert, filter_cons, filter_nil.
    case_decide as Hp.
    + subst p. rewrite IH.
      destruct (filter _ (up.joints_of aggs)) as [|c cs]; simpl; [done|].
      by rewrite fmap_app.
    + rewrite app_nil_r. exact IH.
Qed.

End tables.

Lemma last_filter_elem_of {A} (P : A → Prop) `{!∀ x, Decision (P x)} (l : list A) x :
  last (filter P l) = Some x → x ∈ l ∧ P x.
Proof. intros Hx%last_Some_elem_of. by apply list_elem_of_filter in Hx as [? ?]. Qed.

Lemma last_filter_is_Some {A} (P : A → Prop) `{!∀ x, Decision (P x)} (l : list A) x :
  x ∈ l → P x → is_Some (last (filter P l)).
Proof.
  intros Hin HP. destruct (last (filter P l)) eqn:E; [done|].
  apply last_None in E. assert (x ∈ filter P l) as Hx by by apply list_elem_of_filter.
  rewrite E in Hx. by apply elem_of_nil in Hx.
Qed.

(** Under distinct keys, the last entry with the key of [x] is [x]. *)
Lemma last_filter_unique {A K} `{!EqDecision K} (f : A → K) (l : list A) x :
  NoDup (f <$> l) → x ∈ l → last (filter (λ y, f y = f x) l) = Some x.
Proof.
  intros Hnd Hin.
  destruct (last_filter_is_Some (λ y, f y = f x) l x Hin eq_refl) as [y Hy].
  rewrite Hy. f_equal.
  apply last_filter_elem_of in Hy as [Hyin Hyx].
  apply list_elem_of_lookup in Hin as [i Hi]. apply list_elem_of_lookup in Hyin as [i' Hi'].
  assert (i' = i).
  { eapply NoDup_lookup; [exact Hnd| |]; rewrite list_lookup_fmap.
    - by rewrite Hi'.
    - by rewrite Hi, Hyx. }
  congruence.
Qed.

Lemma elem_of_keys {V} (m : gmap string V) k : k ∈ up.keys m ↔ is_Some (m !! k).
Proof.
  unfold up.keys. rewrite list_elem_of_fmap. split.
  - intros ([k' v] & -> & Hin). apply elem_of_map_to_list in Hin. by eexists.
  - intros [v Hv]. exists (k, v). split; [done|]. by apply elem_of_map_to_list.
Qed.

Lemma NoDup_keys {V} (m : gmap string V) : NoDup (up.keys m).
Proof. apply NoDup_fst_map_to_list. Qed.

(** * Sub-trees *)

Lemma links_under_below self n l l' :
  l' ∈ links_under n (up.joints (_urdf_robot self)) l → below self l l'.
Proof.
  revert l. induction n as [|n IH]; intros l; simpl; [by intros ?%elem_of_nil|].
  rewrite elem_of_cons, list_elem_of_bind.
  intros [->|(j & Hin & [Hp Hj]%list_elem_of_filter)]; [apply rtc_refl|].
  eapply rtc_l; [|by apply IH]. by exists j.
Qed.

Lemma joints_under_below self n l j :
  j ∈ joints_under n (up.joints (_urdf_robot self)) l →
  j ∈ up.joints (_urdf_robot self) ∧ below self l (up.parent j).
Proof.
  revert l. induction n as [|n IH]; intros l; simpl; [by intros ?%elem_of_nil|].
  rewrite list_elem_of_bind.
  intros (j' & [->|Hin]%elem_of_cons & [Hp Hj]%list_elem_of_filter).
  - split; [done|]. rewrite Hp. apply rtc_refl.
  - destruct (IH _ Hin) as [? Hb]. split; [done|].
    eapply rtc_l; [|exact Hb]. by exists j'.
Qed.

Lemma bind_cons_Permutation {A} (f : A → list A) (l : list A) :
  l ≫= (λ x, x :: f x) ≡ₚ l ++ (l ≫= f).
Proof.
  induction l as [|x l IH]; [done|].
  rewrite !bind_cons. simpl. apply Permutation_cons; [done|].
  rewrite IH. rewrite !app_assoc. f_equiv. apply Permutation_app_comm.
Qed.

(** ** The search for the root *)

Section find_root.

Context {V : Type} (pm : gmap string V).

Local Abbreviation visit :=
  (λ (root : option string) (l : string),
     if decide (is_Some (pm !! l)) then Ok root
     else match root with
          | None => Ok (Some l)
          | Some _ => Raise (AssertionError "Multiple roots detected, invalid URDF.")
          end).

Lemma find_root_skip ks acc :
  (∀ l, l ∈ ks → is_Some (pm !! l)) → for_each visit ks acc = Ok acc.
Proof.
  revert acc. induction ks as [|k ks IH]; intros acc Hks; [done|].
  simpl. rewrite decide_True by apply Hks, list_elem_of_here. simpl.
  apply IH. intros. by apply Hks, list_elem_of_further.
Qed.

Lemma find_root_found ks root :
  NoDup ks → root ∈ ks → pm !! root = None →
  (∀ l, l ∈ ks → l ≠ root → is_Some (pm !! l)) →
  for_each visit ks None = Ok (Some root).
Proof.
  induction ks as [|k ks IH]; intros Hnd Hin Hroot Hothers.
  - by apply elem_of_nil in Hin.
  - apply NoDup_cons in Hnd as [Hk Hnd]. simpl.
    destruct (decide (k = root)) as [->|Hne].
    + rewrite decide_False by (rewrite Hroot; by intros [? ?]). simpl.
      apply find_root_skip. intros l Hl. apply Hothers; [by apply list_elem_of_further|].
      by intros ->.
    + rewrite decide_True by (apply Hothers; [apply list_elem_of_here|done]). simpl.
      apply IH; [done| | done |].
      * by apply elem_of_cons in Hin as [->|?].
      * intros. apply Hothers; [by apply list_elem_of_further|done].
Qed.

Lemma find_root_inv ks acc r :
  for_each visit ks acc = Ok r →
  match acc, r with
  | Some a, _ => r = Some a ∧ ∀ l, l ∈ ks → is_Some (pm !! l)
  | None, None => ∀ l, l ∈ ks → is_Some (pm !! l)
  | None, Some root =>
      root ∈ ks ∧ pm !! root = None ∧ ∀ l, l ∈ ks → l ≠ root → is_Some (pm !! l)
  end.
Proof.
  revert acc. induction ks as [|k ks IH]; intros acc; simpl.
  - intros [= <-]. destruct acc; [split; [done|]|]; by intros ? ?%elem_of_nil.
  - destruct (decide (is_Some (pm !! k))) as [Hk|Hk]; simpl.
    + intros H%IH. destruct acc as [a|]; [|destruct r as [root|]].
      * destruct H as [-> H]. split; [done|]. by intros l [->|?]%elem_of_cons; auto.
      * destruct H as (Hin & Hroot & H). split_and!; [by apply list_elem_of_further|done|].
        intros l [->|?]%elem_of_cons ?; auto.
      * by intros l [->|?]%elem_of_cons; auto.
    + destruct acc as [a|]; [done|]. simpl. intros [-> H]%IH.
      split_and!; [apply list_elem_of_here|by apply eq_None_not_Some|].
      by intros l [->|?]%elem_of_cons ?; auto.
Qed.

End find_root.

Lemma get_root_found self root :
  root ∈ get_link_names self →
  up.parent_map (_urdf_robot self) !! root = None →
  (∀ l, l ∈ get_link_names self → l ≠ root →
        is_Some (up.parent_map (_urdf_robot self) !! l)) →
  get_root self = Ok root.
Proof.
  intros Hin Hroot Hothers. unfold get_root, up.get_root.
  by rewrite (find_root_found _ _ root (NoDup_keys _) Hin Hroot Hothers).
Qed.

Lemma get_root_inv self root :
  get_root self = Ok root →
  root ∈ get_link_names self
  ∧ up.parent_map (_urdf_robot self) !! root = None
  ∧ ∀ l, l ∈ get_link_names self → l ≠ root →
         is_Some (up.parent_map (_urdf_robot self) !! l).
Proof.
  unfold get_root, up.get_root.
  destruct (for_each _ _ None) as [[r|]|e] eqn:E; simpl; try done.
  intros [= ->]. by apply find_root_inv in E.
Qed.

Lemma from_parts_links name tl tj : up.links (_urdf_robot (from_parts name tl tj)) = tl.
Proof.
  rewrite from_parts_eq. unfold __init__, hacky_urdf_parser_fix, up.links, up.from_xml_string.
  simpl. rewrite aggregate_order_foldl_add_aggregate. simpl.
  by rewrite links_of_app, links_of_links, links_of_joints, app_nil_r.
Qed.

Lemma from_parts_joints name tl tj : up.joints (_urdf_robot (from_parts name tl tj)) = tj.
Proof.
  rewrite from_parts_eq. unfold __init__, hacky_urdf_parser_fix, up.joints, up.from_xml_string.
  simpl. rewrite aggregate_order_foldl_add_aggregate. simpl.
  by rewrite joints_of_app, joints_of_links, joints_of_joints.
Qed.

Lemma initialized_from_parts name tl tj : initialized (from_parts name tl tj).
Proof. rewrite from_parts_eq. apply initialized___init__. Qed.

Section initialized_tables.

Variable self : URDFObject.
Hypothesis Hinit : initialized self.

Local Abbreviation robot := (_urdf_robot self).
Local Abbreviation js := (up.joints (_urdf_robot self)).
Local Abbreviation ls := (up.links (_urdf_robot self)).

Lemma self_link_map k :
  up.link_map robot !! k = last (filter (λ l, up.link_name l = k) ls).
Proof.
  pose proof (link_map_lookup (up.robot_name robot) (up.aggregate_order robot) k) as H.
  unfold initialized, get_urdf, up.to_xml_string in Hinit. by rewrite <- Hinit in H.
Qed.

Lemma self_joint_map k :
  up.joint_map robot !! k = last (filter (λ j, up.joint_name j = k) js).
Proof.
  pose proof (joint_map_lookup (up.robot_name robot) (up.aggregate_order robot) k) as H.
  unfold initialized, get_urdf, up.to_xml_string in Hinit. by rewrite <- Hinit in H.
Qed.

Lemma self_parent_map c :
  up.parent_map robot !! c
  = (λ j, (up.joint_name j, up.parent j)) <$> last (filter (λ j, up.child j = c) js).
Proof.
  pose proof (parent_map_lookup (up.robot_name robot) (up.aggregate_order robot) c) as H.
  unfold initialized, get_urdf, up.to_xml_string in Hinit. by rewrite <- Hinit in H.
Qed.

Lemma self_child_map p :
  up.child_map robot !! p
  = match filter (λ j, up.parent j = p) js with
    | [] => None
    | cs => Some ((λ j, (up.joint_name j, up.child j)) <$> cs)
    end.
Proof.
  pose proof (child_map_lookup (up.robot_name robot) (up.aggregate_order robot) p) as H.
  unfold initialized, get_urdf, up.to_xml_string in Hinit. by rewrite <- Hinit in H.
Qed.

Lemma link_map_Some k l :
  up.link_map robot !! k = Some l → l ∈ ls ∧ up.link_name l = k.
Proof. rewrite self_link_map. apply (last_filter_elem_of (λ l, up.link_name l = k)). Qed.

Lemma joint_map_Some k j :
  up.joint_map robot !! k = Some j → j ∈ js ∧ up.joint_name j = k.
Proof. rewrite self_joint_map. apply (last_filter_elem_of (λ j, up.joint_name j = k)). Qed.

Lemma link_map_is_Some k : k ∈ up.link_name <$> ls → is_Some (up.link_map robot !! k).
Proof.
  intros (l & -> & Hl)%list_elem_of_fmap. rewrite self_link_map.
  by apply (last_filter_is_Some (λ l', up.link_name l' = up.link_name l) _ l).
Qed.

Lemma get_link_names_registry k : k ∈ get_link_names self ↔ k ∈ link_names self.
Proof.
  unfold get_link_names, link_names. rewrite elem_of_keys. split.
  - intros [l [Hl <-]%link_map_Some]. by apply list_elem_of_fmap_2.
  - apply link_map_is_Some.
Qed.

Lemma get_joint_names_registry k : k ∈ get_joint_names self ↔ k ∈ joint_names self.
Proof.
  unfold get_joint_names, joint_names. rewrite elem_of_keys. split.
  - intros [j [Hl <-]%joint_map_Some]. by apply list_elem_of_fmap_2.
  - intros (j & -> & Hj)%list_elem_of_fmap. rewrite self_joint_map.
    by apply (last_filter_is_Some (λ j', up.joint_name j' = up.joint_name j) _ j).
Qed.

End initialized_tables.

Lemma sub_tree_loop_cons self fuel joint joints tree_links tree_joints :
  sub_tree_loop (S fuel) self (joint :: joints) tree_links tree_joints
  = match sub_tree_step self joint joints tree_links tree_joints with
    | Ok (joints, tree_links, tree_joints) =>
        sub_tree_loop fuel self joints tree_links tree_joints
    | Raise e => Some (Raise e)
    end.
Proof. reflexivity. Qed.

Lemma sub_tree_loop_mono self fuel fuel' joints tree_links tree_joints r :
  sub_tree_loop fuel self joints tree_links tree_joints = Some r →
  (fuel ≤ fuel')%nat →
  sub_tree_loop fuel' self joints tree_links tree_joints = Some r.
Proof.
  revert fuel' joints tree_links tree_joints.
  induction fuel as [|fuel IH]; intros fuel' joints tree_links tree_joints.
  - destruct joints; [|done]. by destruct fuel'.
  - destruct joints as [|joint joints]; [by destruct fuel'|].
    destruct fuel' as [|fuel']; [lia|]. rewrite !sub_tree_loop_cons.
    destruct (sub_tree_step _ _ _ _ _) as [[[? ?] ?]|]; [|done].
    intros ? ?. apply IH; [done|lia].
Qed.

Section sub_tree.

Variable self : URDFObject.
Variable D : string → nat.
Variable N : nat.
Hypothesis Hranked : ranked self D N.

Local Abbreviation robot := (_urdf_robot self).
Local Abbreviation js := (up.joints (_urdf_robot self)).
Local Abbreviation ls := (up.links (_urdf_robot self)).

Lemma ranked_initialized : initialized self.
Proof. apply Hranked. Qed.

Lemma ranked_joint_names : NoDup (up.joint_name <$> js).
Proof. apply Hranked. Qed.

Lemma ranked_child_link j : j ∈ js → up.child j ∈ up.link_name <$> ls.
Proof. apply Hranked. Qed.

Lemma ranked_rank j :
  j ∈ js → D (up.child j) = S (D (up.parent j)) ∧ (D (up.child j) ≤ N)%nat.
Proof. apply Hranked. Qed.

Local Abbreviation under c := (links_under (S N - D c) js c).
Local Abbreviation joints_at c := (joints_under (S N - D c) js c).
Local Abbreviation children c := (filter (λ j, up.parent j = c) js).

Lemma joint_map_lookup_joint j :
  j ∈ js → up.joint_map robot !! up.joint_name j = Some j.
Proof. intros Hj. rewrite (self_joint_map _ ranked_initialized).
  apply (last_filter_unique up.joint_name); [apply ranked_joint_names|done]. Qed.

Lemma under_unfold c :
  (D c ≤ N)%nat → under c = c :: (children c ≫= λ j, under (up.child j)).
Proof.
  intros Hc. replace (S N - D c) with (S (N - D c)) by lia. simpl. f_equal.
  apply Forall_bind_ext, Forall_forall. intros j [Hp Hj]%list_elem_of_filter.
  destruct (ranked_rank j Hj) as [Hd _]. rewrite Hp in Hd. by rewrite Hd.
Qed.

Lemma joints_at_unfold c :
  (D c ≤ N)%nat → joints_at c = children c ≫= λ j, j :: joints_at (up.child j).
Proof.
  intros Hc. replace (S N - D c) with (S (N - D c)) by lia. simpl.
  apply Forall_bind_ext, Forall_forall. intros j [Hp Hj]%list_elem_of_filter.
  destruct (ranked_rank j Hj) as [Hd _]. rewrite Hp in Hd. by rewrite Hd.
Qed.

Lemma below_rank c l : below self c l → (D c ≤ D l)%nat.
Proof.
  induction 1 as [|c c' l (j & Hj & <- & <-) _ IH]; [done|].
  destruct (ranked_rank j Hj). lia.
Qed.

Lemma below_bounded c l : below self c l → (D c ≤ N)%nat → (D l ≤ N)%nat.
Proof.
  intros Hb Hc. apply rtc_inv_r in Hb as [->|(l' & _ & (j & Hj & _ & <-))]; [done|].
  by destruct (ranked_rank j Hj).
Qed.

Lemma below_under c l : below self c l → (D c ≤ N)%nat → l ∈ under c.
Proof.
  induction 1 as [c|c c' l (j & Hj & <- & <-) _ IH]; intros Hc.
  - rewrite under_unfold by done. apply list_elem_of_here.
  - rewrite under_unfold by done. apply list_elem_of_further, list_elem_of_bind.
    exists j. split; [|by apply list_elem_of_filter].
    apply IH. by destruct (ranked_rank j Hj).
Qed.

Lemma below_joints_at c j :
  j ∈ js → below self c (up.parent j) → (D c ≤ N)%nat → j ∈ joints_at c.
Proof.
  intros Hj Hb. remember (up.parent j) as p eqn:Hp. revert Hp.
  induction Hb as [c|c c' l (j' & Hj' & <- & <-) _ IH]; intros Hp Hc.
  - rewrite joints_at_unfold by done. apply list_elem_of_bind.
    exists j. split; [apply list_elem_of_here|by apply list_elem_of_filter].
  - rewrite joints_at_unfold by done. apply list_elem_of_bind.
    exists j'. split; [|by apply list_elem_of_filter].
    apply list_elem_of_further, IH; [done|]. by destruct (ranked_rank j' Hj').
Qed.

(** The entries of [child_map] are pushed onto the work list and the
    joints they name onto [tree_joints]. *)
Lemma push_children cs joints tree_joints :
  (∀ j, j ∈ cs → j ∈ js) →
  for_each
    (λ '(joints, tree_joints) '(j, l),
       let* uj := get_urdf_joint self j in
       Ok (joints ++ [j], tree_joints ++ [uj]))
    ((λ j, (up.joint_name j, up.child j)) <$> cs) (joints, tree_joints)
  = Ok (joints ++ (up.joint_name <$> cs), tree_joints ++ cs).
Proof.
  revert joints tree_joints. induction cs as [|c cs IH]; intros joints tree_joints Hcs.
  - by rewrite !app_nil_r.
  - simpl. unfold get_urdf_joint, getitem.
    rewrite joint_map_lookup_joint by (apply Hcs, list_elem_of_here). simpl.
    rewrite IH by (intros; by apply Hcs, list_elem_of_further).
    by rewrite <- !app_assoc.
Qed.

Lemma sub_tree_step_eq j joints tree_links tree_joints :
  j ∈ js →
  ∃ l, up.link_name l = up.child j ∧
    sub_tree_step self (up.joint_name j) joints tree_links tree_joints
    = Ok (joints ++ (up.joint_name <$> children (up.child j)),
          tree_links ++ [l], tree_joints ++ children (up.child j)).
Proof.
  intros Hj.
  destruct (link_map_is_Some _ ranked_initialized (up.child j) (ranked_child_link j Hj)) as [l Hl].
  exists l. split; [by apply (link_map_Some _ ranked_initialized) in Hl as [_ ?]|].
  unfold sub_tree_step, getitem at 1. rewrite joint_map_lookup_joint by done. simpl.
  rewrite (self_child_map _ ranked_initialized).
  destruct (children (up.child j)) as [|c cs] eqn:Hcs.
  - simpl. unfold get_urdf_link, getitem. rewrite Hl. simpl. by rewrite !app_nil_r.
  - rewrite push_children.
    + simpl. unfold get_urdf_link, getitem. by rewrite Hl.
    + intros j'. rewrite <- Hcs. by intros [_ ?]%list_elem_of_filter.
Qed.

(** With fuel for every link of the sub-trees queued, the loop returns:
    the links of those sub-trees have been added to [tree_links], their
    joints to [tree_joints]. *)
Lemma sub_tree_loop_eq fuel queue tree_links tree_joints :
  (∀ j, j ∈ queue → j ∈ js) →
  (length (queue ≫= λ j, under (up.child j)) ≤ fuel)%nat →
  ∃ tree_links' tree_joints',
    sub_tree_loop fuel self (up.joint_name <$> queue) tree_links tree_joints
      = Some (Ok (tree_links', tree_joints'))
    ∧ up.link_name <$> tree_links'
        ≡ₚ (up.link_name <$> tree_links) ++ (queue ≫= λ j, under (up.child j))
    ∧ tree_joints' ≡ₚ tree_joints ++ (queue ≫= λ j, joints_at (up.child j)).
Proof.
  revert queue tree_links tree_joints.
  induction fuel as [|fuel IH]; intros queue tree_links tree_joints Hq Hfuel.
  - destruct queue as [|j queue].
    + exists tree_links, tree_joints. by rewrite !app_nil_r.
    + exfalso. rewrite bind_cons, length_app, under_unfold in Hfuel.
      * simpl in Hfuel. lia.
      * apply ranked_rank, Hq, list_elem_of_here.
  - destruct queue as [|j queue].
    + exists tree_links, tree_joints. by rewrite !app_nil_r.
    + assert (j ∈ js) as Hj by apply Hq, list_elem_of_here.
      assert (D (up.child j) ≤ N)%nat as Hd by by apply ranked_rank.
      destruct (sub_tree_step_eq j (up.joint_name <$> queue) tree_links tree_joints Hj)
        as (l & Hl & Hstep).
      rewrite fmap_cons, sub_tree_loop_cons, Hstep, <- fmap_app.
      destruct (IH (queue ++ children (up.child j)) (tree_links ++ [l])
                  (tree_joints ++ children (up.child j)))
        as (tl & tj & Hloop & Htl & Htj).
      * intros j'. rewrite elem_of_app. intros [?|[_ ?]%list_elem_of_filter]; [|done].
        by apply Hq, list_elem_of_further.
      * rewrite bind_cons, length_app, under_unfold in Hfuel by done.
        rewrite bind_app, length_app. simpl in Hfuel. lia.
      * exists tl, tj. split; [done|]. split.
        -- rewrite Htl, fmap_app, bind_app, bind_cons, (under_unfold (up.child j)) by done.
           simpl. rewrite Hl. rewrite <- !app_assoc. f_equiv. simpl.
           apply Permutation_cons; [done|]. apply Permutation_app_comm.
        -- rewrite Htj, bind_app, bind_cons, (joints_at_unfold (up.child j)) by done.
           rewrite bind_cons_Permutation, <- !app_assoc. f_equiv. f_equiv.
           apply Permutation_app_comm.
Qed.

(** The sub-tree at a joint [j] of the tree: given fuel for its links,
    the extraction returns the tree built from the links and joints
    listed under the child link of [j]. *)
Lemma get_sub_tree_at_joint_eq j :
  j ∈ js →
  ∃ tree_links tree_joints,
    (∀ fuel, (length (under (up.child j)) ≤ fuel)%nat →
       get_sub_tree_at_joint fuel self (up.joint_name j)
       = Some (Ok (from_parts (up.joint_name j) tree_links tree_joints)))
    ∧ up.link_name <$> tree_links ≡ₚ under (up.child j)
    ∧ tree_joints ≡ₚ joints_at (up.child j).
Proof.
  intros Hj.
  destruct (sub_tree_loop_eq (length (under (up.child j))) [j] [] [])
    as (tl & tj & Hloop & Htl & Htj).
  - by intros j' ->%list_elem_of_singleton.
  - by rewrite bind_cons, app_nil_r.
  - exists tl, tj. rewrite bind_cons, app_nil_r in Htl. rewrite bind_cons, app_nil_r in Htj.
    split_and!; [|done|done].
    intros fuel Hfuel. unfold get_sub_tree_at_joint.
    change [up.joint_name j] with (up.joint_name <$> [j]).
    by rewrite (sub_tree_loop_mono _ _ fuel _ _ _ _ Hloop Hfuel).
Qed.

Lemma elem_of_under c l : (D c ≤ N)%nat → l ∈ under c ↔ below self c l.
Proof. intros Hc. split; [apply links_under_below|]. intros. by apply below_under. Qed.

Lemma elem_of_joints_at c j :
  (D c ≤ N)%nat → j ∈ joints_at c ↔ j ∈ js ∧ below self c (up.parent j).
Proof.
  intros Hc. split; [apply joints_under_below|]. intros [? ?]. by apply below_joints_at.
Qed.

(** What the extracted sub-tree holds. *)
Lemma sub_tree_contents j tree_links tree_joints :
  j ∈ js →
  up.link_name <$> tree_links ≡ₚ under (up.child j) →
  tree_joints ≡ₚ joints_at (up.child j) →
  let sub_tree := from_parts (up.joint_name j) tree_links tree_joints in
  get_root sub_tree = Ok (up.child j)
  ∧ (∀ l, l ∈ get_link_names sub_tree ↔ below self (up.child j) l)
  ∧ (∀ k, k ∈ get_joint_names sub_tree ↔ joint_below self (up.child j) k).
Proof.
  intros Hj Htl Htj sub_tree.
  assert (D (up.child j) ≤ N)%nat as Hd by by apply ranked_rank.
  assert (initialized sub_tree) as Hsub by apply initialized_from_parts.
  assert (∀ l, l ∈ get_link_names sub_tree ↔ below self (up.child j) l) as Hlinks.
  { intros l. rewrite (get_link_names_registry _ Hsub). unfold link_names.
    subst sub_tree. by rewrite from_parts_links, Htl, elem_of_under. }
  assert (∀ l, is_Some (up.parent_map (_urdf_robot sub_tree) !! l)
               ↔ ∃ j', j' ∈ js ∧ below self (up.child j) (up.parent j') ∧ up.child j' = l)
    as Hparent.
  { intros l. rewrite (self_parent_map _ Hsub), fmap_is_Some.
    subst sub_tree. rewrite from_parts_joints. split.
    - intros [j' [Hin Hc]%last_filter_elem_of].
      rewrite Htj, elem_of_joints_at in Hin by done. exists j'. tauto.
    - intros (j' & Hin & Hb & Hc).
      apply (last_filter_is_Some (λ j, up.child j = l) _ j'); [|done].
      rewrite Htj, elem_of_joints_at by done. done. }
  split_and!; [|done|].
  - apply get_root_found.
    + apply Hlinks, rtc_refl.
    + apply eq_None_not_Some. rewrite Hparent. intros (j' & Hin & Hb%below_rank & Hc).
      destruct (ranked_rank j' Hin) as [Hr _]. rewrite Hc in Hr. lia.
    + intros l Hl%Hlinks Hne. apply Hparent.
      apply rtc_inv_r in Hl as [Heq|(l' & Hb & (j' & Hin & <- & <-))]; [congruence|].
      by exists j'.
  - intros k. rewrite (get_joint_names_registry _ Hsub). unfold joint_names, joint_below.
    subst sub_tree. rewrite from_parts_joints, list_elem_of_fmap. split.
    + intros (j' & -> & Hin). rewrite Htj, elem_of_joints_at in Hin by done.
      exists j'. tauto.
    + intros (j' & Hin & <- & Hb). exists j'. split; [done|].
      by rewrite Htj, elem_of_joints_at.
Qed.

End sub_tree.

(** * Valid trees are ranked by depth *)

Lemma depth_eq fuel self l :
  depth fuel self l
  = match up.parent_map (_urdf_robot self) !! l with
    | None => Some 0
    | Some (_, p) =>
        match fuel with
        | 0 => None
        | S fuel => S <$> depth fuel self p
        end
    end.
Proof. by destruct fuel. Qed.

Lemma depth_le fuel self l k : depth fuel self l = Some k → (k ≤ fuel)%nat.
Proof.
  revert l k. induction fuel as [|fuel IH]; intros l k; rewrite depth_eq;
    destruct (up.parent_map _ !! l) as [[? p]|]; try done; try (intros [= <-]; lia).
  destruct (depth fuel self p) as [k'|] eqn:E; [|done].
  intros [= <-]. apply IH in E. lia.
Qed.

Lemma depth_mono fuel fuel' self l k :
  depth fuel self l = Some k → (fuel ≤ fuel')%nat → depth fuel' self l = Some k.
Proof.
  revert fuel' l k. induction fuel as [|fuel IH]; intros fuel' l k;
    rewrite (depth_eq fuel'), depth_eq;
    destruct (up.parent_map _ !! l) as [[? p]|]; try done.
  destruct fuel' as [|fuel']; [lia|].
  destruct (depth fuel self p) as [k'|] eqn:E; [|done].
  intros [= <-] ?. rewrite (IH fuel' p k') by (done || lia). done.
Qed.

Section valid.

Variable self : URDFObject.
Hypothesis Hvalid : valid_tree self.

Local Abbreviation js := (up.joints (_urdf_robot self)).

Lemma valid_initialized : initialized self.
Proof. apply Hvalid. Qed.

Lemma valid_link_names : NoDup (link_names self).
Proof. destruct Hvalid as (_ & H & _). by apply NoDup_app in H as (? & _ & _). Qed.

Lemma valid_joint_names : NoDup (up.joint_name <$> js).
Proof. destruct Hvalid as (_ & H & _). by apply NoDup_app in H as (_ & _ & ?). Qed.

Lemma valid_child_link j : j ∈ js → up.child j ∈ link_names self.
Proof.
  destruct Hvalid as (_ & _ & _ & _ & H). rewrite Forall_forall in H.
  intros Hj. by apply H.
Qed.

Lemma valid_parent_link j : j ∈ js → up.parent j ∈ link_names self.
Proof.
  destruct Hvalid as (_ & _ & _ & _ & H). rewrite Forall_forall in H.
  intros Hj. by apply H.
Qed.

(** Every link has the joint above it as its entry in [parent_map]. *)
Lemma valid_parent_map j :
  j ∈ js →
  up.parent_map (_urdf_robot self) !! up.child j = Some (up.joint_name j, up.parent j).
Proof.
  intros Hj. destruct Hvalid as (Hinit & _ & [_ Hnd] & _).
  by rewrite (self_parent_map _ Hinit), (last_filter_unique up.child) by done.
Qed.

Lemma valid_parent_map_inv l k p :
  up.parent_map (_urdf_robot self) !! l = Some (k, p) →
  ∃ j, j ∈ js ∧ up.joint_name j = k ∧ up.parent j = p ∧ up.child j = l.
Proof.
  rewrite (self_parent_map _ valid_initialized).
  destruct (last _) as [j|] eqn:E; [|done]. intros [= <- <-].
  apply (last_filter_elem_of (λ j, up.child j = l)) in E as [? ?]. by exists j.
Qed.

Local Abbreviation N := (length (link_names self)).
Local Abbreviation D := (λ l, default 0 (depth N self l)).

Lemma valid_rank j :
  j ∈ js → D (up.child j) = S (D (up.parent j)) ∧ (D (up.child j) ≤ N)%nat.
Proof.
  intros Hj.
  assert (is_Some (depth N self (up.child j))) as [k Hk].
  { destruct Hvalid as (_ & _ & _ & H & _). rewrite Forall_forall in H.
    by apply H, valid_child_link. }
  simpl. rewrite Hk. simpl. split; [|by eapply depth_le].
  rewrite depth_eq, valid_parent_map in Hk by done.
  destruct N as [|n] eqn:HN; [done|].
  destruct (depth n self (up.parent j)) as [k'|] eqn:E; [|done].
  injection Hk as <-. by rewrite (depth_mono n (S n) _ _ k') by (done || lia).
Qed.

Lemma valid_ranked : ranked self D N.
Proof.
  split_and!; [exact valid_initialized|exact valid_joint_names|
               exact valid_child_link|exact valid_rank].
Qed.

End valid.

(** * The sub-tree at a joint of a valid tree *)

Lemma keys_singleton {V} (k : string) (v : V) : up.keys (<[k := v]> (∅ : gmap string V)) = [k].
Proof. unfold up.keys. by rewrite insert_empty, map_to_list_singleton. Qed.

Lemma keys_empty {V} : up.keys (∅ : gmap string V) = [].
Proof. unfold up.keys. by rewrite map_to_list_empty. Qed.

(** C8: the sub-tree extracted at a joint [j] of a valid tree is a tree
    of its own, with the child link of [j] as root, whose links and joints
    are the ones reached from that link by following child joints; below a
    childless link it is that link alone. *)
Theorem sub_tree_at_joint self joint_name j :
  valid_tree self →
  up.joint_map (_urdf_robot self) !! joint_name = Some j →
  ∃ n sub_tree,
    (∀ fuel, (n ≤ fuel)%nat →
       get_sub_tree_at_joint fuel self joint_name = Some (Ok sub_tree))
    ∧ initialized sub_tree
    ∧ get_root sub_tree = Ok (up.child j)
    ∧ (∀ l, l ∈ get_link_names sub_tree ↔ below self (up.child j) l)
    ∧ (∀ k, k ∈ get_joint_names sub_tree ↔ joint_below self (up.child j) k)
    ∧ (up.child_map (_urdf_robot self) !! up.child j = None →
       get_link_names sub_tree = [up.child j] ∧ get_joint_names sub_tree = []).
Proof.
  intros Hvalid Hj.
  pose proof (valid_initialized _ Hvalid) as Hinit.
  apply (joint_map_Some _ Hinit) in Hj as [Hj <-].
  pose proof (valid_ranked _ Hvalid) as Hranked.
  destruct (get_sub_tree_at_joint_eq _ _ _ Hranked j Hj) as (tl & tj & Hfuel & Htl & Htj).
  destruct (sub_tree_contents _ _ _ Hranked j tl tj Hj Htl Htj)
    as (Hroot & Hlinks & Hjoints).
  eexists _, (from_parts (up.joint_name j) tl tj).
  split_and!; [exact Hfuel|apply initialized_from_parts|done..|].
  intros Hleaf. rewrite (self_child_map _ Hinit) in Hleaf.
  destruct (filter _ _) as [|c cs] eqn:Hcs; [|done].
  rewrite (under_unfold _ _ _ Hranked) in Htl by by apply (valid_rank _ Hvalid).
  rewrite (joints_at_unfold _ _ _ Hranked) in Htj by by apply (valid_rank _ Hvalid).
  rewrite Hcs in Htl, Htj. simpl in Htl, Htj.
  apply Permutation_nil_r in Htj as ->.
  apply Permutation_singleton_r in Htl.
  destruct tl as [|l [|]]; try done. injection Htl as Hl.
  rewrite from_parts_eq. unfold get_link_names, get_joint_names. simpl.
  unfold up.from_xml_string. simpl. rewrite Hl.
  split; [apply keys_singleton|apply keys_empty].
Qed.

Lemma two_link_tree_valid : valid_tree two_link_tree.
Proof.
  unfold valid_tree. split_and!.
  - reflexivity.
  - by_computation.
  - reflexivity.
  - by_computation.
  - by_computation.
  - by_computation.
Qed.

Lemma sub_tree_at_joint_witness :
  ∃ n sub_tree,
    (∀ fuel, (n ≤ fuel)%nat →
       get_sub_tree_at_joint fuel two_link_tree "j1" = Some (Ok sub_tree))
    ∧ get_root sub_tree = Ok "arm_link"
    ∧ get_link_names sub_tree = ["arm_link"] ∧ get_joint_names sub_tree = [].
Proof.
  destruct (sub_tree_at_joint two_link_tree "j1"
              (plain_joint "j1" "base_link" "arm_link" "revolute"))
    as (n & sub_tree & Hfuel & _ & Hroot & _ & _ & Hleaf).
  - unfold valid_tree. split_and!.
    + reflexivity.
    + by_computation.
    + reflexivity.
    + by_computation.
    + by_computation.
    + by_computation.
  - reflexivity.
  - exists n, sub_tree. split_and!; [done|done|by apply Hleaf..].
Defined.

(** * Removing aggregates *)

Lemma list_remove_None a l : a ∉ l → up.list_remove a l = None.
Proof.
  induction l as [|b l IH]; [done|]. intros [Hne Hnin]%not_elem_of_cons.
  simpl. rewrite IH by done. by rewrite decide_False.
Qed.

Lemma list_remove_NoDup a l :
  NoDup l → a ∈ l → up.list_remove a l = Some (filter (λ b, b ≠ a) l).
Proof.
  induction l as [|b l IH]; intros Hnd Hin; [by apply elem_of_nil in Hin|].
  apply NoDup_cons in Hnd as [Hb Hnd]. simpl.
  destruct (decide (a ∈ l)) as [Hal|Hal].
  - rewrite IH by done. rewrite filter_cons, decide_True; [done|]. by intros ->.
  - rewrite list_remove_None by done.
    apply elem_of_cons in Hin as [->|?]; [|done].
    rewrite decide_True by done. rewrite filter_cons, decide_False by (by intros ?).
    f_equal. symmetry. clear IH Hnd. induction l as [|c l IH]; [done|].
    apply not_elem_of_cons in Hb as [? ?].
    rewrite filter_cons, decide_True by done. f_equal. by apply IH.
Qed.

Lemma links_of_filter (P : up.Aggregate → Prop) `{!∀ a, Decision (P a)} aggs :
  up.links_of (filter P aggs) = filter (λ l, P (up.link l)) (up.links_of aggs).
Proof.
  induction aggs as [|[l|j] aggs IH]; [done| |].
  - rewrite filter_cons. change (up.links_of (up.link l :: aggs)) with (l :: up.links_of aggs).
    rewrite filter_cons. case_decide; [|done].
    change (up.links_of (up.link l :: filter P aggs)) with (l :: up.links_of (filter P aggs)).
    by rewrite IH.
  - rewrite filter_cons. change (up.links_of (up.joint j :: aggs)) with (up.links_of aggs).
    case_decide; [|done].
    change (up.links_of (up.joint j :: filter P aggs)) with (up.links_of (filter P aggs)).
    done.
Qed.

Lemma joints_of_filter (P : up.Aggregate → Prop) `{!∀ a, Decision (P a)} aggs :
  up.joints_of (filter P aggs) = filter (λ j, P (up.joint j)) (up.joints_of aggs).
Proof.
  induction aggs as [|[l|j] aggs IH]; [done| |].
  - rewrite filter_cons. change (up.joints_of (up.link l :: aggs)) with (up.joints_of aggs).
    case_decide; [|done].
    change (up.joints_of (up.link l :: filter P aggs)) with (up.joints_of (filter P aggs)).
    done.
  - rewrite filter_cons. change (up.joints_of (up.joint j :: aggs)) with (j :: up.joints_of aggs).
    rewrite filter_cons. case_decide; [|done].
    change (up.joints_of (up.joint j :: filter P aggs)) with (j :: up.joints_of (filter P aggs)).
    by rewrite IH.
Qed.

Lemma filter_all {A} (P : A → Prop) `{!∀ a, Decision (P a)} (l : list A) :
  (∀ a, a ∈ l → P a) → filter P l = l.
Proof.
  induction l as [|a l IH]; intros Hall; [done|].
  rewrite filter_cons, decide_True by apply Hall, list_elem_of_here.
  f_equal. apply IH. intros. by apply Hall, list_elem_of_further.
Qed.

Lemma filter_ext_in {A} (P Q : A → Prop) `{!∀ a, Decision (P a)} `{!∀ a, Decision (Q a)}
    (l : list A) :
  (∀ a, a ∈ l → P a ↔ Q a) → filter P l = filter Q l.
Proof.
  induction l as [|a l IH]; intros Hall; [done|].
  rewrite !filter_cons, IH by (intros; by apply Hall, list_elem_of_further).
  pose proof (Hall a (list_elem_of_here _ _)) as Ha.
  destruct (decide (P a)), (decide (Q a)); tauto || done.
Qed.

(** The aggregates are distinct when the names of the links and the names
    of the joints are. *)
Lemma NoDup_aggregates aggs :
  NoDup (up.link_name <$> up.links_of aggs) →
  NoDup (up.joint_name <$> up.joints_of aggs) →
  NoDup aggs.
Proof.
  induction aggs as [|[l|j] aggs IH]; intros Hl Hj; [constructor| |].
  - change (up.links_of (up.link l :: aggs)) with (l :: up.links_of aggs) in Hl.
    rewrite fmap_cons in Hl. apply NoDup_cons in Hl as [Hnin Hl].
    apply NoDup_cons. split; [|by apply IH].
    intros Hin%elem_of_links_of. by apply Hnin, list_elem_of_fmap_2.
  - change (up.joints_of (up.joint j :: aggs)) with (j :: up.joints_of aggs) in Hj.
    rewrite fmap_cons in Hj. apply NoDup_cons in Hj as [Hnin Hj].
    apply NoDup_cons. split; [|by apply IH].
    intros Hin%elem_of_joints_of. by apply Hnin, list_elem_of_fmap_2.
Qed.

Lemma NoDup_fmap_elem_eq {A B} (f : A → B) (l : list A) x y :
  NoDup (f <$> l) → x ∈ l → y ∈ l → f x = f y → x = y.
Proof.
  intros Hnd [i Hi]%list_elem_of_lookup [i' Hi']%list_elem_of_lookup Heq.
  assert (i' = i).
  { eapply NoDup_lookup; [exact Hnd| |]; rewrite list_lookup_fmap.
    - by rewrite Hi'.
    - rewrite Hi. simpl. by rewrite Heq. }
  congruence.
Qed.

Lemma NoDup_fmap_filter {A B} (f : A → B) (P : A → Prop) `{!∀ a, Decision (P a)}
    (l : list A) :
  NoDup (f <$> l) → NoDup (f <$> filter P l).
Proof.
  intros Hnd. eapply sublist_NoDup; [exact Hnd|]. apply fmap_sublist, sublist_filter.
Qed.

Lemma with_robot_set_aggregates_id s :
  with_robot s (set_aggregates (_urdf_robot s) (up.aggregate_order (_urdf_robot s))) = s.
Proof. by destruct s as [? []]. Qed.

Lemma remove_aggregate_eq r a :
  NoDup (up.aggregate_order r) → a ∈ up.aggregate_order r →
  up.remove_aggregate r a
  = Ok (set_aggregates r (filter (λ b, b ≠ a) (up.aggregate_order r))).
Proof. intros Hnd Hin. unfold up.remove_aggregate. by rewrite list_remove_NoDup. Qed.

Lemma keep_links_nil a : keep_links [] a.
Proof. destruct a; [apply not_elem_of_nil|done]. Qed.

Lemma keep_joints_nil a : keep_joints [] a.
Proof. destruct a; [done|apply not_elem_of_nil]. Qed.

(** The first loop of [detach_sub_tree]: the links named in [ks] leave the
    aggregates. *)
Lemma remove_links_eq ks s :
  NoDup ks →
  NoDup (up.aggregate_order (_urdf_robot s)) →
  NoDup (up.link_name <$> up.links (_urdf_robot s)) →
  (∀ k, k ∈ ks → ∃ l, up.link_map (_urdf_robot s) !! k = Some l
                      ∧ l ∈ up.links (_urdf_robot s) ∧ up.link_name l = k) →
  for_each_do
    (λ link,
       do self <- get;
       do l <- lift (get_urdf_link self link);
       on_robot (λ r, up.remove_aggregate r (up.link l)))
    ks s
  = (Ok tt, with_robot s (set_aggregates (_urdf_robot s)
                            (filter (keep_links ks) (up.aggregate_order (_urdf_robot s))))).
Proof.
  revert s. induction ks as [|k ks IH]; intros s Hks Hnd Hnames Hlook.
  - simpl. rewrite filter_all by (intros; apply keep_links_nil).
    by rewrite with_robot_set_aggregates_id.
  - apply NoDup_cons in Hks as [Hk Hks].
    destruct (Hlook k (list_elem_of_here _ _)) as (l & Hl & Hin & Hname).
    simpl. unfold and_then at 1. unfold and_then at 1. unfold get at 1.
    unfold and_then at 1. unfold lift at 1, get_urdf_link at 1, getitem at 1.
    rewrite Hl. unfold on_robot at 1.
    rewrite remove_aggregate_eq by (done || by apply elem_of_links_of).
    rewrite IH; simpl.
    + f_equal. unfold with_robot, set_aggregates. simpl. do 2 f_equal.
      rewrite list_filter_filter. apply filter_ext_in.
      intros [l'|j'] Hin'; simpl; [|by split; [intros [? ?]|]].
      rewrite not_elem_of_cons. apply elem_of_links_of in Hin'. split.
      * intros [? Hne]. split; [|done]. intros Heq. apply Hne. f_equal.
        apply (NoDup_fmap_elem_eq up.link_name (up.links (_urdf_robot s))); try done.
        congruence.
      * intros [Hne ?]. split; [done|]. intros [= ->]. done.
    + done.
    + by apply NoDup_filter.
    + unfold up.links. simpl. rewrite links_of_filter. by apply NoDup_fmap_filter.
    + intros k' Hk'. destruct (Hlook k' (list_elem_of_further _ _ _ Hk')) as (l' & ? & ? & ?).
      exists l'. split_and!; [done| |done].
      unfold up.links. simpl. rewrite links_of_filter. apply list_elem_of_filter.
      split; [|done]. intros [= ->]. congruence.
Qed.

(** The second loop: the joints named in [ks] leave the aggregates. *)
Lemma remove_joints_eq ks s :
  NoDup ks →
  NoDup (up.aggregate_order (_urdf_robot s)) →
  NoDup (up.joint_name <$> up.joints (_urdf_robot s)) →
  (∀ k, k ∈ ks → ∃ j, up.joint_map (_urdf_robot s) !! k = Some j
                      ∧ j ∈ up.joints (_urdf_robot s) ∧ up.joint_name j = k) →
  for_each_do
    (λ joint,
       do self <- get;
       do j <- lift (get_urdf_joint self joint);
       on_robot (λ r, up.remove_aggregate r (up.joint j)))
    ks s
  = (Ok tt, with_robot s (set_aggregates (_urdf_robot s)
                            (filter (keep_joints ks) (up.aggregate_order (_urdf_robot s))))).
Proof.
  revert s. induction ks as [|k ks IH]; intros s Hks Hnd Hnames Hlook.
  - simpl. rewrite filter_all by (intros; apply keep_joints_nil).
    by rewrite with_robot_set_aggregates_id.
  - apply NoDup_cons in Hks as [Hk Hks].
    destruct (Hlook k (list_elem_of_here _ _)) as (j & Hj & Hin & Hname).
    simpl. unfold and_then at 1. unfold and_then at 1. unfold get at 1.
    unfold and_then at 1. unfold lift at 1, get_urdf_joint at 1, getitem at 1.
    rewrite Hj. unfold on_robot at 1.
    rewrite remove_aggregate_eq by (done || by apply elem_of_joints_of).
    rewrite IH; simpl.
    + f_equal. unfold with_robot, set_aggregates. simpl. do 2 f_equal.
      rewrite list_filter_filter. apply filter_ext_in.
      intros [l'|j'] Hin'; simpl; [by split; [intros [? ?]|]|].
      rewrite not_elem_of_cons. apply elem_of_joints_of in Hin'. split.
      * intros [? Hne]. split; [|done]. intros Heq. apply Hne. f_equal.
        apply (NoDup_fmap_elem_eq up.joint_name (up.joints (_urdf_robot s))); try done.
        congruence.
      * intros [Hne ?]. split; [done|]. intros [= ->]. done.
    + done.
    + by apply NoDup_filter.
    + unfold up.joints. simpl. rewrite joints_of_filter. by apply NoDup_fmap_filter.
    + intros k' Hk'. destruct (Hlook k' (list_elem_of_further _ _ _ Hk')) as (j' & ? & ? & ?).
      exists j'. split_and!; [done| |done].
      unfold up.joints. simpl. rewrite joints_of_filter. apply list_elem_of_filter.
      split; [|done]. intros [= ->]. congruence.
Qed.

Lemma joints_of_filter_keep_links ks aggs :
  up.joints_of (filter (keep_links ks) aggs) = up.joints_of aggs.
Proof. rewrite joints_of_filter. by apply filter_all. Qed.

Lemma links_of_filter_keep_joints ks aggs :
  up.links_of (filter (keep_joints ks) aggs) = up.links_of aggs.
Proof. rewrite links_of_filter. by apply filter_all. Qed.

(** * Detaching *)

Section detach.

Variable self : URDFObject.
Variable D : string → nat.
Variable N : nat.
Hypothesis Hranked : ranked self D N.
Hypothesis Hlink_names : NoDup (link_names self).

Local Abbreviation js := (up.joints (_urdf_robot self)).

Lemma below_link_name j l :
  j ∈ js → below self (up.child j) l → l ∈ link_names self.
Proof.
  intros Hj [<-|(l' & _ & (j' & Hj' & _ & <-))]%rtc_inv_r;
    by apply (ranked_child_link _ _ _ Hranked).
Qed.

(** No joint of the sub-tree below [j] has the name of [j]. *)
Lemma joint_not_below_itself j :
  j ∈ js → ¬ joint_below self (up.child j) (up.joint_name j).
Proof.
  intros Hj (jt & Hjt & Hname & Hb).
  assert (jt = j) as ->.
  { apply (NoDup_fmap_elem_eq up.joint_name js); try done.
    apply (ranked_joint_names _ _ _ Hranked). }
  apply (below_rank _ _ _ Hranked) in Hb.
  destruct (ranked_rank _ _ _ Hranked j Hj). lia.
Qed.

(** Detaching at a joint [j] of the tree: given fuel for the links of the
    sub-tree, its links, the joint and its joints leave the tree, and the
    tables are rebuilt. *)
Lemma detach_sub_tree_eq j :
  j ∈ js →
  ∃ n sub_tree,
    (∀ fuel, (n ≤ fuel)%nat →
       get_sub_tree_at_joint fuel self (up.joint_name j) = Some (Ok sub_tree)
       ∧ detach_sub_tree fuel (up.joint_name j) self
         = Some (Ok tt, detached self sub_tree (up.joint_name j)))
    ∧ get_root sub_tree = Ok (up.child j)
    ∧ (∀ l, l ∈ get_link_names sub_tree ↔ below self (up.child j) l)
    ∧ (∀ k, k ∈ get_joint_names sub_tree ↔ joint_below self (up.child j) k).
Proof.
  intros Hj.
  pose proof (ranked_initialized _ _ _ Hranked) as Hinit.
  pose proof (ranked_joint_names _ _ _ Hranked) as Hjoint_names.
  destruct (get_sub_tree_at_joint_eq _ _ _ Hranked j Hj) as (tl & tj & Hfuel & Htl & Htj).
  destruct (sub_tree_contents _ _ _ Hranked j tl tj Hj Htl Htj)
    as (Hroot & Hlinks & Hjoints).
  set (sub_tree := from_parts (up.joint_name j) tl tj) in *.
  eexists _, sub_tree. split_and!; [|done..].
  intros fuel Hle. split; [by apply Hfuel|].
  unfold detach_sub_tree. rewrite (Hfuel fuel Hle). f_equal.
  assert (NoDup (up.aggregate_order (_urdf_robot self))) as Haggs
    by by apply NoDup_aggregates.
  unfold and_then at 1. rewrite remove_links_eq; [|apply NoDup_keys|done|done|].
  2:{ intros k Hk%Hlinks. apply (below_link_name j) in Hk; [|done].
      destruct (link_map_is_Some _ Hinit k Hk) as [l Hl]. exists l.
      by destruct (link_map_Some _ Hinit _ _ Hl). }
  unfold and_then at 1. rewrite remove_joints_eq.
  - reflexivity.
  - apply NoDup_cons. split; [|apply NoDup_keys].
    rewrite Hjoints. by apply joint_not_below_itself.
  - simpl. by apply NoDup_filter.
  - unfold up.joints. simpl. by rewrite joints_of_filter_keep_links.
  - unfold up.joints. simpl. rewrite joints_of_filter_keep_links.
    intros k [->|Hk%Hjoints]%elem_of_cons.
    + exists j. by rewrite (joint_map_lookup_joint _ _ _ Hranked).
    + destruct Hk as (jt & Hjt & <- & _). exists jt.
      by rewrite (joint_map_lookup_joint _ _ _ Hranked).
Qed.

End detach.

(** More fuel than needed changes nothing. *)
Lemma get_sub_tree_at_joint_mono fuel fuel' self joint_name r :
  get_sub_tree_at_joint fuel self joint_name = Some r → (fuel ≤ fuel')%nat →
  get_sub_tree_at_joint fuel' self joint_name = Some r.
Proof.
  unfold get_sub_tree_at_joint. intros H Hle.
  destruct (sub_tree_loop fuel _ _ _ _) as [r'|] eqn:E; [|done].
  by rewrite (sub_tree_loop_mono _ _ fuel' _ _ _ _ E Hle).
Qed.

Lemma detach_sub_tree_mono fuel fuel' joint_name self r :
  detach_sub_tree fuel joint_name self = Some r → (fuel ≤ fuel')%nat →
  detach_sub_tree fuel' joint_name self = Some r.
Proof.
  unfold detach_sub_tree. intros H Hle.
  destruct (get_sub_tree_at_joint fuel _ _) as [r'|] eqn:E; [|done].
  by rewrite (get_sub_tree_at_joint_mono _ fuel' _ _ _ E Hle).
Qed.

Lemma initialized_with_robot self doc :
  initialized (with_robot self (up.from_xml_string doc)).
Proof.
  unfold initialized, get_urdf, with_robot. simpl.
  by rewrite to_xml_string_from_xml_string.
Qed.

Lemma aggregate_order_from_xml_string doc :
  up.aggregate_order (up.from_xml_string doc) = up.xml_elements doc.
Proof. unfold up.from_xml_string. by rewrite aggregate_order_foldl_add_aggregate. Qed.

Lemma parent_map_is_Some self l :
  initialized self →
  is_Some (up.parent_map (_urdf_robot self) !! l)
  ↔ ∃ j, j ∈ up.joints (_urdf_robot self) ∧ up.child j = l.
Proof.
  intros Hinit. rewrite (self_parent_map _ Hinit), fmap_is_Some. split.
  - intros [j Hj]. apply (last_filter_elem_of (λ j, up.child j = l)) in Hj. by exists j.
  - intros (j & Hj & Hc). by apply (last_filter_is_Some (λ j, up.child j = l) _ j).
Qed.

Lemma detached_links self sub_tree joint_name :
  up.links (_urdf_robot (detached self sub_tree joint_name))
  = filter (λ l, up.link_name l ∉ get_link_names sub_tree) (up.links (_urdf_robot self)).
Proof.
  unfold detached, with_robot, up.links. cbn [_urdf_robot].
  rewrite aggregate_order_from_xml_string. cbn [up.xml_elements].
  by rewrite links_of_filter_keep_joints, links_of_filter.
Qed.

Lemma detached_joints self sub_tree joint_name :
  up.joints (_urdf_robot (detached self sub_tree joint_name))
  = filter (λ j, up.joint_name j ∉ joint_name :: get_joint_names sub_tree)
      (up.joints (_urdf_robot self)).
Proof.
  unfold detached, with_robot, up.joints. cbn [_urdf_robot].
  rewrite aggregate_order_from_xml_string. cbn [up.xml_elements].
  by rewrite joints_of_filter, joints_of_filter_keep_links.
Qed.

(** * Attach, then detach *)

Lemma filter_none {A} (P : A → Prop) `{!∀ a, Decision (P a)} (l : list A) :
  (∀ a, a ∈ l → ¬ P a) → filter P l = [].
Proof.
  induction l as [|a l IH]; intros Hall; [done|].
  rewrite filter_cons, decide_False by apply Hall, list_elem_of_here.
  apply IH. intros. by apply Hall, list_elem_of_further.
Qed.

(** In a valid tree every link is below the root. *)
Lemma valid_below_root self root l :
  valid_tree self → get_root self = Ok root → l ∈ link_names self →
  below self root l.
Proof.
  intros Hvalid Hroot Hl.
  pose proof (valid_initialized _ Hvalid) as Hinit.
  apply get_root_inv in Hroot as (_ & _ & Hothers).
  assert (is_Some (depth (length (link_names self)) self l)) as [k Hk].
  { destruct Hvalid as (_ & _ & _ & H & _). rewrite Forall_forall in H. by apply H. }
  revert l k Hl Hk. generalize (length (link_names self)) as fuel.
  induction fuel as [|fuel IH]; intros l k Hl; rewrite depth_eq;
    destruct (up.parent_map _ !! l) as [[jn p]|] eqn:Hp; try done.
  - intros _. destruct (decide (l = root)) as [->|Hne]; [apply rtc_refl|].
    apply (get_link_names_registry _ Hinit) in Hl.
    destruct (Hothers l Hl Hne) as [? ?]. congruence.
  - destruct (depth fuel self p) as [k'|] eqn:E; [|done]. intros _.
    apply valid_parent_map_inv in Hp as (j & Hj & _ & <- & <-); [|done].
    eapply rtc_r; [|by exists j].
    eapply IH; [|exact E]. by apply valid_parent_link.
  - intros _. destruct (decide (l = root)) as [->|Hne]; [apply rtc_refl|].
    apply (get_link_names_registry _ Hinit) in Hl.
    destruct (Hothers l Hl Hne) as [? ?]. congruence.
Qed.

Lemma valid_depth_bound self l :
  (default 0 (depth (length (link_names self)) self l) ≤ length (link_names self))%nat.
Proof.
  destruct (depth _ self l) as [k|] eqn:E; simpl; [by eapply depth_le|lia].
Qed.

Lemma link_name_elem self l :
  l ∈ up.links (_urdf_robot self) → up.link_name l ∈ link_names self.
Proof. apply list_elem_of_fmap_2. Qed.

Lemma joint_name_elem self j :
  j ∈ up.joints (_urdf_robot self) → up.joint_name j ∈ joint_names self.
Proof. apply list_elem_of_fmap_2. Qed.

Section attach_detach.

Variable euler_from_quaternion : list float → list float.
Variables self other : URDFObject.
Variables parent_link root : string.
Variable pose : msg.Pose.

Hypothesis Hself : valid_tree self.
Hypothesis Hother : valid_tree other.
Hypothesis Hdisjoint : ¬ name_collision self other.
Hypothesis Hname_joint : get_name other ∉ joint_names self.
Hypothesis Hname_other : get_name other ∉ joint_names other.
Hypothesis Hparent : parent_link ∈ link_names self.
Hypothesis Hroot : get_root other = Ok root.

Local Abbreviation W := (weld euler_from_quaternion other root parent_link pose).
Local Abbreviation M := (attached euler_from_quaternion self other root parent_link pose).

Lemma attached_links :
  up.links (_urdf_robot M) = up.links (_urdf_robot self) ++ up.links (_urdf_robot other).
Proof.
  unfold attached, with_robot, up.links. cbn [_urdf_robot].
  rewrite aggregate_order_from_xml_string. cbn [up.xml_elements].
  rewrite !links_of_app, links_of_joints, links_of_links. done.
Qed.

Lemma attached_joints :
  up.joints (_urdf_robot M)
  = up.joints (_urdf_robot self) ++ W :: up.joints (_urdf_robot other).
Proof.
  unfold attached, with_robot, up.joints. cbn [_urdf_robot].
  rewrite aggregate_order_from_xml_string. cbn [up.xml_elements].
  rewrite !joints_of_app, joints_of_joints, joints_of_links, app_nil_r. done.
Qed.

Lemma attached_link_names : link_names M = link_names self ++ link_names other.
Proof. unfold link_names. by rewrite attached_links, fmap_app. Qed.

Lemma other_link_not_self l : l ∈ link_names other → l ∉ link_names self.
Proof. intros Ho Hs. apply Hdisjoint. exists l. auto. Qed.

Lemma other_joint_not_self k : k ∈ joint_names other → k ∉ joint_names self.
Proof. intros Ho Hs. apply Hdisjoint. exists k. auto. Qed.

Lemma root_link_name : root ∈ link_names other.
Proof.
  apply get_root_inv in Hroot as (Hin & _).
  by apply (get_link_names_registry _ (valid_initialized _ Hother)).
Qed.

Lemma attached_joint_cases j :
  j ∈ up.joints (_urdf_robot M) ↔
  j ∈ up.joints (_urdf_robot self) ∨ j = W ∨ j ∈ up.joints (_urdf_robot other).
Proof. by rewrite attached_joints, elem_of_app, elem_of_cons. Qed.

Local Abbreviation Ns := (length (link_names self)).
Local Abbreviation No := (length (link_names other)).
Local Abbreviation Ds := (λ l, default 0 (depth Ns self l)).
Local Abbreviation Do := (λ l, default 0 (depth No other l)).

(** The rank of the links of the attached tree: the links of the other
    tree come below the parent link. *)
Local Abbreviation DM :=
  (λ l, if decide (l ∈ link_names other) then S (Ds parent_link) + Do l else Ds l).

Lemma attached_ranked : ranked M DM (S (Ns + No)).
Proof.
  split_and!.
  - apply initialized_with_robot.
  - rewrite attached_joints, fmap_app, fmap_cons. apply NoDup_app. split_and!.
    + apply (valid_joint_names _ Hself).
    + intros k Hk [->|Ho]%elem_of_cons; [done|]. by apply (other_joint_not_self k).
    + apply NoDup_cons. split; [done|]. apply (valid_joint_names _ Hother).
  - intros j [Hj|[->|Hj]]%attached_joint_cases; rewrite attached_link_names, elem_of_app.
    + left. by apply valid_child_link.
    + right. apply root_link_name.
    + right. by apply valid_child_link.
  - intros j [Hj|[->|Hj]]%attached_joint_cases.
    + pose proof (valid_child_link _ Hself j Hj) as Hc.
      pose proof (valid_parent_link _ Hself j Hj) as Hp.
      rewrite !decide_False by (intros ?; by eapply other_link_not_self).
      destruct (valid_rank _ Hself j Hj). split; [done|lia].
    + cbn [weld up.child up.parent].
      rewrite decide_True by apply root_link_name.
      rewrite decide_False by (intros ?; by eapply other_link_not_self).
      assert (Do root = 0) as ->.
      { apply get_root_inv in Hroot as (_ & Hnone & _).
        cbn beta. rewrite depth_eq. unfold get_root in *. by rewrite Hnone. }
      pose proof (valid_depth_bound self parent_link). split; lia.
    + pose proof (valid_child_link _ Hother j Hj) as Hc.
      pose proof (valid_parent_link _ Hother j Hj) as Hp.
      rewrite !decide_True by done.
      destruct (valid_rank _ Hother j Hj) as [Heq Hle].
      pose proof (valid_depth_bound self parent_link). split; [|lia].
      cbn beta in *. rewrite Heq. lia.
Qed.

Lemma attached_link_names_NoDup : NoDup (link_names M).
Proof.
  rewrite attached_link_names. apply NoDup_app. split_and!.
  - apply (valid_link_names _ Hself).
  - intros l Hs Ho. by eapply other_link_not_self.
  - apply (valid_link_names _ Hother).
Qed.

(** Below the root of the other tree are the links of the other tree,
    and no more. *)
Lemma attached_below_root l : below M root l ↔ l ∈ link_names other.
Proof.
  split.
  - revert l. apply rtc_ind_r; [apply root_link_name|].
    intros x y _ (j & Hj & Hp & <-) IH.
    + apply attached_joint_cases in Hj as [Hj|[->|Hj]].
      * exfalso. apply (other_link_not_self x IH). rewrite <- Hp.
        by apply valid_parent_link.
      * exfalso. apply (other_link_not_self x IH). rewrite <- Hp. exact Hparent.
      * by apply valid_child_link.
  - intros Hl. pose proof (valid_below_root _ _ _ Hother Hroot Hl) as Hb.
    eapply rtc_subrel; [|exact Hb].
    intros x y (j & Hj & ? & ?). exists j. split; [|done].
    apply attached_joint_cases. auto.
Qed.

Lemma weld_attached : W ∈ up.joints (_urdf_robot M).
Proof. apply attached_joint_cases. auto. Qed.

(** Detaching the weld joint gives the tree back. *)
Lemma detach_attached :
  ∃ n, ∀ fuel, (n ≤ fuel)%nat →
    detach_sub_tree fuel (get_name other) M = Some (Ok tt, self).
Proof.
  destruct (detach_sub_tree_eq M _ _ attached_ranked attached_link_names_NoDup
              W weld_attached) as (n & sub_tree & Hfuel & _ & Hlinks & Hjoints).
  cbn [weld up.child up.joint_name] in *.
  exists n. intros fuel Hle. destruct (Hfuel fuel Hle) as [_ ->]. do 2 f_equal.
  pose proof (valid_initialized _ Hself) as Hinit.
  unfold detached.
  assert (get_name M = get_name self) as ->.
  { unfold get_name, attached, with_robot, up.from_xml_string. cbn [_urdf_robot].
    by rewrite robot_name_foldl_add_aggregate. }
  assert (filter (keep_joints (get_name other :: get_joint_names sub_tree))
            (filter (keep_links (get_link_names sub_tree))
               (up.aggregate_order (_urdf_robot M)))
          = up.aggregate_order (_urdf_robot self)) as ->.
  { unfold attached, with_robot. cbn [_urdf_robot].
    rewrite aggregate_order_from_xml_string. cbn [up.xml_elements].
    rewrite list_filter_filter, filter_app, filter_all, filter_none, app_nil_r; [done| |].
    - intros a Ha [Hkj Hkl].
      apply elem_of_cons in Ha as [->|[Ha|Ha]%elem_of_app].
      + apply Hkj, list_elem_of_here.
      + apply list_elem_of_fmap in Ha as (j & -> & Hj).
        apply Hkj, list_elem_of_further, Hjoints. exists j. split_and!; [|done|].
        * apply attached_joint_cases. auto.
        * apply attached_below_root. by apply valid_parent_link.
      + apply list_elem_of_fmap in Ha as (l & -> & Hl).
        apply Hkl, Hlinks, attached_below_root. by apply link_name_elem.
    - intros [l|j] Ha; split; cbn [keep_joints keep_links]; try done.
      + apply elem_of_links_of in Ha. fold (up.links (_urdf_robot self)) in Ha.
        rewrite Hlinks, attached_below_root. intros Ho.
        apply (other_link_not_self _ Ho). by apply link_name_elem.
      + apply elem_of_joints_of in Ha. fold (up.joints (_urdf_robot self)) in Ha.
        apply not_elem_of_cons. split.
        * intros Heq. apply Hname_joint. rewrite <- Heq. by apply joint_name_elem.
        * rewrite Hjoints. intros (jt & Hjt & Hname & Hb%attached_below_root).
          assert (jt = j) as ->.
          { apply (NoDup_fmap_elem_eq up.joint_name (up.joints (_urdf_robot M)));
              [apply (ranked_joint_names _ _ _ attached_ranked)|done| |done].
            apply attached_joint_cases. auto. }
          apply (other_link_not_self _ Hb). by apply valid_parent_link. }
  unfold initialized, get_urdf, up.to_xml_string, get_name in *.
  unfold with_robot. rewrite <- Hinit. by destruct self.
Qed.

End attach_detach.

(** C9, as the code has it: when no name of the other tree is a name of
    the tree, and the other tree has no joint of its own name, a successful
    attach followed by the detach of the joint named after the other tree
    gives the tree back, its link and joint names with it. *)
Theorem attach_then_detach euler_from_quaternion self other parent_link pose self' :
  valid_tree self →
  valid_tree other →
  ¬ name_collision self other →
  get_name other ∉ joint_names other →
  attach_urdf_object euler_from_quaternion other parent_link pose self = (Ok tt, self') →
  ∃ n, ∀ fuel, (n ≤ fuel)%nat →
    ∃ self'',
      detach_sub_tree fuel (get_name other) self' = Some (Ok tt, self'')
      ∧ link_names self'' = link_names self
      ∧ joint_names self'' = joint_names self
      ∧ self'' = self.
Proof.
  intros Hself Hother Hdisjoint Hname_other. rewrite attach_urdf_object_eq.
  pose proof (valid_initialized _ Hself) as Hinit.
  case_decide as Hlink; [done|]. case_decide as Hjoint; [done|].
  case_decide as Hparent; [done|].
  destruct (get_root other) as [root|] eqn:Hroot; [|done]. intros [= <-].
  rewrite (get_joint_names_registry _ Hinit) in Hjoint.
  rewrite (get_link_names_registry _ Hinit) in Hparent.
  destruct (detach_attached euler_from_quaternion self other parent_link root pose
              Hself Hother Hdisjoint Hjoint Hname_other Hparent Hroot) as [n Hn].
  exists n. intros fuel Hle. exists self. by rewrite Hn.
Qed.

Lemma attach_failure_leaves_tree_unchanged_witness :
  ∃ e, attach_urdf_object no_rotation (single_link (plain_link "arm_link")) "base_link"
         origin_pose three_link_tree
       = (Raise e, three_link_tree).
Proof.
  apply (attach_failure_leaves_tree_unchanged no_rotation three_link_tree
           (single_link (plain_link "arm_link")) "base_link" origin_pose).
  left. by_computation.
Defined.

(** An attach that breaks the precondition on names and does not fail: a
    link of the other tree is called as a link of the tree is.  The call
    returns, and the links and joints of the other tree are in the tree. *)
Lemma attach_with_name_collision_changes_tree :
  name_collision three_link_tree arm_object
  ∧ "base_link" ∈ link_names three_link_tree
  ∧ ∃ self',
      attach_urdf_object no_rotation arm_object "base_link" origin_pose three_link_tree
      = (Ok tt, self')
      ∧ self' ≠ three_link_tree
      ∧ get_urdf self' ≠ get_urdf three_link_tree
      ∧ link_names three_link_tree = ["base_link"; "arm_link"; "hand_link"]
      ∧ link_names self' = ["base_link"; "arm_link"; "hand_link"; "box"; "arm_link"]
      ∧ joint_names three_link_tree = ["j1"; "j2"]
      ∧ joint_names self' = ["j1"; "j2"; "box"; "bj"].
Proof.
  split; [exists "arm_link"; split; left; by_computation|].
  split; [by_computation|].
  eexists. split; [vm_compute; reflexivity|].
  split_and!.
  - intros H. apply (f_equal joint_names) in H. vm_compute in H. discriminate H.
  - intros H. apply (f_equal (λ doc, length (up.xml_elements doc))) in H.
    vm_compute in H. discriminate H.
  - vm_compute. reflexivity.
  - vm_compute. reflexivity.
  - vm_compute. reflexivity.
  - vm_compute. reflexivity.
Qed.

Lemma attach_duplicate_name_iff_witness :
  ∃ msg self',
    attach_urdf_object no_rotation (single_link (plain_link "arm_link")) "base_link"
      origin_pose three_link_tree
    = (Raise (DuplicateNameException msg), self').
Proof.
  apply (attach_duplicate_name_iff no_rotation three_link_tree
           (single_link (plain_link "arm_link")) "base_link" origin_pose).
  left. by_computation.
Defined.

(** A link name of the other tree (not its root) is a link name of the
    tree, and the attach succeeds. *)
Lemma attach_with_colliding_link_name :
  name_collision three_link_tree arm_object
  ∧ fst (attach_urdf_object no_rotation arm_object "base_link" origin_pose three_link_tree)
    = Ok tt.
Proof.
  split; [|vm_compute; reflexivity].
  exists "arm_link". split; left; by_computation.
Qed.

(** After such an attach, the detach takes a link and a joint of the tree
    along. *)
Lemma attach_then_detach_loses_links :
  valid_tree three_link_tree ∧ valid_tree arm_object
  ∧ "base_link" ∈ link_names three_link_tree
  ∧ fst (attach_urdf_object no_rotation arm_object "base_link" origin_pose three_link_tree)
    = Ok tt
  ∧ get_name arm_object = "box" ∧ get_root arm_object = Ok "box"
  ∧ (∀ fuel, (3 ≤ fuel)%nat →
       detach_sub_tree fuel (get_name arm_object)
         (snd (attach_urdf_object no_rotation arm_object "base_link" origin_pose
                 three_link_tree))
       = Some (Ok tt, without_hand))
  ∧ link_names three_link_tree = ["base_link"; "arm_link"; "hand_link"]
  ∧ link_names without_hand = ["base_link"; "arm_link"]
  ∧ joint_names three_link_tree = ["j1"; "j2"]
  ∧ joint_names without_hand = ["j1"].
Proof.
  split; [valid_by_computation|]. split; [valid_by_computation|].
  split_and!;
    [by_computation|vm_compute; reflexivity|reflexivity|vm_compute; reflexivity|
    |vm_compute; reflexivity..].
  intros fuel Hle. apply (detach_sub_tree_mono 3); [|exact Hle]. vm_compute. reflexivity.
Qed.

Lemma attach_then_detach_witness :
  ∃ n, ∀ fuel, (n ≤ fuel)%nat →
    detach_sub_tree fuel "box"
      (snd (attach_urdf_object no_rotation box_object "hand_link" origin_pose
              three_link_tree))
    = Some (Ok tt, three_link_tree).
Proof.
  destruct (attach_then_detach no_rotation three_link_tree box_object "hand_link"
              origin_pose
              (snd (attach_urdf_object no_rotation box_object "hand_link" origin_pose
                      three_link_tree))) as [n Hn].
  - valid_by_computation.
  - valid_by_computation.
  - intros (k & Ho & Hs). revert Ho Hs.
    change (link_names box_object) with ["box"].
    change (joint_names box_object) with (@nil string).
    change (link_names three_link_tree) with ["base_link"; "arm_link"; "hand_link"].
    change (joint_names three_link_tree) with ["j1"; "j2"].
    rewrite !elem_of_cons, !elem_of_nil. intros [[->|[]]|[]] Hs.
    decompose [or] Hs; done.
  - by_computation.
  - vm_compute. reflexivity.
  - exists n. intros fuel Hle.
    destruct (Hn fuel Hle) as (tree2 & Hd & _ & _ & ->). exact Hd.
Defined.

(** * Queries on the joints of a tree *)

(** A name that [get_joint_names] yields is a key of [joint_map]. *)
Lemma get_joint_names_joint self k :
  k ∈ get_joint_names self ↔ ∃ j, get_urdf_joint self k = Ok j.
Proof.
  unfold get_joint_names, get_urdf_joint, getitem. rewrite elem_of_keys.
  destruct (up.joint_map (_urdf_robot self) !! k) as [j|]; split.
  - intros _. by exists j.
  - intros _. by exists j.
  - by intros [? ?].
  - by intros [? ?].
Qed.

Lemma get_urdf_joint_unknown self k :
  k ∉ get_joint_names self → get_urdf_joint self k = Raise (KeyError k).
Proof.
  unfold get_joint_names, get_urdf_joint, getitem. rewrite elem_of_keys.
  destruct (up.joint_map (_urdf_robot self) !! k) as [j|]; [|done].
  intros []. by exists j.
Qed.

Lemma is_joint_controllable_returns self k :
  k ∈ get_joint_names self → ∃ b, is_joint_controllable self k = Ok b.
Proof.
  intros [j Hj]%get_joint_names_joint. unfold is_joint_controllable.
  rewrite Hj. simpl. eauto.
Qed.

(** A comprehension that keeps the names [c] answers [True] for. *)
Lemma for_each_comprehension {A} `{!EqDecision A} (c : A → result bool) (ks acc : list A) :
  (∀ k, k ∈ ks → ∃ b, c k = Ok b) →
  for_each (λ acc k, let* b := c k in Ok (if b then acc ++ [k] else acc)) ks acc
  = Ok (acc ++ filter (λ k, c k = Ok true) ks).
Proof.
  revert acc. induction ks as [|k ks IH]; intros acc Hks.
  - simpl. by rewrite app_nil_r.
  - destruct (Hks k) as [b Hb]; [by left|].
    cbn [for_each]. rewrite Hb. cbn [bind].
    rewrite IH by (intros ? ?; apply Hks; by right).
    rewrite filter_cons. destruct b.
    + rewrite decide_True by done. by rewrite <-app_assoc.
    + rewrite decide_False by (rewrite Hb; congruence). done.
Qed.

(** X1: [get_joint_names_controllable] never raises; it yields, in the
    order of [get_joint_names], exactly the joint names for which
    [is_joint_controllable] answers [True]. *)
Theorem get_joint_names_controllable_filter self :
  get_joint_names_controllable self
  = Ok (filter (λ k, is_joint_controllable self k = Ok true) (get_joint_names self)).
Proof.
  unfold get_joint_names_controllable.
  rewrite (for_each_comprehension (is_joint_controllable self)); [done|].
  intros k Hk. by apply is_joint_controllable_returns.
Qed.

Lemma get_joint_limits_returns self k :
  k ∈ get_joint_names self → ∃ v, get_joint_limits self k = Ok v.
Proof.
  intros [j Hj]%get_joint_names_joint. rewrite (get_joint_limits_eq _ _ _ Hj). eauto.
Qed.

Lemma get_all_joint_limits_loop self ks
    (acc : gmap string (option float * option float)) :
  (∀ k, k ∈ ks → k ∈ get_joint_names self) →
  ∃ limits,
    for_each
      (λ acc joint_name,
         let* c := is_joint_controllable self joint_name in
         if c then
           let* limits := get_joint_limits self joint_name in
           Ok (<[joint_name := limits]> acc)
         else Ok acc)
      ks acc = Ok limits
    ∧ ∀ k v, limits !! k = Some v
        ↔ (k ∈ ks ∧ is_joint_controllable self k = Ok true
           ∧ get_joint_limits self k = Ok v)
          ∨ (¬ (k ∈ ks ∧ is_joint_controllable self k = Ok true) ∧ acc !! k = Some v).
Proof.
  revert acc. induction ks as [|k0 ks IH]; intros acc Hks.
  - exists acc. split; [done|]. intros k v. split.
    + intros H. right. split; [|done]. intros [[]%elem_of_nil _].
    + intros [[[]%elem_of_nil _]|[_ H]]. done.
  - assert (k0 ∈ get_joint_names self) as Hk0 by (apply Hks; by left).
    destruct (is_joint_controllable_returns _ _ Hk0) as [b Hb].
    destruct (get_joint_limits_returns _ _ Hk0) as [v0 Hv0].
    cbn [for_each]. rewrite Hb. cbn [bind].
    assert (∀ k, k ∈ ks → k ∈ get_joint_names self) as Hks'
      by (intros ? ?; apply Hks; by right).
    destruct b.
    + rewrite Hv0. cbn [bind].
      destruct (IH (<[k0 := v0]> acc) Hks') as (limits & -> & Hl).
      exists limits. split; [done|]. intros k v. rewrite Hl, elem_of_cons.
      destruct (decide (k = k0)) as [->|Hne].
      * rewrite lookup_insert_eq. split.
        -- intros [(? & ? & ?)|[? [= <-]]]; left; eauto.
        -- intros [(_ & _ & Hv)|[[] _]]; [|eauto].
           destruct (decide (k0 ∈ ks)); [left; eauto|].
           right. split; [tauto|]. congruence.
      * rewrite lookup_insert_ne by done. split.
        -- intros [(? & ? & ?)|[? ?]]; [left; eauto|right]. split; [|done]. tauto.
        -- intros [([|] & ? & ?)|[? ?]]; [done|left; eauto|right]. split; [|done]. tauto.
    + cbn [bind]. destruct (IH acc Hks') as (limits & -> & Hl).
      exists limits. split; [done|]. intros k v. rewrite Hl, elem_of_cons.
      destruct (decide (k = k0)) as [->|Hne].
      * split.
        -- intros [(? & ? & ?)|[? ?]]; [left; eauto|right]. split; [|done].
           intros [_ ?]. congruence.
        -- intros [(_ & ? & _)|[? ?]]; [congruence|]. right. split; [|done]. tauto.
      * split.
        -- intros [(? & ? & ?)|[? ?]]; [left; eauto|right]. split; [|done]. tauto.
        -- intros [([|] & ? & ?)|[? ?]]; [done|left; eauto|right]. split; [|done]. tauto.
Qed.

(** X2: [get_all_joint_limits] never raises; the dictionary it returns
    has an entry exactly for the joints for which [is_joint_controllable]
    answers [True], and the entry is what [get_joint_limits] returns for
    the joint. *)
Theorem get_all_joint_limits_lookup self :
  ∃ limits,
    get_all_joint_limits self = Ok limits
    ∧ ∀ k v, limits !! k = Some v
        ↔ is_joint_controllable self k = Ok true ∧ get_joint_limits self k = Ok v.
Proof.
  destruct (get_all_joint_limits_loop self (get_joint_names self) ∅) as (limits & H & Hl);
    [done|].
  exists limits. split; [done|]. intros k v. rewrite Hl. split.
  - intros [(_ & ? & ?)|[_ ?]]; [done|]. by rewrite lookup_empty in *.
  - intros [Hc Hv]. left. split; [|done].
    destruct (decide (k ∈ get_joint_names self)) as [|Hk]; [done|].
    apply get_urdf_joint_unknown in Hk. unfold is_joint_controllable in Hc.
    by rewrite Hk in Hc.
Qed.

Lemma elem_of_MOVABLE t :
  t ∈ MOVABLE_JOINT_TYPES ↔ t = "revolute" ∨ t = "continuous" ∨ t = "prismatic".
Proof. unfold MOVABLE_JOINT_TYPES. rewrite !elem_of_cons, elem_of_nil. tauto. Qed.

Lemma elem_of_ROTATIONAL t :
  t ∈ ROTATIONAL_JOINT_TYPES ↔ t = "revolute" ∨ t = "continuous".
Proof. unfold ROTATIONAL_JOINT_TYPES. rewrite !elem_of_cons, elem_of_nil. tauto. Qed.

Lemma elem_of_TRANSLATIONAL t : t ∈ TRANSLATIONAL_JOINT_TYPES ↔ t = "prismatic".
Proof. unfold TRANSLATIONAL_JOINT_TYPES. rewrite !elem_of_cons, elem_of_nil. tauto. Qed.

Lemma elem_of_JOINT_TYPES t :
  t ∈ JOINT_TYPES
  ↔ t = "fixed" ∨ t = "revolute" ∨ t = "continuous" ∨ t = "prismatic".
Proof. unfold JOINT_TYPES. rewrite !elem_of_cons, elem_of_nil. tauto. Qed.

(** X3: the kinds of a joint of the tree.  A joint is never both
    controllable and mimic, and never both rotational and translational;
    it is controllable or mimic exactly when it is rotational or
    translational; a continuous joint is rotational; and its type is
    supported exactly when it is rotational, translational or fixed. *)
Theorem joint_kinds self name j :
  get_urdf_joint self name = Ok j →
  ∃ controllable mimic rotational translational continuous supported : bool,
    is_joint_controllable self name = Ok controllable
    ∧ is_joint_mimic self name = Ok mimic
    ∧ is_rotational_joint self name = Ok rotational
    ∧ is_translational_joint self name = Ok translational
    ∧ is_joint_continuous self name = Ok continuous
    ∧ is_joint_type_supported self name = Ok supported
    ∧ ¬ (controllable ∧ mimic)
    ∧ ¬ (rotational ∧ translational)
    ∧ (controllable ∨ mimic ↔ rotational ∨ translational)
    ∧ (continuous → rotational)
    ∧ (supported ↔ rotational ∨ translational ∨ up.joint_type j = "fixed")
    ∧ (controllable ↔ (rotational ∨ translational) ∧ up.mimic j = None).
Proof.
  intros Hj.
  unfold is_joint_controllable, is_joint_mimic, is_rotational_joint,
    is_translational_joint, is_joint_continuous, is_joint_type_supported, get_joint_type.
  rewrite Hj. cbn [bind].
  eexists _, _, _, _, _, _. split_and!; try reflexivity.
  all: rewrite ?andb_True, ?bool_decide_spec, ?elem_of_MOVABLE, ?elem_of_ROTATIONAL,
         ?elem_of_TRANSLATIONAL, ?elem_of_JOINT_TYPES.
  - tauto.
  - intros [[->| ->] ?]; done.
  - destruct (decide (up.mimic j = None)); tauto.
  - tauto.
  - tauto.
  - tauto.
Qed.

Lemma joint_kinds_witness :
  ∃ controllable rotational : bool,
    is_joint_controllable two_link_tree "j1" = Ok controllable
    ∧ is_rotational_joint two_link_tree "j1" = Ok rotational
    ∧ (controllable ↔ rotational).
Proof.
  destruct (joint_kinds two_link_tree "j1"
              (plain_joint "j1" "base_link" "arm_link" "revolute"))
    as (c & m & r & t & co & su & Hc & _ & Hr & Ht & _ & _ & _ & Hrt & _ & _ & _ & Hcr).
  - reflexivity.
  - exists c, r. split; [exact Hc|]. split; [exact Hr|].
    assert (t = false) as -> by (vm_compute in Ht; congruence).
    rewrite Hcr. split; [intros [[?|[]] _]; done|]. intros ?. split; [by left|reflexivity].
Defined.

(** X4: the queries on a joint raise [KeyError] for a name that is no
    joint of the tree, and only then: for a joint of the tree each of them
    returns. *)
Theorem joint_queries_raise_iff_unknown self name :
  (name ∉ get_joint_names self →
     get_joint_limits self name = Raise (KeyError name)
     ∧ is_joint_controllable self name = Raise (KeyError name)
     ∧ is_joint_mimic self name = Raise (KeyError name)
     ∧ get_joint_type self name = Raise (KeyError name)
     ∧ is_joint_continuous self name = Raise (KeyError name)
     ∧ is_joint_type_supported self name = Raise (KeyError name)
     ∧ is_rotational_joint self name = Raise (KeyError name)
     ∧ is_translational_joint self name = Raise (KeyError name))
  ∧ (name ∈ get_joint_names self →
     (∃ v, get_joint_limits self name = Ok v)
     ∧ (∃ b, is_joint_controllable self name = Ok b)
     ∧ (∃ b, is_joint_mimic self name = Ok b)
     ∧ (∃ t, get_joint_type self name = Ok t)
     ∧ (∃ b, is_joint_continuous self name = Ok b)
     ∧ (∃ b, is_joint_type_supported self name = Ok b)
     ∧ (∃ b, is_rotational_joint self name = Ok b)
     ∧ (∃ b, is_translational_joint self name = Ok b)).
Proof.
  split.
  - intros Hk%get_urdf_joint_unknown.
    unfold get_joint_limits, is_joint_controllable, is_joint_mimic, is_rotational_joint,
      is_translational_joint, is_joint_continuous, is_joint_type_supported, get_joint_type.
    by rewrite Hk.
  - intros Hk. split; [by apply get_joint_limits_returns|].
    apply get_joint_names_joint in Hk as [j Hj].
    unfold is_joint_controllable, is_joint_mimic, is_rotational_joint,
      is_translational_joint, is_joint_continuous, is_joint_type_supported, get_joint_type.
    rewrite Hj. cbn [bind]. split_and!; eauto.
Qed.

(** * Ranked trees *)

Section ranked_trees.

Variable self : URDFObject.
Variable D : string → nat.
Variable N : nat.
Hypothesis Hranked : ranked self D N.

Local Abbreviation js := (up.joints (_urdf_robot self)).

Lemma ranked_parent_map_inv l k p :
  up.parent_map (_urdf_robot self) !! l = Some (k, p) →
  ∃ j, j ∈ js ∧ up.joint_name j = k ∧ up.parent j = p ∧ up.child j = l.
Proof.
  rewrite (self_parent_map _ (ranked_initialized _ _ _ Hranked)).
  destruct (last _) as [j|] eqn:E; [|done]. intros [= <- <-].
  apply (last_filter_elem_of (λ j, up.child j = l)) in E as [? ?]. eauto.
Qed.

Lemma ranked_parent_rank l k p :
  up.parent_map (_urdf_robot self) !! l = Some (k, p) → D l = S (D p).
Proof.
  intros (j & Hj & _ & <- & <-)%ranked_parent_map_inv.
  by apply (ranked_rank _ _ _ Hranked).
Qed.

Lemma ancestors_length fuel l :
  depth fuel self l = None → length (ancestors fuel self l) = S fuel.
Proof.
  revert l. induction fuel as [|fuel IH]; intros l; rewrite depth_eq; simpl;
    destruct (up.parent_map _ !! l) as [[k p]|]; try done.
  destruct (depth fuel self p) eqn:E; [done|]. intros _. by rewrite IH.
Qed.

Lemma ancestors_rank fuel l x : x ∈ ancestors fuel self l → (D x ≤ D l)%nat.
Proof.
  revert l. induction fuel as [|fuel IH]; intros l; simpl;
    destruct (up.parent_map _ !! l) as [[k p]|] eqn:Hp;
    try (intros ->%list_elem_of_singleton; lia).
  intros [->|Hx%IH]%elem_of_cons; [lia|].
  apply ranked_parent_rank in Hp. lia.
Qed.

Lemma ancestors_NoDup fuel l : NoDup (ancestors fuel self l).
Proof.
  revert l. induction fuel as [|fuel IH]; intros l; simpl;
    destruct (up.parent_map _ !! l) as [[k p]|] eqn:Hp;
    try (apply NoDup_singleton).
  apply NoDup_cons. split; [|apply IH].
  intros Hl%ancestors_rank. apply ranked_parent_rank in Hp. lia.
Qed.

Lemma ancestors_links fuel l :
  (∀ j, j ∈ js → up.parent j ∈ link_names self) →
  l ∈ link_names self →
  ∀ x, x ∈ ancestors fuel self l → x ∈ link_names self.
Proof.
  intros Hparent. revert l. induction fuel as [|fuel IH]; intros l Hl x; simpl;
    destruct (up.parent_map _ !! l) as [[k p]|] eqn:Hp;
    try (by intros ->%list_elem_of_singleton).
  intros [->|Hx]%elem_of_cons; [done|]. apply (IH p); [|done].
  apply ranked_parent_map_inv in Hp as (j & Hj & _ & <- & _). by apply Hparent.
Qed.

(** The parent relation of a ranked tree reaches a link without parent
    in fewer steps than the tree has links. *)
Lemma ranked_depth_is_Some l :
  (∀ j, j ∈ js → up.parent j ∈ link_names self) →
  l ∈ link_names self →
  is_Some (depth (length (link_names self)) self l).
Proof.
  intros Hparent Hl. destruct (depth _ self l) as [k|] eqn:E; [by exists k|].
  apply ancestors_length in E.
  assert (length (ancestors (length (link_names self)) self l)
          ≤ length (link_names self))%nat; [|lia].
  apply submseteq_length, NoDup_submseteq; [apply ancestors_NoDup|].
  by apply ancestors_links.
Qed.

Lemma below_same_rank a b : below self a b → D a = D b → a = b.
Proof.
  intros [?|(y & Hy & (j & Hj & <- & <-))]%rtc_inv_r; [done|].
  apply (below_rank _ _ _ Hranked) in Hy.
  destruct (ranked_rank _ _ _ Hranked j Hj). lia.
Qed.

Lemma ranked_joints_NoDup : NoDup js.
Proof. eapply NoDup_fmap_1, (ranked_joint_names _ _ _ Hranked). Qed.

Hypothesis Hchild : NoDup (up.child <$> js).

Lemma edge_parent_unique y y' x : edge self y x → edge self y' x → y = y'.
Proof.
  intros (j & Hj & <- & Hc) (j' & Hj' & <- & Hc').
  rewrite (NoDup_fmap_elem_eq up.child _ j j' Hchild Hj Hj'); [done|congruence].
Qed.

(** Two links above the same link lie one above the other. *)
Lemma below_comparable a b x :
  below self a x → below self b x → below self a b ∨ below self b a.
Proof.
  intros Ha. revert b. revert x Ha. apply (rtc_ind_r (λ x, ∀ b, below self b x → _)).
  - intros b Hb. by right.
  - intros y z Hy Hyz IH b [<-|(y' & Hb & Hy'z)]%rtc_inv_r.
    + left. by eapply rtc_r.
    + rewrite <- (edge_parent_unique _ _ _ Hyz Hy'z) in Hb. by apply IH.
Qed.

Lemma children_same_child (j1 j2 : up.Joint) x :
  j1 ∈ js → j2 ∈ js → up.parent j1 = up.parent j2 →
  below self (up.child j1) x → below self (up.child j2) x → j1 = j2.
Proof.
  intros H1 H2 Hp Hx1 Hx2.
  apply (NoDup_fmap_elem_eq up.child _ j1 j2 Hchild H1 H2).
  destruct (ranked_rank _ _ _ Hranked j1 H1) as [E1 _].
  destruct (ranked_rank _ _ _ Hranked j2 H2) as [E2 _].
  destruct (below_comparable _ _ _ Hx1 Hx2) as [H|H].
  - apply below_same_rank; [done|]. congruence.
  - symmetry. apply below_same_rank; [done|]. congruence.
Qed.

Lemma links_under_NoDup n c : NoDup (links_under n js c).
Proof.
  revert c. induction n as [|n IH]; intros c; simpl; [constructor|].
  apply NoDup_cons. split.
  - intros (j & Hx & [Hp Hj]%list_elem_of_filter)%list_elem_of_bind.
    apply links_under_below, (below_rank _ _ _ Hranked) in Hx.
    destruct (ranked_rank _ _ _ Hranked j Hj) as [E _]. rewrite Hp in E. lia.
  - apply NoDup_bind.
    + intros j1 j2 x [Hp1 H1]%list_elem_of_filter [Hp2 H2]%list_elem_of_filter
        Hx1%links_under_below Hx2%links_under_below.
      apply (children_same_child j1 j2 x); [done|done|congruence|done|done].
    + intros j _. apply IH.
    + apply NoDup_filter, ranked_joints_NoDup.
Qed.

Lemma joints_under_child n c j :
  j ∈ joints_under n js c → below self c (up.parent j) ∧ j ∈ js.
Proof. intros [? ?]%joints_under_below. done. Qed.

Lemma joints_under_NoDup n c : NoDup (joints_under n js c).
Proof.
  revert c. induction n as [|n IH]; intros c; simpl; [constructor|].
  assert (∀ j x, j ∈ js → x ∈ j :: joints_under n js (up.child j) →
                 x ∈ js ∧ below self (up.child j) (up.child x)) as Hsub.
  { intros j x Hj [->|[Hx Hb]%joints_under_below]%elem_of_cons.
    - split; [done|apply rtc_refl].
    - split; [done|]. eapply rtc_r; [exact Hb|]. by exists x. }
  apply NoDup_bind.
  - intros j1 j2 x [Hp1 H1]%list_elem_of_filter [Hp2 H2]%list_elem_of_filter
      [_ Hx1]%Hsub [_ Hx2]%Hsub; try done.
    apply (children_same_child j1 j2 (up.child x)); [done|done|congruence|done|done].
  - intros j [_ Hj]%list_elem_of_filter. apply NoDup_cons. split; [|apply IH].
    intros [Hin Hb]%joints_under_below.
    apply (below_rank _ _ _ Hranked) in Hb.
    destruct (ranked_rank _ _ _ Hranked j Hj). lia.
  - apply NoDup_filter, ranked_joints_NoDup.
Qed.

End ranked_trees.

Lemma filter_single {A} (P : A → Prop) `{!∀ a, Decision (P a)} (l : list A) x :
  NoDup l → x ∈ l → (∀ a, a ∈ l → P a ↔ a = x) → filter P l = [x].
Proof.
  induction l as [|a l IH]; intros Hnd Hx HP; [by apply elem_of_nil in Hx|].
  apply NoDup_cons in Hnd as [Ha Hnd]. rewrite filter_cons.
  destruct (decide (P a)) as [Hpa|Hpa].
  - apply HP in Hpa as ->; [|by left]. f_equal.
    apply filter_none. intros b Hb Hpb. apply HP in Hpb as ->; [done|by right].
  - apply elem_of_cons in Hx as [->|Hx]; [destruct Hpa; apply HP; [by left|done]|].
    apply IH; [done..|]. intros b Hb. apply HP. by right.
Qed.

(** A ranked tree with unique names, one parent joint for every link but
    one, and joints between its links, is a valid tree. *)
Lemma ranked_valid self D N root :
  ranked self D N →
  NoDup (link_names self ++ joint_names self) →
  NoDup (up.child <$> up.joints (_urdf_robot self)) →
  (∀ j, j ∈ up.joints (_urdf_robot self) → up.parent j ∈ link_names self) →
  root ∈ link_names self →
  (∀ l, l ∈ link_names self → up.parent_map (_urdf_robot self) !! l = None ↔ l = root) →
  valid_tree self.
Proof.
  intros Hranked Hnames Hchild Hparent Hroot Hroots.
  unfold valid_tree. split_and!.
  - by eapply ranked_initialized.
  - done.
  - unfold roots. rewrite (filter_single _ _ root); [done| |done|done].
    by apply NoDup_app in Hnames as [? _].
  - done.
  - apply Forall_forall. intros l Hl. by eapply ranked_depth_is_Some.
  - apply Forall_forall. intros j Hj. split; [by apply Hparent|].
    destruct Hranked as (_ & _ & Hc & _). by apply Hc.
Qed.

(** * The root and the parent links of a valid tree *)

Lemma valid_single_root self :
  valid_tree self →
  ∃ root,
    roots self = [root]
    ∧ root ∈ link_names self
    ∧ (∀ l, l ∈ link_names self →
         up.parent_map (_urdf_robot self) !! l = None ↔ l = root)
    ∧ get_root self = Ok root.
Proof.
  intros Hvalid. pose proof (valid_initialized _ Hvalid) as Hinit.
  destruct Hvalid as (_ & _ & [Hlen _] & _).
  destruct (roots self) as [|root [|]] eqn:Hr; try done. exists root.
  assert (root ∈ roots self) as [Hnone Hroot]%list_elem_of_filter
    by (rewrite Hr; by left).
  assert (∀ l, l ∈ link_names self →
             up.parent_map (_urdf_robot self) !! l = None ↔ l = root) as Hiff.
  { intros l Hl. split; [|by intros ->]. intros Hn.
    assert (l ∈ roots self) as Hlr by by apply list_elem_of_filter.
    rewrite Hr in Hlr. by apply list_elem_of_singleton in Hlr. }
  split_and!; [done..|]. apply get_root_found; [|done|].
  - by apply (get_link_names_registry _ Hinit).
  - intros l Hl%(get_link_names_registry _ Hinit) Hne.
    apply not_eq_None_Some. intros Hn. by apply Hne, Hiff.
Qed.

(** X5: a valid tree has one root, which [get_root] returns: a link of
    the tree without parent link, from which every link of the tree is
    reached by following child joints. *)
Theorem valid_tree_root self :
  valid_tree self →
  ∃ root,
    get_root self = Ok root
    ∧ roots self = [root]
    ∧ root ∈ get_link_names self
    ∧ get_parent_link_name self root = Raise (KeyError root)
    ∧ ∀ l, l ∈ get_link_names self → below self root l.
Proof.
  intros Hvalid. pose proof (valid_initialized _ Hvalid) as Hinit.
  destruct (valid_single_root _ Hvalid) as (root & Hroots & Hroot & Hiff & Hget).
  exists root. split_and!; [done|done| | |].
  - by apply (get_link_names_registry _ Hinit).
  - unfold get_parent_link_name, getitem.
    by rewrite (proj2 (Hiff root Hroot) eq_refl).
  - intros l Hl%(get_link_names_registry _ Hinit). by apply valid_below_root.
Qed.

Lemma valid_tree_root_witness :
  ∃ root,
    get_root two_link_tree = Ok root
    ∧ roots two_link_tree = [root]
    ∧ root ∈ get_link_names two_link_tree
    ∧ get_parent_link_name two_link_tree root = Raise (KeyError root)
    ∧ ∀ l, l ∈ get_link_names two_link_tree → below two_link_tree root l.
Proof. apply (valid_tree_root two_link_tree). valid_by_computation. Defined.

(** X6: in a valid tree [get_parent_link_name] returns the link from
    which a joint leads to the given link, and raises [KeyError] for a link
    to which no joint leads. *)
Theorem parent_link_name_iff_edge self l :
  valid_tree self →
  (∀ p, get_parent_link_name self l = Ok p ↔ edge self p l)
  ∧ ((∀ p, ¬ edge self p l) → get_parent_link_name self l = Raise (KeyError l)).
Proof.
  intros Hvalid. unfold get_parent_link_name, getitem. split.
  - intros p. split.
    + destruct (up.parent_map _ !! l) as [[k p']|] eqn:Hp; [|done]. intros [= <-].
      apply valid_parent_map_inv in Hp as (j & Hj & _ & Hpar & Hc); [|done].
      by exists j.
    + intros (j & Hj & <- & <-). by rewrite (valid_parent_map _ Hvalid j Hj).
  - intros Hnone. destruct (up.parent_map _ !! l) as [[k p']|] eqn:Hp; [|done].
    apply valid_parent_map_inv in Hp as (j & Hj & _ & Hpar & Hc); [|done].
    destruct (Hnone p'). by exists j.
Qed.

Lemma parent_link_name_iff_edge_witness :
  get_parent_link_name two_link_tree "arm_link" = Ok "base_link"
  ∧ get_parent_link_name two_link_tree "base_link" = Raise (KeyError "base_link").
Proof.
  destruct (parent_link_name_iff_edge two_link_tree "arm_link") as [H _];
    [valid_by_computation|].
  destruct (parent_link_name_iff_edge two_link_tree "base_link") as [_ H'];
    [valid_by_computation|].
  split.
  - apply H. exists (plain_joint "j1" "base_link" "arm_link" "revolute").
    split_and!; [by_computation|reflexivity..].
  - reflexivity.
Defined.

(** * Listings of a sub-tree *)

(** X7: for a joint of a valid tree,
    [get_sub_tree_link_names_with_collision] returns, once the fuel covers
    the sub-tree, the links below the joint for which [has_link_collision]
    answers [True] at the default thresholds, and no other. *)
Theorem sub_tree_link_names_with_collision self joint_name j :
  valid_tree self →
  up.joint_map (_urdf_robot self) !! joint_name = Some j →
  ∃ n names,
    (∀ fuel, (n ≤ fuel)%nat →
       get_sub_tree_link_names_with_collision fuel self joint_name = Some (Ok names))
    ∧ ∀ l, l ∈ names
        ↔ below self (up.child j) l
          ∧ has_link_collision self l volume_threshold_default surface_threshold_default
            = Ok true.
Proof.
  intros Hvalid Hj.
  pose proof (valid_initialized _ Hvalid) as Hinit.
  apply (joint_map_Some _ Hinit) in Hj as [Hj <-].
  pose proof (valid_ranked _ Hvalid) as Hranked.
  destruct (get_sub_tree_at_joint_eq _ _ _ Hranked j Hj) as (tl & tj & Hfuel & Htl & Htj).
  destruct (sub_tree_contents _ _ _ Hranked j tl tj Hj Htl Htj) as (_ & Hlinks & _).
  eexists. eexists. split.
  - intros fuel Hle.
    unfold get_sub_tree_link_names_with_collision, get_links_from_sub_tree.
    rewrite (Hfuel fuel Hle).
    rewrite (for_each_comprehension
               (λ k, has_link_collision self k volume_threshold_default
                       surface_threshold_default)); [reflexivity|].
    intros k Hk%Hlinks.
    apply (below_link_name _ _ _ Hranked j k Hj) in Hk.
    apply (link_map_is_Some _ Hinit) in Hk as [l Hl].
    by eapply has_link_collision_returns.
  - intros l. rewrite app_nil_l, list_elem_of_filter, Hlinks. tauto.
Qed.

Lemma sub_tree_link_names_with_collision_witness :
  ∃ n names,
    (∀ fuel, (n ≤ fuel)%nat →
       get_sub_tree_link_names_with_collision fuel two_link_tree "j1" = Some (Ok names))
    ∧ ∀ l, l ∈ names
        ↔ below two_link_tree "arm_link" l
          ∧ has_link_collision two_link_tree l volume_threshold_default
              surface_threshold_default = Ok true.
Proof.
  apply (sub_tree_link_names_with_collision two_link_tree "j1"
           (plain_joint "j1" "base_link" "arm_link" "revolute")).
  - valid_by_computation.
  - reflexivity.
Defined.

(** X8: a joint name that is no joint of the tree makes the sub-tree
    functions raise [KeyError]; [detach_sub_tree] then leaves the tree as
    it was. *)
Theorem unknown_joint_raises self joint_name fuel :
  joint_name ∉ get_joint_names self →
  get_sub_tree_at_joint (S fuel) self joint_name = Some (Raise (KeyError joint_name))
  ∧ get_links_from_sub_tree (S fuel) self joint_name
    = Some (Raise (KeyError joint_name))
  ∧ get_sub_tree_link_names_with_collision (S fuel) self joint_name
    = Some (Raise (KeyError joint_name))
  ∧ detach_sub_tree (S fuel) joint_name self = Some (Raise (KeyError joint_name), self).
Proof.
  intros Hk. apply get_urdf_joint_unknown in Hk.
  assert (get_sub_tree_at_joint (S fuel) self joint_name
          = Some (Raise (KeyError joint_name))) as H.
  { unfold get_sub_tree_at_joint. rewrite sub_tree_loop_cons. unfold sub_tree_step.
    unfold get_urdf_joint in Hk. by rewrite Hk. }
  unfold get_sub_tree_link_names_with_collision, get_links_from_sub_tree, detach_sub_tree.
  by rewrite H.
Qed.

Lemma unknown_joint_raises_witness :
  detach_sub_tree 1 "j9" two_link_tree = Some (Raise (KeyError "j9"), two_link_tree).
Proof. apply (unknown_joint_raises two_link_tree "j9" 0). by_computation. Defined.

(** * The sub-tree at a joint is a valid tree *)

Lemma sub_tree_step_members self joint joints tl tj joints' tl' tj' :
  sub_tree_step self joint joints tl tj = Ok (joints', tl', tj') →
  ∀ l, l ∈ tl' → l ∈ tl ∨ ∃ k, up.link_map (_urdf_robot self) !! k = Some l.
Proof.
  unfold sub_tree_step.
  destruct (getitem _ joint) as [j|]; [|done]. cbn [bind].
  destruct (match up.child_map _ !! up.child j with Some _ => _ | None => _ end)
    as [[joints2 tj2]|]; [|done]. cbn [bind].
  unfold get_urdf_link, getitem.
  destruct (up.link_map _ !! up.child j) as [ul|] eqn:Hul; [|done]. cbn [bind].
  intros [= <- <- <-] l [Hl| ->%list_elem_of_singleton]%elem_of_app; [by left|].
  right. by exists (up.child j).
Qed.

Lemma sub_tree_loop_members fuel self joints tl tj tl' tj' :
  sub_tree_loop fuel self joints tl tj = Some (Ok (tl', tj')) →
  ∀ l, l ∈ tl' → l ∈ tl ∨ ∃ k, up.link_map (_urdf_robot self) !! k = Some l.
Proof.
  revert joints tl tj. induction fuel as [|fuel IH]; intros joints tl tj.
  - destruct joints; [|done]. by intros [= <- <-]; left.
  - destruct joints as [|joint joints]; [by intros [= <- <-]; left|].
    rewrite sub_tree_loop_cons.
    destruct (sub_tree_step _ _ _ _ _) as [[[joints2 tl2] tj2]|] eqn:Hstep; [|done].
    intros Hloop l Hl. destruct (IH _ _ _ Hloop l Hl) as [Hl2|?]; [|by right].
    by eapply sub_tree_step_members.
Qed.

(** X9: the sub-tree extracted at a joint of a valid tree is itself a
    valid tree, named after the joint; its links and joints are links and
    joints of the tree, taken over as they are. *)
Theorem sub_tree_is_valid self joint_name j :
  valid_tree self →
  up.joint_map (_urdf_robot self) !! joint_name = Some j →
  ∃ n sub_tree,
    (∀ fuel, (n ≤ fuel)%nat →
       get_sub_tree_at_joint fuel self joint_name = Some (Ok sub_tree))
    ∧ valid_tree sub_tree
    ∧ get_name sub_tree = joint_name
    ∧ (∀ l, l ∈ up.links (_urdf_robot sub_tree) → l ∈ up.links (_urdf_robot self))
    ∧ (∀ k, k ∈ up.joints (_urdf_robot sub_tree) → k ∈ up.joints (_urdf_robot self)).
Proof.
  intros Hvalid Hj.
  pose proof (valid_initialized _ Hvalid) as Hinit.
  apply (joint_map_Some _ Hinit) in Hj as [Hj <-].
  pose proof (valid_ranked _ Hvalid) as Hranked.
  assert (NoDup (up.child <$> up.joints (_urdf_robot self))) as Hchild
    by by destruct Hvalid as (_ & _ & [_ ?] & _).
  destruct (valid_rank _ Hvalid j Hj) as [_ Hle].
  destruct (get_sub_tree_at_joint_eq _ _ _ Hranked j Hj) as (tl & tj & Hfuel & Htl & Htj).
  destruct (sub_tree_contents _ _ _ Hranked j tl tj Hj Htl Htj)
    as (Hroot & Hlinks & Hjoints).
  pose (sub := from_parts (up.joint_name j) tl tj).
  assert (initialized sub) as Hinit' by apply initialized_from_parts.
  assert (up.links (_urdf_robot sub) = tl) as Hls by apply from_parts_links.
  assert (up.joints (_urdf_robot sub) = tj) as Hjs by apply from_parts_joints.
  assert (∀ k, k ∈ tj ↔ k ∈ up.joints (_urdf_robot self)
                        ∧ below self (up.child j) (up.parent k)) as Htj'.
  { intros k. rewrite Htj. by apply (elem_of_joints_at _ _ _ Hranked). }
  assert (∀ l, l ∈ link_names sub ↔ below self (up.child j) l) as Hln.
  { intros l. rewrite <- (get_link_names_registry _ Hinit'). apply Hlinks. }
  assert (NoDup tj) as Htj_nd.
  { rewrite Htj. by apply (joints_under_NoDup _ _ _ Hranked). }
  assert (NoDup (link_names sub)) as Hln_nd.
  { unfold link_names. rewrite Hls, Htl. by apply (links_under_NoDup _ _ _ Hranked). }
  assert (∀ (f : up.Joint → string), NoDup (f <$> up.joints (_urdf_robot self)) →
            NoDup (f <$> tj)) as Hsub_nd.
  { intros f Hf. apply NoDup_fmap_2_strong; [|done].
    intros x y [Hx _]%Htj' [Hy _]%Htj' Hxy. by eapply (NoDup_fmap_elem_eq f). }
  eexists. exists sub.
  split_and!;
    [exact Hfuel|
    |unfold sub, get_name; rewrite from_parts_eq; apply robot_name_foldl_add_aggregate| |].
  - apply (ranked_valid sub (λ l, default 0 (depth (length (link_names self)) self l))
             (length (link_names self)) (up.child j)).
    + unfold ranked. rewrite Hjs. split_and!; [done| | |].
      * apply Hsub_nd, (valid_joint_names _ Hvalid).
      * intros k [Hk Hb]%Htj'. apply Hln. eapply rtc_r; [exact Hb|]. by exists k.
      * intros k [Hk _]%Htj'. by apply (valid_rank _ Hvalid).
    + apply NoDup_app. split_and!; [done| |].
      * intros l Hl%Hln. unfold joint_names. rewrite Hjs.
        intros (k & -> & [Hk _]%Htj')%list_elem_of_fmap.
        destruct Hvalid as (_ & Hnd & _). apply NoDup_app in Hnd as (_ & Hdisj & _).
        apply (Hdisj (up.joint_name k)).
        -- by apply (below_link_name _ _ _ Hranked j).
        -- by apply joint_name_elem.
      * unfold joint_names. rewrite Hjs. apply Hsub_nd, (valid_joint_names _ Hvalid).
    + rewrite Hjs. by apply Hsub_nd.
    + rewrite Hjs. intros k [Hk Hb]%Htj'. by apply Hln.
    + apply Hln, rtc_refl.
    + intros l Hl%Hln. split.
      * intros Hnone.
        apply rtc_inv_r in Hl as [?|(y & Hy & (k & Hk & Hp & Hc))]; [done|].
        exfalso. apply eq_None_not_Some in Hnone. apply Hnone.
        apply (parent_map_is_Some _ _ Hinit'). exists k. split; [|done].
        rewrite Hjs. apply Htj'. split; [done|]. by rewrite Hp.
      * intros ->. apply eq_None_not_Some. rewrite (parent_map_is_Some _ _ Hinit'), Hjs.
        intros (k & [Hk Hb]%Htj' & Hc).
        apply (below_rank _ _ _ Hranked) in Hb.
        destruct (valid_rank _ Hvalid k Hk) as [E _]. rewrite Hc in E. lia.
  - rewrite Hls. intros l Hl.
    specialize (Hfuel _ (Nat.le_refl _)). unfold get_sub_tree_at_joint in Hfuel.
    destruct (sub_tree_loop _ _ _ _ _) as [[[tl0 tj0]|]|] eqn:Hloop; try done.
    assert (from_parts (up.joint_name j) tl0 tj0 = sub) as Heq
      by (unfold sub; congruence).
    assert (tl0 = tl) as ->.
    { by rewrite <- (from_parts_links (up.joint_name j) tl0 tj0), Heq. }
    destruct (sub_tree_loop_members _ _ _ _ _ _ _ Hloop l Hl) as [[]%elem_of_nil|[k Hk]].
    by apply (link_map_Some _ Hinit) in Hk as [? _].
  - rewrite Hjs. by intros k [Hk _]%Htj'.
Qed.

Lemma sub_tree_is_valid_witness :
  ∃ n sub_tree,
    (∀ fuel, (n ≤ fuel)%nat →
       get_sub_tree_at_joint fuel three_link_tree "j1" = Some (Ok sub_tree))
    ∧ valid_tree sub_tree
    ∧ get_name sub_tree = "j1".
Proof.
  destruct (sub_tree_is_valid three_link_tree "j1"
              (plain_joint "j1" "base_link" "arm_link" "revolute"))
    as (n & sub_tree & Hfuel & Hvalid & Hname & _).
  - valid_by_computation.
  - reflexivity.
  - by exists n, sub_tree.
Defined.

(** * Detaching and the root *)

(** Detaching [j1] from a tree in which two links bear the name of its
    child link: the call returns; the link of that name which the name
    table holds and the joint are gone, the other link of that name stays
    and has no parent joint any more.  Two roots are left, [get_root]
    fails on the result, and the tree is not the one before the call. *)
Lemma detach_leaves_two_roots :
  get_root twin_link_tree = Ok "base_link"
  ∧ (∀ fuel, (1 ≤ fuel)%nat →
       detach_sub_tree fuel "j1" twin_link_tree = Some (Ok tt, twins_apart))
  ∧ twins_apart ≠ twin_link_tree
  ∧ get_urdf twins_apart ≠ get_urdf twin_link_tree
  ∧ link_names twins_apart = ["base_link"; "arm_link"]
  ∧ joint_names twins_apart = []
  ∧ roots twins_apart = ["base_link"; "arm_link"]
  ∧ get_root twins_apart
    = Raise (AssertionError "Multiple roots detected, invalid URDF.").
Proof.
  split_and!.
  - vm_compute. reflexivity.
  - intros fuel Hle. apply (detach_sub_tree_mono 1); [|exact Hle]. vm_compute. reflexivity.
  - intros H. apply (f_equal joint_names) in H. vm_compute in H. discriminate H.
  - intros H. apply (f_equal (λ doc, length (up.xml_elements doc))) in H.
    vm_compute in H. discriminate H.
  - vm_compute. reflexivity.
  - vm_compute. reflexivity.
  - vm_compute. reflexivity.
  - vm_compute. reflexivity.
Qed.

(** C3, as the code has it: no joint of a valid tree leads to its root,
    and the removal of none leaves zero or several roots.  The detach of
    any joint of a valid tree returns (given the fuel the sub-tree needs),
    changes the tree, and leaves the root the single root. *)
Theorem detach_leaves_single_root self joint_name j :
  valid_tree self →
  up.joint_map (_urdf_robot self) !! joint_name = Some j →
  ∃ root n self',
    get_root self = Ok root
    ∧ up.child j ≠ root
    ∧ (∀ fuel, (n ≤ fuel)%nat →
         detach_sub_tree fuel joint_name self = Some (Ok tt, self'))
    ∧ self' ≠ self
    ∧ roots self' = [root]
    ∧ get_root self' = Ok root.
Proof.
  intros Hvalid Hj.
  pose proof (valid_initialized _ Hvalid) as Hinit.
  pose proof (valid_ranked _ Hvalid) as Hranked.
  apply (joint_map_Some _ Hinit) in Hj as [Hj <-].
  destruct (valid_single_root _ Hvalid) as (root & _ & Hroot_in & Hroot_iff & Hroot).
  destruct (detach_sub_tree_eq _ _ _ Hranked (valid_link_names _ Hvalid) j Hj)
    as (n & sub_tree & Hfuel & _ & Hlinks & Hjoints).
  set (self' := detached self sub_tree (up.joint_name j)).
  assert (initialized self') as Hinit' by apply initialized_with_robot.
  assert (∀ l, l ∈ link_names self' ↔ l ∈ link_names self ∧ ¬ below self (up.child j) l)
    as Hlinks'.
  { intros l. unfold link_names. subst self'. rewrite detached_links, !list_elem_of_fmap.
    split.
    - intros (L & -> & [Hk HL]%list_elem_of_filter). rewrite Hlinks in Hk. eauto.
    - intros [(L & -> & HL) Hk]. exists L. split; [done|].
      apply list_elem_of_filter. by rewrite Hlinks. }
  assert (∀ j', j' ∈ up.joints (_urdf_robot self')
                ↔ j' ∈ up.joints (_urdf_robot self) ∧ j' ≠ j
                  ∧ ¬ below self (up.child j) (up.parent j')) as Hjs'.
  { intros j'. subst self'. rewrite detached_joints, list_elem_of_filter, not_elem_of_cons.
    rewrite Hjoints. split.
    - intros [[Hne Hnb] Hin]. split_and!; [done|congruence|].
      intros Hb. apply Hnb. by exists j'.
    - intros (Hin & Hne & Hnb). split_and!; [|intros (jt & Hjt & Hname & Hb)|done].
      + intros Hname. apply Hne.
        by apply (NoDup_fmap_elem_eq up.joint_name _ _ _ (valid_joint_names _ Hvalid)).
      + apply Hnb.
        by rewrite <- (NoDup_fmap_elem_eq up.joint_name _ _ _
                         (valid_joint_names _ Hvalid) Hjt Hin Hname). }
  assert (up.parent_map (_urdf_robot self) !! root = None) as Hnone
    by by apply Hroot_iff.
  assert (up.child j ≠ root) as Hchild_root.
  { intros Heq. rewrite <- Heq, valid_parent_map in Hnone; done. }
  assert (¬ below self (up.child j) root) as Hnb.
  { intros [Heq|(l' & _ & (j' & Hj' & _ & Heq))]%rtc_inv_r;
      rewrite <- Heq, valid_parent_map in Hnone; done. }
  assert (∀ l, l ∈ link_names self' →
             up.parent_map (_urdf_robot self') !! l = None ↔ l = root) as Hroot_iff'.
  { intros l [Hl Hnbl]%Hlinks'. split.
    - intros Hn. destruct (decide (l = root)) as [|Hne]; [done|]. exfalso.
      apply eq_None_not_Some in Hn. apply Hn.
      destruct (up.parent_map (_urdf_robot self) !! l) as [[k p]|] eqn:Hp;
        [|by apply Hroot_iff in Hp].
      apply valid_parent_map_inv in Hp as (j' & Hj' & _ & _ & Hc); [|done].
      apply (parent_map_is_Some _ _ Hinit'). exists j'. split; [|done].
      apply Hjs'. split_and!; [done| |].
      + intros ->. apply Hnbl. rewrite <- Hc. apply rtc_refl.
      + intros Hb. apply Hnbl. eapply rtc_r; [exact Hb|]. by exists j'.
    - intros ->. apply eq_None_not_Some. rewrite (parent_map_is_Some _ _ Hinit').
      intros (j' & [Hj' _]%Hjs' & Hc). rewrite <- Hc, valid_parent_map in Hnone; done. }
  assert (root ∈ link_names self') as Hroot_in' by by apply Hlinks'.
  exists root, n, self'. split_and!; [done|done|intros; by apply Hfuel| | |].
  - intros Heq. assert (j ∈ up.joints (_urdf_robot self')) as Hin by by rewrite Heq.
    apply Hjs' in Hin as (_ & Hne & _). done.
  - unfold roots. apply filter_single; [|done|done].
    unfold link_names. subst self'. rewrite detached_links.
    apply NoDup_fmap_filter, (valid_link_names _ Hvalid).
  - apply get_root_found.
    + by apply (get_link_names_registry _ Hinit').
    + by apply Hroot_iff'.
    + intros l Hl%(get_link_names_registry _ Hinit') Hne.
      apply not_eq_None_Some. intros Hn. by apply Hne, Hroot_iff'.
Qed.

Lemma detach_leaves_single_root_witness :
  ∃ n tree',
    (∀ fuel, (n ≤ fuel)%nat →
       detach_sub_tree fuel "j1" three_link_tree = Some (Ok tt, tree'))
    ∧ tree' ≠ three_link_tree
    ∧ roots tree' = ["base_link"]
    ∧ get_root tree' = Ok "base_link".
Proof.
  destruct (detach_leaves_single_root three_link_tree "j1"
              (plain_joint "j1" "base_link" "arm_link" "revolute"))
    as (root & n & tree' & Hroot & _ & Hfuel & Hne & Hroots & Hroot').
  - valid_by_computation.
  - reflexivity.
  - assert (root = "base_link") as -> by (vm_compute in Hroot; congruence).
    exists n, tree'. split; [exact Hfuel|]. split; [exact Hne|].
    split; [exact Hroots|exact Hroot'].
Defined.

(** * Detaching keeps the tree valid *)

(** X10: detaching a joint of a valid tree does not fail (given the fuel
    the sub-tree needs) and leaves a valid tree with the same root: the
    joint and the links and joints below it are gone, everything else
    stays.  [original_urdf] is not updated. *)
Theorem detach_keeps_tree_valid self joint_name j :
  valid_tree self →
  up.joint_map (_urdf_robot self) !! joint_name = Some j →
  ∃ n self',
    (∀ fuel, (n ≤ fuel)%nat →
       detach_sub_tree fuel joint_name self = Some (Ok tt, self'))
    ∧ valid_tree self'
    ∧ get_root self' = get_root self
    ∧ (∀ l, l ∈ link_names self' ↔ l ∈ link_names self ∧ ¬ below self (up.child j) l)
    ∧ (∀ k, k ∈ joint_names self'
            ↔ k ∈ joint_names self ∧ k ≠ joint_name
              ∧ ¬ joint_below self (up.child j) k)
    ∧ original_urdf self' = original_urdf self.
Proof.
  intros Hvalid Hj.
  pose proof (valid_initialized _ Hvalid) as Hinit.
  pose proof (valid_ranked _ Hvalid) as Hranked.
  apply (joint_map_Some _ Hinit) in Hj as [Hj <-].
  destruct (valid_single_root _ Hvalid) as (root & _ & Hroot_in & Hroot_iff & Hroot).
  assert (NoDup (up.child <$> up.joints (_urdf_robot self))) as Hchild
    by by destruct Hvalid as (_ & _ & [_ ?] & _).
  destruct (detach_sub_tree_eq _ _ _ Hranked (valid_link_names _ Hvalid) j Hj)
    as (n & sub_tree & Hfuel & _ & Hlinks & Hjoints).
  set (self' := detached self sub_tree (up.joint_name j)).
  assert (initialized self') as Hinit' by apply initialized_with_robot.
  assert (∀ l, l ∈ link_names self' ↔ l ∈ link_names self ∧ ¬ below self (up.child j) l)
    as Hlinks'.
  { intros l. unfold link_names. subst self'. rewrite detached_links, !list_elem_of_fmap.
    split.
    - intros (L & -> & [Hk HL]%list_elem_of_filter). rewrite Hlinks in Hk. eauto.
    - intros [(L & -> & HL) Hk]. exists L. split; [done|].
      apply list_elem_of_filter. by rewrite Hlinks. }
  assert (∀ j', j' ∈ up.joints (_urdf_robot self')
                ↔ j' ∈ up.joints (_urdf_robot self) ∧ j' ≠ j
                  ∧ ¬ below self (up.child j) (up.parent j')) as Hjs'.
  { intros j'. subst self'. rewrite detached_joints, list_elem_of_filter, not_elem_of_cons.
    rewrite Hjoints. split.
    - intros [[Hne Hnb] Hin]. split_and!; [done|congruence|].
      intros Hb. apply Hnb. by exists j'.
    - intros (Hin & Hne & Hnb). split_and!; [|intros (jt & Hjt & Hname & Hb)|done].
      + intros Hname. apply Hne.
        by apply (NoDup_fmap_elem_eq up.joint_name _ _ _ (valid_joint_names _ Hvalid)).
      + apply Hnb.
        by rewrite <- (NoDup_fmap_elem_eq up.joint_name _ _ _
                         (valid_joint_names _ Hvalid) Hjt Hin Hname). }
  assert (∀ k, k ∈ joint_names self'
            ↔ k ∈ joint_names self ∧ k ≠ up.joint_name j
              ∧ ¬ joint_below self (up.child j) k) as Hjn'.
  { intros k. unfold joint_names at 1. rewrite list_elem_of_fmap. split.
    + intros (j' & -> & (Hin & Hne & Hnb)%Hjs'). split_and!.
      * by apply list_elem_of_fmap_2.
      * intros Hname. apply Hne.
        by apply (NoDup_fmap_elem_eq up.joint_name _ _ _ (valid_joint_names _ Hvalid)).
      * intros (jt & Hjt & Hname & Hb). apply Hnb.
        by rewrite <- (NoDup_fmap_elem_eq up.joint_name _ _ _
                         (valid_joint_names _ Hvalid) Hjt Hin Hname).
    + intros ((j' & -> & Hin)%list_elem_of_fmap & Hne & Hnb). exists j'. split; [done|].
      apply Hjs'. split_and!; [done|congruence|]. intros Hb. apply Hnb. by exists j'. }
  assert (up.parent_map (_urdf_robot self) !! root = None) as Hnone
    by by apply Hroot_iff.
  assert (¬ below self (up.child j) root) as Hnb.
  { intros [Heq|(l' & _ & (j' & Hj' & _ & Heq))]%rtc_inv_r;
      rewrite <- Heq, valid_parent_map in Hnone; done. }
  assert (∀ j', j' ∈ up.joints (_urdf_robot self') →
                ¬ below self (up.child j) (up.child j')) as Hchild'.
  { intros j' (Hin & Hne & Hnbp)%Hjs' [Heq|(y & Hy & Hedge)]%rtc_inv_r.
    - apply Hne. symmetry.
      by apply (NoDup_fmap_elem_eq up.child _ _ _ Hchild Hj Hin).
    - apply Hnbp.
      rewrite <- (edge_parent_unique self Hchild y (up.parent j') (up.child j')); [done..|].
      by exists j'. }
  assert (∀ l, l ∈ link_names self' →
             up.parent_map (_urdf_robot self') !! l = None ↔ l = root) as Hroot_iff'.
  { intros l [Hl Hnbl]%Hlinks'. split.
    - intros Hn. destruct (decide (l = root)) as [|Hne]; [done|]. exfalso.
      apply eq_None_not_Some in Hn. apply Hn.
      destruct (up.parent_map (_urdf_robot self) !! l) as [[k p]|] eqn:Hp;
        [|by apply Hroot_iff in Hp].
      apply valid_parent_map_inv in Hp as (j' & Hj' & _ & _ & Hc); [|done].
      apply (parent_map_is_Some _ _ Hinit'). exists j'. split; [|done].
      apply Hjs'. split_and!; [done| |].
      + intros ->. apply Hnbl. rewrite <- Hc. apply rtc_refl.
      + intros Hb. apply Hnbl. eapply rtc_r; [exact Hb|]. by exists j'.
    - intros ->. apply eq_None_not_Some. rewrite (parent_map_is_Some _ _ Hinit').
      intros (j' & [Hj' _]%Hjs' & Hc). rewrite <- Hc, valid_parent_map in Hnone; done. }
  assert (root ∈ link_names self') as Hroot_in' by by apply Hlinks'.
  exists n, self'. split_and!; [intros; by apply Hfuel| | |done|done|done].
  - apply (ranked_valid self' (λ l, default 0 (depth (length (link_names self)) self l))
             (length (link_names self)) root); [|..|done|done].
    + unfold ranked. split_and!; [done| | |].
      * subst self'. rewrite detached_joints.
        apply NoDup_fmap_filter, (valid_joint_names _ Hvalid).
      * intros j' Hj'. apply Hlinks'. split; [|by apply Hchild'].
        apply (valid_child_link _ Hvalid). by apply Hjs'.
      * intros j' [Hin _]%Hjs'. by apply (valid_rank _ Hvalid).
    + apply NoDup_app. split_and!.
      * unfold link_names. subst self'. rewrite detached_links.
        apply NoDup_fmap_filter, (valid_link_names _ Hvalid).
      * intros x [Hx _]%Hlinks' [Hx' _]%Hjn'.
        destruct Hvalid as (_ & Hnd & _). apply NoDup_app in Hnd as (_ & Hdisj & _).
        by apply (Hdisj x).
      * unfold joint_names. subst self'. rewrite detached_joints.
        apply NoDup_fmap_filter, (valid_joint_names _ Hvalid).
    + subst self'. rewrite detached_joints. by apply NoDup_fmap_filter.
    + intros j' Hj'. apply Hlinks'. apply Hjs' in Hj' as (Hin & _ & Hnbp).
      split; [|done]. by apply (valid_parent_link _ Hvalid).
  - rewrite Hroot. apply get_root_found.
    + by apply (get_link_names_registry _ Hinit').
    + by apply Hroot_iff'.
    + intros l Hl%(get_link_names_registry _ Hinit') Hne.
      apply not_eq_None_Some. intros Hn. by apply Hne, Hroot_iff'.
Qed.

Lemma detach_keeps_tree_valid_witness :
  ∃ n tree',
    (∀ fuel, (n ≤ fuel)%nat →
       detach_sub_tree fuel "j2" three_link_tree = Some (Ok tt, tree'))
    ∧ valid_tree tree'
    ∧ get_root tree' = get_root three_link_tree.
Proof.
  destruct (detach_keeps_tree_valid three_link_tree "j2"
              (plain_joint "j2" "arm_link" "hand_link" "fixed"))
    as (n & tree' & Hfuel & Hvalid & Hroot & _).
  - valid_by_computation.
  - reflexivity.
  - exists n, tree'. split; [exact Hfuel|]. split; [exact Hvalid|exact Hroot].
Defined.

(** * Attaching *)

Section attach_more.

Variable euler_from_quaternion : list float → list float.

(** What a successful attach leaves. *)
Lemma attach_result self urdf_object parent_link pose self' :
  attach_urdf_object euler_from_quaternion urdf_object parent_link pose self
  = (Ok tt, self') →
  ∃ root,
    get_root urdf_object = Ok root
    ∧ up.links (_urdf_robot self')
      = up.links (_urdf_robot self) ++ up.links (_urdf_robot urdf_object)
    ∧ up.joints (_urdf_robot self')
      = up.joints (_urdf_robot self)
        ++ weld euler_from_quaternion urdf_object root parent_link pose
           :: up.joints (_urdf_robot urdf_object)
    ∧ initialized self'
    ∧ get_name self' = get_name self
    ∧ original_urdf self' = original_urdf self.
Proof.
  rewrite attach_urdf_object_eq. repeat case_decide; try done.
  destruct (get_root urdf_object) as [root|]; [|done]. intros [= <-].
  exists root. split_and!; [done| | | | |done].
  - apply attached_links.
  - apply attached_joints.
  - apply initialized_with_robot.
  - unfold get_name, attached, up.from_xml_string. cbn [_urdf_robot with_robot].
    by rewrite robot_name_foldl_add_aggregate.
Qed.

(** X11: when [attach_urdf_object] returns.  It returns exactly when the
    name of the other tree is no link or joint name of the tree, the
    parent link is a link of the tree and the other tree has a single
    root; the names inside the other tree are not looked at.  The tree
    then holds its aggregates followed by the new fixed joint, the joints
    and the links of the other tree; its name and [original_urdf] are
    as before. *)
Theorem attach_succeeds_iff self urdf_object parent_link pose :
  ((∃ self', attach_urdf_object euler_from_quaternion urdf_object parent_link pose self
             = (Ok tt, self'))
   ↔ (get_name urdf_object ∉ get_link_names self)
     ∧ (get_name urdf_object ∉ get_joint_names self)
     ∧ parent_link ∈ get_link_names self
     ∧ ∃ root, get_root urdf_object = Ok root)
  ∧ ∀ self',
      attach_urdf_object euler_from_quaternion urdf_object parent_link pose self
      = (Ok tt, self') →
      ∃ root,
        get_root urdf_object = Ok root
        ∧ up.links (_urdf_robot self')
          = up.links (_urdf_robot self) ++ up.links (_urdf_robot urdf_object)
        ∧ up.joints (_urdf_robot self')
          = up.joints (_urdf_robot self)
            ++ weld euler_from_quaternion urdf_object root parent_link pose
               :: up.joints (_urdf_robot urdf_object)
        ∧ initialized self'
        ∧ get_name self' = get_name self
        ∧ original_urdf self' = original_urdf self.
Proof.
  split; [|apply attach_result]. rewrite attach_urdf_object_eq. split.
  - intros [self' H]. repeat case_decide; try done.
    destruct (get_root urdf_object) as [root|]; [|done].
    split_and!; [done|done| |by exists root].
    by destruct (decide (parent_link ∈ get_link_names self)).
  - intros (Hl & Hj & Hp & root & Hroot).
    rewrite !decide_False, Hroot by tauto. eauto.
Qed.

(** X12: attaching keeps a tree valid.  When the two trees are valid, no
    name of the other tree is a name of the tree, and the name of the
    other tree (which the new joint takes) is no link or joint name of the
    other tree either, a successful attach leaves a valid tree with the
    root it had, the links and joints of both trees, and the root of the
    other tree hanging below the parent link. *)
Theorem attach_keeps_tree_valid self other parent_link pose self' :
  valid_tree self →
  valid_tree other →
  ¬ name_collision self other →
  get_name other ∉ link_names other →
  get_name other ∉ joint_names other →
  attach_urdf_object euler_from_quaternion other parent_link pose self = (Ok tt, self') →
  valid_tree self'
  ∧ get_root self' = get_root self
  ∧ link_names self' = link_names self ++ link_names other
  ∧ joint_names self' = joint_names self ++ get_name other :: joint_names other
  ∧ ∃ root, get_root other = Ok root
            ∧ get_parent_link_name self' root = Ok parent_link.
Proof.
  intros Hself Hother Hdisjoint Hname_link Hname_joint. rewrite attach_urdf_object_eq.
  pose proof (valid_initialized _ Hself) as Hinit.
  case_decide as Hlink; [done|]. case_decide as Hjoint; [done|].
  case_decide as Hparent; [done|].
  destruct (get_root other) as [root|] eqn:Hroot; [|done]. intros [= <-].
  rewrite (get_link_names_registry _ Hinit) in Hlink.
  rewrite (get_joint_names_registry _ Hinit) in Hjoint.
  rewrite (get_link_names_registry _ Hinit) in Hparent.
  set (M := attached euler_from_quaternion self other root parent_link pose).
  set (W := weld euler_from_quaternion other root parent_link pose).
  pose proof (attached_ranked euler_from_quaternion self other parent_link root pose
                Hself Hother Hdisjoint Hjoint Hname_joint Hparent Hroot) as Hranked.
  fold M in Hranked.
  assert (initialized M) as HinitM by apply initialized_with_robot.
  assert (link_names M = link_names self ++ link_names other) as Hln
    by apply attached_link_names.
  assert (up.joints (_urdf_robot M)
          = up.joints (_urdf_robot self) ++ W :: up.joints (_urdf_robot other)) as Hjs
    by apply attached_joints.
  assert (joint_names M = joint_names self ++ get_name other :: joint_names other) as Hjn.
  { unfold joint_names. by rewrite Hjs, fmap_app. }
  destruct (valid_single_root _ Hself) as (root_s & _ & Hroot_in & Hroot_iff & Hroot_s).
  pose proof (root_link_name _ _ Hother Hroot) as Hroot_o.
  apply get_root_inv in Hroot as Hroot_inv. destruct Hroot_inv as (_ & Hroot_none & Hothers).
  assert (∀ x, x ∈ link_names other → x ∉ link_names self) as Hll.
  { intros x Ho Hs. apply Hdisjoint. exists x. tauto. }
  assert (∀ x, x ∈ link_names other → x ∉ joint_names self) as Hlj.
  { intros x Ho Hs. apply Hdisjoint. exists x. tauto. }
  assert (∀ x, x ∈ joint_names other → x ∉ link_names self) as Hjl.
  { intros x Ho Hs. apply Hdisjoint. exists x. tauto. }
  assert (∀ j, j ∈ up.joints (_urdf_robot M) ↔
               j ∈ up.joints (_urdf_robot self) ∨ j = W
               ∨ j ∈ up.joints (_urdf_robot other)) as Hcases.
  { intros j. rewrite Hjs, elem_of_app, elem_of_cons. tauto. }
  assert (NoDup (up.child <$> up.joints (_urdf_robot M))) as Hchild.
  { rewrite Hjs, fmap_app, fmap_cons. apply NoDup_app. split_and!.
    - by destruct Hself as (_ & _ & [_ ?] & _).
    - intros x (j & -> & Hj)%list_elem_of_fmap Hx.
      apply (valid_child_link _ Hself) in Hj.
      apply elem_of_cons in Hx as [Hx|(j' & Hx & Hj')%list_elem_of_fmap].
      + apply (Hll root); [done|]. change root with (up.child W). by rewrite <- Hx.
      + apply (valid_child_link _ Hother) in Hj'. apply (Hll (up.child j')); congruence.
    - apply NoDup_cons. split; [|by destruct Hother as (_ & _ & [_ ?] & _)].
      intros (j & Hc & Hj)%list_elem_of_fmap.
      change (up.child W) with root in Hc.
      rewrite Hc, (valid_parent_map _ Hother j Hj) in Hroot_none. done. }
  assert (∀ l, l ∈ link_names M →
             up.parent_map (_urdf_robot M) !! l = None ↔ l = root_s) as Hroot_iffM.
  { intros l Hl. rewrite Hln, elem_of_app in Hl.
    rewrite eq_None_not_Some, (parent_map_is_Some _ _ HinitM). split.
    - intros Hnone. destruct Hl as [Hl|Hl].
      + apply Hroot_iff; [done|]. apply eq_None_not_Some.
        rewrite (parent_map_is_Some _ _ Hinit). intros (j & Hj & Hc).
        apply Hnone. exists j. split; [|done]. apply Hcases. by left.
      + exfalso. apply Hnone. destruct (decide (l = root)) as [->|Hne].
        * exists W. split; [|done]. apply Hcases. right. by left.
        * destruct (Hothers l) as [[k p] Hp]; [|done|].
          { by apply (get_link_names_registry _ (valid_initialized _ Hother)). }
          apply valid_parent_map_inv in Hp as (j & Hj & _ & _ & Hc); [|done].
          exists j. split; [|done]. apply Hcases. right. by right.
    - intros -> (j & [Hj|[->|Hj]]%Hcases & Hc).
      + pose proof (proj2 (Hroot_iff root_s Hroot_in) eq_refl) as Hn.
        rewrite <- Hc, (valid_parent_map _ Hself j Hj) in Hn. done.
      + change (up.child W) with root in Hc. apply (Hll root); [done|]. by rewrite Hc.
      + apply (valid_child_link _ Hother) in Hj. apply (Hll (up.child j)); [done|].
        by rewrite Hc. }
  assert (valid_tree M) as HvalidM.
  { eapply (ranked_valid M _ _ root_s); [exact Hranked|..|exact Hroot_iffM].
    - rewrite Hln, Hjn. apply NoDup_app. split_and!.
      + rewrite <- Hln.
        by apply (attached_link_names_NoDup euler_from_quaternion self other parent_link
                    root pose).
      + destruct Hself as (_ & Hs & _). apply NoDup_app in Hs as (_ & Hs & _).
        destruct Hother as (_ & Ho & _). apply NoDup_app in Ho as (_ & Ho & _).
        intros x [Hx|Hx]%elem_of_app [Hx'|[->|Hx']%elem_of_cons]%elem_of_app.
        * by apply (Hs x).
        * done.
        * by apply (Hjl x).
        * by apply (Hlj x).
        * done.
        * by apply (Ho x).
      + rewrite <- Hjn. by destruct Hranked as (_ & ? & _).
    - done.
    - intros j [Hj|[->|Hj]]%Hcases; rewrite Hln, elem_of_app.
      + left. by apply (valid_parent_link _ Hself).
      + by left.
      + right. by apply (valid_parent_link _ Hother).
    - rewrite Hln, elem_of_app. by left. }
  split_and!; [done| |done|done|].
  - rewrite Hroot_s. apply get_root_found.
    + apply (get_link_names_registry _ HinitM). rewrite Hln, elem_of_app. by left.
    + apply Hroot_iffM; [|done]. rewrite Hln, elem_of_app. by left.
    + intros l Hl%(get_link_names_registry _ HinitM) Hne.
      apply not_eq_None_Some. intros Hn. by apply Hne, Hroot_iffM.
  - exists root. split; [done|]. unfold get_parent_link_name, getitem.
    assert (W ∈ up.joints (_urdf_robot M)) as HW by (apply Hcases; right; by left).
    pose proof (valid_parent_map _ HvalidM W HW) as Hp.
    change (up.child W) with root in Hp. by rewrite Hp.
Qed.

(** X27: what was attached is found again.  When the tree and the other
    tree are valid and have no name in common, and no joint of the other
    tree bears the name of the other tree itself (the name the new joint
    takes), then after a successful attach the sub-tree at the joint named
    after the other tree has the root, the link names and the joint names
    of the other tree.  (With a joint named like the other tree, the
    joint table holds that joint under the name, not the new one.) *)
Theorem attached_sub_tree self other parent_link pose self' :
  valid_tree self →
  valid_tree other →
  ¬ name_collision self other →
  get_name other ∉ joint_names other →
  attach_urdf_object euler_from_quaternion other parent_link pose self = (Ok tt, self') →
  ∃ n sub_tree,
    (∀ fuel, (n ≤ fuel)%nat →
       get_sub_tree_at_joint fuel self' (get_name other) = Some (Ok sub_tree))
    ∧ get_root sub_tree = get_root other
    ∧ (∀ l, l ∈ get_link_names sub_tree ↔ l ∈ get_link_names other)
    ∧ (∀ k, k ∈ get_joint_names sub_tree ↔ k ∈ get_joint_names other).
Proof.
  intros Hself Hother Hdisjoint Hname_joint. rewrite attach_urdf_object_eq.
  pose proof (valid_initialized _ Hself) as Hinit.
  pose proof (valid_initialized _ Hother) as Hinit_o.
  case_decide as Hlink; [done|]. case_decide as Hjoint; [done|].
  case_decide as Hparent; [done|].
  destruct (get_root other) as [root|] eqn:Hroot; [|done]. intros [= <-].
  rewrite (get_joint_names_registry _ Hinit) in Hjoint.
  rewrite (get_link_names_registry _ Hinit) in Hparent.
  set (M := attached euler_from_quaternion self other root parent_link pose).
  set (W := weld euler_from_quaternion other root parent_link pose).
  pose proof (attached_ranked euler_from_quaternion self other parent_link root pose
                Hself Hother Hdisjoint Hjoint Hname_joint Hparent Hroot) as Hranked.
  assert (W ∈ up.joints (_urdf_robot M)) as HW by apply weld_attached.
  assert (∀ l, below M root l ↔ l ∈ link_names other) as Hbelow.
  { by apply attached_below_root. }
  destruct (get_sub_tree_at_joint_eq _ _ _ Hranked W HW) as (tl & tj & Hfuel & Htl & Htj).
  destruct (sub_tree_contents _ _ _ Hranked W tl tj HW Htl Htj)
    as (Hsub_root & Hlinks & Hjoints).
  eexists. exists (from_parts (up.joint_name W) tl tj).
  split_and!; [exact Hfuel|exact Hsub_root| |].
  - intros l. rewrite Hlinks, (get_link_names_registry _ Hinit_o). apply Hbelow.
  - intros k. rewrite Hjoints, (get_joint_names_registry _ Hinit_o).
    unfold joint_below. change (up.child W) with root. split.
    + intros (jt & Hjt & <- & Hb%Hbelow).
      apply (attached_joint_cases euler_from_quaternion) in Hjt as [Hjt|[->|Hjt]].
      * exfalso. apply Hdisjoint. exists (up.parent jt). split; [by left|]. left.
        by apply (valid_parent_link _ Hself).
      * exfalso. apply Hdisjoint. exists parent_link. split; by left.
      * by apply joint_name_elem.
    + intros (jt & -> & Hjt)%list_elem_of_fmap. exists jt. split_and!; [|done|].
      * apply (attached_joint_cases euler_from_quaternion). right. by right.
      * apply Hbelow. by apply (valid_parent_link _ Hother).
Qed.

End attach_more.

Lemma attach_succeeds_iff_witness :
  ∃ self', attach_urdf_object no_rotation tool_object "hand_link" origin_pose
             three_link_tree = (Ok tt, self').
Proof.
  apply (attach_succeeds_iff no_rotation three_link_tree tool_object "hand_link"
           origin_pose).
  split_and!; [by_computation|by_computation|by_computation|].
  exists "tool_link". vm_compute. reflexivity.
Defined.

Lemma attach_keeps_tree_valid_witness :
  valid_tree (snd (attach_urdf_object no_rotation tool_object "hand_link" origin_pose
                     three_link_tree)).
Proof.
  apply (attach_keeps_tree_valid no_rotation three_link_tree tool_object "hand_link"
           origin_pose).
  - valid_by_computation.
  - valid_by_computation.
  - intros (k & Ho & Hs). revert Ho Hs.
    change (link_names tool_object) with ["tool_link"].
    change (joint_names tool_object) with (@nil string).
    change (link_names three_link_tree) with ["base_link"; "arm_link"; "hand_link"].
    change (joint_names three_link_tree) with ["j1"; "j2"].
    rewrite !elem_of_cons, !elem_of_nil. intros [[->|[]]|[]] Hs.
    decompose [or] Hs; done.
  - by_computation.
  - by_computation.
  - vm_compute. reflexivity.
Defined.

Lemma attached_sub_tree_witness :
  ∃ n sub_tree,
    (∀ fuel, (n ≤ fuel)%nat →
       get_sub_tree_at_joint fuel
         (snd (attach_urdf_object no_rotation tool_object "hand_link" origin_pose
                 three_link_tree))
         "tool" = Some (Ok sub_tree))
    ∧ get_root sub_tree = Ok "tool_link".
Proof.
  destruct (attached_sub_tree no_rotation three_link_tree tool_object "hand_link"
              origin_pose
              (snd (attach_urdf_object no_rotation tool_object "hand_link" origin_pose
                      three_link_tree)))
    as (n & sub_tree & Hfuel & Hroot & _).
  - valid_by_computation.
  - valid_by_computation.
  - intros (k & Ho & Hs). revert Ho Hs.
    change (link_names tool_object) with ["tool_link"].
    change (joint_names tool_object) with (@nil string).
    change (link_names three_link_tree) with ["base_link"; "arm_link"; "hand_link"].
    change (joint_names three_link_tree) with ["j1"; "j2"].
    rewrite !elem_of_cons, !elem_of_nil. intros [[->|[]]|[]] Hs.
    decompose [or] Hs; done.
  - by_computation.
  - vm_compute. reflexivity.
  - exists n, sub_tree. split; [exact Hfuel|exact Hroot].
Defined.

(** * Bodies *)

Lemma single_link_root l : get_root (single_link l) = Ok (up.link_name l).
Proof.
  unfold get_root, up.get_root, single_link, __init__, hacky_urdf_parser_fix,
    up.from_xml_string.
  cbn [_urdf_robot up.xml_name up.xml_elements foldl up.add_aggregate up.add_link
       up.new_Robot up.link_map up.parent_map].
  rewrite keys_singleton. cbn [for_each bind].
  rewrite decide_False; [done|]. rewrite lookup_empty. by intros [? ?].
Qed.

Lemma from_world_body_single world_body urdf_object :
  msg.body_type world_body ≠ msg.URDF_BODY →
  from_world_body world_body = Ok urdf_object →
  ∃ geometry,
    urdf_object = single_link (body_link (msg.name world_body) geometry)
    ∧ get_name urdf_object = msg.name world_body
    ∧ get_root urdf_object = Ok (msg.name world_body)
    ∧ up.links (_urdf_robot urdf_object) = [body_link (msg.name world_body) geometry]
    ∧ up.joints (_urdf_robot urdf_object) = [].
Proof.
  intros Hnot_urdf. unfold from_world_body.
  case_decide as Htype; [|by case_decide].
  destruct (if decide (msg.shape_type (msg.shape world_body) = msg.BOX) then _ else _)
    as [call|] eqn:Hcall; [|done]. cbn [bind].
  destruct (read_geometry call) as [geometry|] eqn:Hread; [|done]. cbn [bind].
  intros [= <-]. exists geometry. fold (body_link (msg.name world_body) geometry).
  rewrite from_parts_single.
  split_and!; [done|done|apply single_link_root|done|done].
Qed.

(** X13: what [from_world_body] builds from a primitive or mesh body: a
    tree named after the body, of one link named after the body and no
    joint, whose collision geometry is its visual geometry.  A primitive
    body succeeds only as a box, a sphere or a cylinder, never with mesh
    geometry. *)
Theorem world_body_single_link world_body urdf_object :
  msg.body_type world_body ≠ msg.URDF_BODY →
  from_world_body world_body = Ok urdf_object →
  ∃ geometry,
    urdf_object = single_link (body_link (msg.name world_body) geometry)
    ∧ get_name urdf_object = msg.name world_body
    ∧ get_root urdf_object = Ok (msg.name world_body)
    ∧ up.links (_urdf_robot urdf_object) = [body_link (msg.name world_body) geometry]
    ∧ up.joints (_urdf_robot urdf_object) = []
    ∧ (msg.body_type world_body = msg.PRIMITIVE_BODY →
       msg.shape_type (msg.shape world_body) ∈ [msg.BOX; msg.SPHERE; msg.CYLINDER]
       ∧ up.isinstance_Mesh geometry = false).
Proof.
  intros Hnot_urdf Hbody.
  destruct (from_world_body_single _ _ Hnot_urdf Hbody)
    as (geometry & Heq & Hname & Hroot & Hlinks & Hjoints).
  exists geometry. split_and!; [done..|].
  intros Hprim. revert Hbody. unfold from_world_body.
  case_decide as Htype; [|by case_decide].
  destruct (if decide (msg.shape_type (msg.shape world_body) = msg.BOX) then _ else _)
    as [call|] eqn:Hcall; [|done]. cbn [bind].
  destruct (read_geometry call) as [geometry'|] eqn:Hread; [|done]. cbn [bind].
  fold (body_link (msg.name world_body) geometry'). rewrite from_parts_single, Heq.
  intros Hg. assert (geometry' = geometry) as ->.
  { assert (up.links (_urdf_robot (single_link (body_link (msg.name world_body) geometry')))
            = up.links (_urdf_robot (single_link (body_link (msg.name world_body) geometry))))
      as Hl by congruence.
    by injection Hl. }
  clear Hg. revert Hcall.
  repeat case_decide; try done.
  - intros [= <-]. split; [rewrite !elem_of_cons; by eauto|]. revert Hread.
    destruct (msg.dimensions _) as [|a [|b [|c [|]]]]; try done. by intros [= <-].
  - destruct (msg.dimensions _); [done|]. intros [= <-].
    split; [rewrite !elem_of_cons; by eauto|]. by injection Hread as <-.
  - intros [= <-]. discriminate Hread.
  - match goal with
    | H : msg.body_type _ = msg.MESH_BODY |- _ => rewrite Hprim in H; discriminate H
    end.
Qed.

Lemma world_body_single_link_witness :
  ∃ geometry,
    up.links (_urdf_robot (single_link (body_link "crate" (up.Box (num 1, num 2, num 3)))))
    = [body_link "crate" geometry]
    ∧ up.isinstance_Mesh geometry = false.
Proof.
  destruct (world_body_single_link (box_body "crate" [num 1; num 2; num 3])
              (single_link (body_link "crate" (up.Box (num 1, num 2, num 3)))))
    as (geometry & _ & _ & _ & Hlinks & _ & Hprim).
  - vm_compute. discriminate.
  - vm_compute. reflexivity.
  - exists geometry. split; [exact Hlinks|]. apply Hprim. reflexivity.
Defined.

Section attach_body.

Variable euler_from_quaternion : list float → list float.

(** X14: a body built by [from_world_body] is attached by a joint that
    bears the name of the body, as does the link it leads to: after the
    attach the name is a link name and a joint name of the tree. *)
Theorem attached_body_name self world_body urdf_object parent_link pose self' :
  msg.body_type world_body ≠ msg.URDF_BODY →
  from_world_body world_body = Ok urdf_object →
  attach_urdf_object euler_from_quaternion urdf_object parent_link pose self
  = (Ok tt, self') →
  msg.name world_body ∈ link_names self'
  ∧ msg.name world_body ∈ joint_names self'
  ∧ ∃ j, j ∈ up.joints (_urdf_robot self')
         ∧ up.joint_name j = msg.name world_body
         ∧ up.parent j = parent_link
         ∧ up.child j = msg.name world_body
         ∧ up.joint_type j = "fixed".
Proof.
  intros Hnot_urdf Hbody Hattach.
  destruct (from_world_body_single _ _ Hnot_urdf Hbody)
    as (geometry & _ & Hname & Hroot & Hlinks & Hjoints).
  destruct (attach_result euler_from_quaternion _ _ _ _ _ Hattach)
    as (root & Hroot' & Hls & Hjs & _).
  rewrite Hroot in Hroot'. injection Hroot' as <-.
  unfold link_names, joint_names. rewrite Hls, Hjs, Hlinks, Hjoints, !fmap_app.
  split_and!.
  - apply elem_of_app. right. by left.
  - apply elem_of_app. right. simpl. rewrite Hname. by left.
  - eexists. split; [apply elem_of_app; right; by left|]. by simpl.
Qed.

End attach_body.

Lemma attached_body_name_witness :
  "crate" ∈ link_names
              (snd (attach_urdf_object no_rotation
                      (single_link (body_link "crate" (up.Box (num 1, num 2, num 3))))
                      "hand_link" origin_pose three_link_tree))
  ∧ "crate" ∈ joint_names
                (snd (attach_urdf_object no_rotation
                        (single_link (body_link "crate" (up.Box (num 1, num 2, num 3))))
                        "hand_link" origin_pose three_link_tree)).
Proof.
  destruct (attached_body_name no_rotation three_link_tree
              (box_body "crate" [num 1; num 2; num 3])
              (single_link (body_link "crate" (up.Box (num 1, num 2, num 3))))
              "hand_link" origin_pose
              (snd (attach_urdf_object no_rotation
                      (single_link (body_link "crate" (up.Box (num 1, num 2, num 3))))
                      "hand_link" origin_pose three_link_tree)))
    as (Hl & Hj & _).
  - vm_compute. discriminate.
  - vm_compute. reflexivity.
  - vm_compute. reflexivity.
  - split; [exact Hl|exact Hj].
Defined.

(** * Thresholds of collision relevance *)

(** X15: lowering a threshold never makes a link lose its collision
    relevance: a link for which [has_link_collision] answers [True] at some
    thresholds gets [True] at all lower ones. *)
Theorem has_link_collision_antitone self name vt st vt' st' :
  (vt' ≤ vt)%Qc → (st' ≤ st)%Qc →
  has_link_collision self name vt st = Ok true →
  has_link_collision self name vt' st' = Ok true.
Proof.
  intros Hv Hs. unfold has_link_collision.
  destruct (getitem _ name) as [l|]; [|done]. cbn [bind].
  destruct (up.collision l) as [[geo]|]; [|done].
  assert (∀ a, gt a vt = true → gt a vt' = true) as Hgv.
  { intros a. rewrite !gt_true. by apply Qcle_lt_trans. }
  assert (∀ a, gt a st = true → gt a st' = true) as Hgs.
  { intros a. rewrite !gt_true. by apply Qcle_lt_trans. }
  destruct geo as [[[a b] c]|r|r h|f]; simpl; unfold py_or, py_and; simpl.
  - destruct (gt _ vt) eqn:E1; simpl.
    { by rewrite (Hgv _ E1). }
    destruct (gt _ st) eqn:E2; [|done]. simpl. rewrite (Hgs _ E2).
    by destruct (gt _ vt').
  - destruct (gt _ vt) eqn:E1; [|done]. simpl. by rewrite (Hgv _ E1).
  - destruct (gt _ vt) eqn:E1; simpl.
    { by rewrite (Hgv _ E1). }
    destruct (gt _ st) eqn:E2; [|done]. simpl. rewrite (Hgs _ E2).
    by destruct (gt _ vt').
  - done.
Qed.

Lemma has_link_collision_antitone_witness :
  has_link_collision (single_link (box_link "box" (num 1, num 1, num 1))) "box"
    (frac 1 10000000) (frac 1 100000) = Ok true.
Proof.
  apply (has_link_collision_antitone _ _ volume_threshold_default
           surface_threshold_default).
  - by_computation.
  - by_computation.
  - reflexivity.
Defined.

(** * Joint states *)

Lemma for_each_app {A S} (body : S → A → result S) (xs ys : list A) (s : S) :
  for_each body (xs ++ ys) s = let* s' := for_each body xs s in for_each body ys s'.
Proof.
  revert s. induction xs as [|x xs IH]; intros s; [done|].
  cbn [for_each app]. destruct (body s x); [apply IH|done].
Qed.

Lemma od_get_setitem {V} (k k' : string) (v : V) (d : OrderedDict V) :
  od_get k' (od_setitem k v d) = if decide (k = k') then Some v else od_get k' d.
Proof.
  induction d as [|[k0 v0] d IH]; simpl.
  - by destruct (decide (k = k')).
  - destruct (decide (k0 = k)) as [->|Hne]; simpl.
    + by destruct (decide (k = k')).
    + destruct (decide (k0 = k')) as [->|Hne'].
      * by rewrite decide_False by done.
      * done.
Qed.

Lemma od_setitem_fresh {V} (k : string) (v : V) (d : OrderedDict V) :
  k ∉ d.*1 → od_setitem k v d = d ++ [(k, v)].
Proof.
  induction d as [|[k0 v0] d IH]; [done|]. simpl.
  intros [Hne Hk]%not_elem_of_cons.
  rewrite decide_False by done. by rewrite IH.
Qed.

Lemma enumerate_snoc {A} (l : list A) x : enumerate (l ++ [x]) = enumerate l ++ [(length l, x)].
Proof. unfold enumerate. rewrite imap_app. simpl. by rewrite Nat.add_0_r. Qed.

Section to_joint_state_dict.

Variable msg : sensor_msgs.JointState.

Local Abbreviation body :=
  (λ (mjs : OrderedDict SingleJointState) '(i, joint_name),
     let* position := list_getitem (sensor_msgs.position msg) i in
     let* velocity :=
       try_except_IndexError (list_getitem (sensor_msgs.velocity msg) i) (Ok (num 0)) in
     let* effort :=
       try_except_IndexError (list_getitem (sensor_msgs.effort msg) i) (Ok (num 0)) in
     let sjs := {| sjs_name := joint_name; sjs_position := position;
                   sjs_velocity := velocity; sjs_effort := effort |} in
     Ok (od_setitem joint_name sjs mjs)).

Lemma try_list_getitem (l : list float) i :
  try_except_IndexError (list_getitem l i) (Ok (num 0)) = Ok (default (num 0) (l !! i)).
Proof. unfold list_getitem. by destruct (l !! i). Qed.

Lemma to_joint_state_dict_body mjs i joint_name :
  body mjs (i, joint_name)
  = match state_at msg i joint_name with
    | Some sjs => Ok (od_setitem joint_name sjs mjs)
    | None => Raise IndexError
    end.
Proof.
  unfold state_at. cbn beta iota. rewrite !try_list_getitem. unfold list_getitem.
  by destruct (sensor_msgs.position msg !! i).
Qed.

Lemma to_joint_state_dict_loop names :
  (length names ≤ length (sensor_msgs.position msg))%nat →
  ∃ mjs,
    for_each body (enumerate names) [] = Ok mjs
    ∧ (∀ n i, names !! i = Some n → (∀ i', (i < i')%nat → names !! i' ≠ Some n) →
         od_get n mjs = state_at msg i n)
    ∧ (∀ n, n ∉ names → od_get n mjs = None)
    ∧ (NoDup names → mjs.*1 = names).
Proof.
  induction names as [|x l IH] using rev_ind; intros Hlen.
  - exists []. split_and!; [done| |done|done]. intros n i Hi. by rewrite lookup_nil in Hi.
  - rewrite length_app in Hlen. simpl in Hlen.
    destruct IH as (mjs & Hloop & Hlast & Hnone & Hkeys); [lia|].
    destruct (lookup_lt_is_Some_2 (sensor_msgs.position msg) (length l)) as [p Hp]; [lia|].
    assert (∃ sjs, state_at msg (length l) x = Some sjs) as [sjs Hsjs].
    { unfold state_at. rewrite Hp. simpl. eauto. }
    exists (od_setitem x sjs mjs).
    rewrite enumerate_snoc, for_each_app, Hloop. cbn [bind for_each].
    rewrite to_joint_state_dict_body, Hsjs. cbn [bind]. split_and!; [done| | |].
    + intros n i Hi Hlater. rewrite od_get_setitem.
      destruct (decide (i = length l)) as [->|Hne].
      * rewrite list_lookup_middle in Hi by done. injection Hi as <-.
        by rewrite decide_True.
      * assert (i < length l)%nat as Hlt.
        { apply lookup_lt_Some in Hi. rewrite length_app in Hi. simpl in Hi. lia. }
        rewrite lookup_app_l in Hi by done.
        rewrite decide_False.
        -- apply Hlast; [done|]. intros i' Hi' Hl. apply (Hlater i' Hi').
           rewrite lookup_app_l; [done|]. by eapply lookup_lt_Some.
        -- intros ->. apply (Hlater (length l) Hlt). by rewrite list_lookup_middle.
    + intros n [Hn Hx]%not_elem_of_app. rewrite od_get_setitem.
      rewrite decide_False by (intros ->; apply Hx; by left). by apply Hnone.
    + intros [Hl [Hx _]]%NoDup_app. specialize (Hkeys Hl).
      rewrite od_setitem_fresh, fmap_app, Hkeys; [done|].
      rewrite Hkeys. intros Hin. apply (Hx x Hin). by left.
Qed.

End to_joint_state_dict.

(** X16: [to_joint_state_dict] raises [IndexError] when the message has
    fewer positions than names.  Otherwise it returns a dictionary that
    holds, for every joint name of the message, the state read at the last
    index the name has: the position there, and the velocity and the
    effort there or [0] where the message has none; it holds no other
    name. *)
Theorem to_joint_state_dict_spec msg :
  ((length (sensor_msgs.position msg) < length (sensor_msgs.name msg))%nat →
   to_joint_state_dict msg = Raise IndexError)
  ∧ ((length (sensor_msgs.name msg) ≤ length (sensor_msgs.position msg))%nat →
     ∃ mjs,
       to_joint_state_dict msg = Ok mjs
       ∧ (∀ n i, sensor_msgs.name msg !! i = Some n →
            (∀ i', (i < i')%nat → sensor_msgs.name msg !! i' ≠ Some n) →
            od_get n mjs = state_at msg i n)
       ∧ (∀ n, n ∉ sensor_msgs.name msg → od_get n mjs = None)).
Proof.
  split.
  - intros Hlt. unfold to_joint_state_dict.
    set (p := length (sensor_msgs.position msg)) in *.
    rewrite <- (take_drop p (sensor_msgs.name msg)).
    destruct (drop p (sensor_msgs.name msg)) as [|x rest] eqn:Hdrop.
    { apply (f_equal length) in Hdrop. rewrite length_drop in Hdrop. simpl in Hdrop. lia. }
    assert (length (take p (sensor_msgs.name msg)) = p) as Hlen
      by (rewrite length_take; lia).
    destruct (to_joint_state_dict_loop msg (take p (sensor_msgs.name msg)))
      as (mjs & Hloop & _); [lia|].
    unfold enumerate in *. rewrite imap_app, for_each_app, Hloop. cbn [bind imap for_each].
    rewrite to_joint_state_dict_body. unfold state_at.
    rewrite Hlen, Nat.add_0_r. unfold p.
    by rewrite (lookup_ge_None_2 (sensor_msgs.position msg)) by lia.
  - intros Hle. destruct (to_joint_state_dict_loop msg _ Hle) as (mjs & ? & ? & ? & _).
    by exists mjs.
Qed.

Lemma dict_to_joint_states_loop items js :
  foldl
    (λ js '(k, v),
       {| sensor_msgs.name := sensor_msgs.name js ++ [k];
          sensor_msgs.position := sensor_msgs.position js ++ [v];
          sensor_msgs.velocity := sensor_msgs.velocity js ++ [num 0];
          sensor_msgs.effort := sensor_msgs.effort js ++ [num 0] |})
    js items
  = {| sensor_msgs.name := sensor_msgs.name js ++ items.*1;
       sensor_msgs.position := sensor_msgs.position js ++ items.*2;
       sensor_msgs.velocity := sensor_msgs.velocity js ++ replicate (length items) (num 0);
       sensor_msgs.effort := sensor_msgs.effort js ++ replicate (length items) (num 0) |}.
Proof.
  revert js. induction items as [|[k v] items IH]; intros js.
  - simpl. rewrite !app_nil_r. by destruct js.
  - cbn [foldl]. rewrite IH. simpl. by rewrite <- !app_assoc.
Qed.

Lemma dict_to_joint_states_eq d :
  dict_to_joint_states d
  = {| sensor_msgs.name := (map_to_list d).*1;
       sensor_msgs.position := (map_to_list d).*2;
       sensor_msgs.velocity := replicate (length (map_to_list d)) (num 0);
       sensor_msgs.effort := replicate (length (map_to_list d)) (num 0) |}.
Proof. unfold dict_to_joint_states. by rewrite dict_to_joint_states_loop. Qed.

(** X17: a dictionary of joint positions that goes through
    [dict_to_joint_states] and [to_joint_state_dict] comes back with its
    joints in the same order, each with its position and with velocity and
    effort [0]; the message in between has one entry per joint in each of
    its four lists. *)
Theorem joint_state_dict_round_trip (d : gmap string float) :
  let js := dict_to_joint_states d in
  length (sensor_msgs.position js) = length (sensor_msgs.name js)
  ∧ length (sensor_msgs.velocity js) = length (sensor_msgs.name js)
  ∧ length (sensor_msgs.effort js) = length (sensor_msgs.name js)
  ∧ ∃ mjs,
      to_joint_state_dict js = Ok mjs
      ∧ mjs.*1 = (map_to_list d).*1
      ∧ ∀ k, od_get k mjs
             = (λ v, {| sjs_name := k; sjs_position := v;
                        sjs_velocity := num 0; sjs_effort := num 0 |}) <$> d !! k.
Proof.
  cbn zeta. rewrite dict_to_joint_states_eq.
  cbn [sensor_msgs.name sensor_msgs.position sensor_msgs.velocity sensor_msgs.effort].
  rewrite !length_fmap, !length_replicate. split_and!; [done..|].
  set (js := {| sensor_msgs.name := (map_to_list d).*1 |}).
  destruct (to_joint_state_dict_loop js (map_to_list d).*1)
    as (mjs & Hloop & Hlast & Hnone & Hkeys).
  { simpl. by rewrite !length_fmap. }
  exists mjs. split_and!; [done| |].
  - apply Hkeys, NoDup_fst_map_to_list.
  - intros k. destruct (d !! k) as [v|] eqn:Hk; simpl.
    + apply elem_of_map_to_list, list_elem_of_lookup in Hk as [i Hi].
      rewrite (Hlast k i).
      * unfold state_at, js. simpl.
        rewrite !list_lookup_fmap, Hi. simpl.
        rewrite lookup_replicate_2; [done|]. by eapply lookup_lt_Some.
      * by rewrite list_lookup_fmap, Hi.
      * intros i' Hlt Hi'.
        assert ((map_to_list d).*1 !! i = Some k) as Hi1 by by rewrite list_lookup_fmap, Hi.
        pose proof (NoDup_lookup _ _ _ _ (NoDup_fst_map_to_list d) Hi1 Hi'). lia.
    + apply Hnone. intros ([k' v] & -> & Hin%elem_of_map_to_list)%list_elem_of_fmap.
      simpl in Hk. congruence.
Qed.

(** * Closest points *)

Lemma closest_point_loop_true items tolerance :
  closest_point_loop items tolerance = true
  ↔ ∃ k cpi, (k, cpi) ∈ items
             ∧ (contact_distance cpi < min_dist cpi * tolerance)%Qc.
Proof.
  induction items as [|[k cpi] items IH]; simpl.
  - split; [done|]. by intros (? & ? & []%elem_of_nil & _).
  - case_decide as H.
    + split; [|done]. intros _. exists k, cpi. split; [by left|done].
    + rewrite IH. split.
      * intros (k' & cpi' & ? & ?). exists k', cpi'. split; [by right|done].
      * intros (k' & cpi' & [[= -> ->]|?]%elem_of_cons & ?); [done|]. by exists k', cpi'.
Qed.

(** X18: [closest_point_constraint_violated] answers [True] exactly when
    some entry of the dictionary has a contact distance below its minimal
    distance scaled by the tolerance, in whatever order the dictionary is
    gone through. *)
Theorem closest_point_constraint_violated_iff closest_point_infos tolerance :
  closest_point_constraint_violated closest_point_infos tolerance = true
  ↔ ∃ link_name cpi_info,
      closest_point_infos !! link_name = Some cpi_info
      ∧ (contact_distance cpi_info < min_dist cpi_info * tolerance)%Qc.
Proof.
  unfold closest_point_constraint_violated. rewrite closest_point_loop_true.
  by setoid_rewrite elem_of_map_to_list.
Qed.

(** * The text of a description *)

Lemma string_app_cons c (s t : string) : String c s +:+ t = String c (s +:+ t).
Proof. reflexivity. Qed.

Lemma string_app_nil_l (s : string) : "" +:+ s = s.
Proof. reflexivity. Qed.

Lemma string_app_nil_r (s : string) : s +:+ "" = s.
Proof. induction s as [|c s IH]; [done|]. by rewrite string_app_cons, IH. Qed.

Lemma string_app_assoc (s1 s2 s3 : string) : s1 +:+ (s2 +:+ s3) = (s1 +:+ s2) +:+ s3.
Proof. induction s1 as [|c s1 IH]; [done|]. by rewrite !string_app_cons, IH. Qed.

Lemma length_filter_pos {A} (P : A → Prop) `{!∀ x, Decision (P x)} (l : list A) :
  (0 < length (filter P l))%nat ↔ ∃ x, x ∈ l ∧ P x.
Proof.
  split.
  - destruct (filter P l) as [|x l'] eqn:E; [simpl; lia|]. intros _.
    assert (x ∈ filter P l) as [? ?]%list_elem_of_filter by (rewrite E; by left).
    by exists x.
  - intros (x & Hx & HP). assert (x ∈ filter P l) as Hin by by apply list_elem_of_filter.
    destruct (filter P l); [by apply elem_of_nil in Hin|simpl; lia].
Qed.

Lemma existsb_filter_pos {A} (f : A → bool) (l : list A) :
  (0 < length (filter (λ x, f x) l))%nat ↔ existsb f l = true.
Proof.
  rewrite length_filter_pos, existsb_exists. split.
  - intros (x & Hx%list_elem_of_In & Hf). exists x. split; [done|]. by apply Is_true_true.
  - intros (x & Hx%list_elem_of_In & Hf). exists x. split; [done|]. by apply Is_true_true.
Qed.

(** What one round of the loop does, by the tags the line holds. *)
Lemma fix_line_eq fixed_urdf delete line :
  text.fix_line (fixed_urdf, delete) line
  = if text.closes line then (fixed_urdf, false)
    else if text.opens line then (fixed_urdf, true)
    else if delete then (fixed_urdf, true)
    else (fixed_urdf +:+ (line +:+ text.newline), false).
Proof.
  unfold text.fix_line, text.opens, text.closes.
  destruct (existsb _ text.black_close) eqn:Hc.
  - rewrite (decide_True (P := (0 < _)%nat)) by by apply existsb_filter_pos. done.
  - rewrite (decide_False (P := (0 < length (filter _ text.black_close))%nat))
      by (rewrite existsb_filter_pos; congruence).
    destruct (existsb _ text.black_open) eqn:Ho.
    + rewrite decide_True by by apply existsb_filter_pos. done.
    + rewrite decide_False by (rewrite existsb_filter_pos; congruence).
      by destruct delete.
Qed.

Lemma section_closed_snoc pre line :
  text.section_closed (pre ++ [line])
  = if text.tagged line then text.closes line else text.section_closed pre.
Proof.
  unfold text.section_closed. rewrite filter_app, filter_cons, filter_nil.
  destruct (text.tagged line) eqn:Ht.
  - rewrite decide_True by done. by rewrite last_snoc.
  - rewrite decide_False by (simpl; tauto). by rewrite app_nil_r.
Qed.

(** The flag after the lines [pre]. *)
Lemma fix_lines_delete pre :
  snd (foldl text.fix_line ("", false) pre) = negb (text.section_closed pre).
Proof.
  induction pre as [|line pre IH] using rev_ind; [done|].
  rewrite foldl_snoc, section_closed_snoc.
  destruct (foldl text.fix_line ("", false) pre) as [fixed delete]. simpl in IH.
  rewrite fix_line_eq. unfold text.tagged.
  destruct (text.closes line), (text.opens line); simpl; try done.
  by destruct delete.
Qed.

(** X19: the lines of the text are gone through in order, and a line is
    kept, followed by a newline, exactly when it holds no tag of the black
    list and the last line before it that holds one, if any, holds a
    closing tag. *)
Theorem fix_lines_snoc pre line :
  text.fix_lines (pre ++ [line])
  = text.fix_lines pre
    +:+ (if negb (text.opens line) && negb (text.closes line) && text.section_closed pre
         then line +:+ text.newline else "").
Proof.
  unfold text.fix_lines. rewrite foldl_snoc.
  pose proof (fix_lines_delete pre) as Hd.
  destruct (foldl text.fix_line ("", false) pre) as [fixed delete]. simpl in Hd.
  rewrite fix_line_eq.
  destruct (text.closes line), (text.opens line); simpl;
    rewrite ?string_app_nil_r; try done.
  destruct delete, (text.section_closed pre); simpl in *;
    rewrite ?string_app_nil_r; done.
Qed.

Lemma fix_lines_untagged lines fixed :
  Forall (λ line, text.tagged line = false) lines →
  foldl text.fix_line (fixed, false) lines
  = (fixed +:+ foldr (λ line s, line +:+ text.newline +:+ s) "" lines, false).
Proof.
  revert fixed. induction lines as [|line lines IH]; intros fixed Hl.
  - simpl. by rewrite string_app_nil_r.
  - apply Forall_cons in Hl as [Hline Hl]. cbn [foldl foldr].
    rewrite fix_line_eq. unfold text.tagged in Hline.
    apply orb_false_iff in Hline as [-> ->].
    rewrite IH by done. by rewrite <- !string_app_assoc.
Qed.

Lemma join_split_lines s :
  foldr (λ line s, line +:+ text.newline +:+ s) "" (text.split_lines s)
  = s +:+ text.newline.
Proof.
  induction s as [|c s IH]; [done|]. cbn [text.split_lines].
  case_decide as Hc.
  - subst c. cbn [foldr]. by rewrite IH.
  - destruct (text.split_lines s) as [|line lines]; cbn [foldr] in *.
    + destruct s; done.
    + by rewrite !string_app_cons, IH.
Qed.

(** X20: a text none of whose lines holds a tag of the black list comes
    back whole, with one newline added at its end. *)
Theorem hacky_urdf_parser_fix_untagged urdf_str :
  Forall (λ line, text.tagged line = false) (text.split_lines urdf_str) →
  text.hacky_urdf_parser_fix urdf_str = urdf_str +:+ text.newline.
Proof.
  intros Hl. unfold text.hacky_urdf_parser_fix, text.fix_lines.
  rewrite fix_lines_untagged by done. simpl. apply join_split_lines.
Qed.

Lemma hacky_urdf_parser_fix_untagged_witness :
  text.hacky_urdf_parser_fix "<robot name='r'></robot>"
  = "<robot name='r'></robot>" +:+ text.newline.
Proof.
  apply (hacky_urdf_parser_fix_untagged "<robot name='r'></robot>").
  by_computation.
Defined.

Lemma fix_lines_deleting lines fixed :
  Forall (λ line, text.closes line = false) lines →
  foldl text.fix_line (fixed, true) lines = (fixed, true).
Proof.
  induction lines as [|line lines IH]; intros Hl; [done|].
  apply Forall_cons in Hl as [Hline Hl]. cbn [foldl].
  rewrite fix_line_eq, Hline. destruct (text.opens line); by apply IH.
Qed.

(** X21: a line that opens a section is dropped with everything after it
    when neither it nor a later line holds a closing tag, as after a tag
    that closes itself. *)
Theorem hacky_urdf_parser_fix_unclosed urdf_str pre line post :
  text.split_lines urdf_str = pre ++ line :: post →
  text.opens line = true →
  Forall (λ line, text.closes line = false) (line :: post) →
  text.hacky_urdf_parser_fix urdf_str = text.fix_lines pre.
Proof.
  intros Hs Ho Hc. unfold text.hacky_urdf_parser_fix, text.fix_lines.
  rewrite Hs, foldl_app. cbn [foldl].
  destruct (foldl text.fix_line ("", false) pre) as [fixed delete].
  apply Forall_cons in Hc as [Hline Hc].
  rewrite fix_line_eq, Hline, Ho. by rewrite fix_lines_deleting.
Qed.

Lemma hacky_urdf_parser_fix_unclosed_witness :
  text.hacky_urdf_parser_fix
    ("<robot>" +:+ text.newline +:+ "<gazebo reference='base'/>" +:+ text.newline
     +:+ "<link name='base'/>")
  = text.fix_lines ["<robot>"].
Proof.
  apply (hacky_urdf_parser_fix_unclosed _ ["<robot>"] "<gazebo reference='base'/>"
           ["<link name='base'/>"]).
  - reflexivity.
  - reflexivity.
  - by_computation.
Defined.

(** * The commands of the wrapper *)

Lemma on_last_cmd_snoc f self cs m :
  GiskardWrapper.cmd_seq self = cs ++ [m] →
  GiskardWrapper.on_last_cmd f self
  = (Ok tt, GiskardWrapper.set_cmd_seq self (cs ++ [f m])).
Proof.
  intros Hcs. unfold GiskardWrapper.on_last_cmd. rewrite Hcs.
  destruct (cs ++ [m]) as [|m0 cs0] eqn:E; [by destruct cs|]. rewrite <- E.
  do 2 f_equal. rewrite length_app. simpl.
  replace (pred (length cs + 1)) with (length cs + 0)%nat by lia.
  by rewrite alter_app_r.
Qed.

(** What a setter does to a wrapper whose last command is [m]: the
    commands before [m] stay, and [m] gains controllers and collision
    entries at its end. *)
Lemma run_setter c self cs m :
  GiskardWrapper.is_setter c = true →
  GiskardWrapper.cmd_seq self = cs ++ [m] →
  ∃ controllers collisions,
    GiskardWrapper.run c self
    = (Ok tt,
       GiskardWrapper.set_cmd_seq self
         (cs ++ [{| MoveCmd.controllers := MoveCmd.controllers m ++ controllers;
                    MoveCmd.collisions := MoveCmd.collisions m ++ collisions |}])).
Proof.
  intros Hc Hcs. destruct c; try done; cbn [GiskardWrapper.run].
  - unfold GiskardWrapper.set_cart_goal, GiskardWrapper.set_tranlation_goal,
      GiskardWrapper.set_rotation_goal, and_then.
    rewrite (on_last_cmd_snoc _ self cs m Hcs).
    erewrite on_last_cmd_snoc by reflexivity.
    eexists [_; _], []. unfold GiskardWrapper.append_controller. simpl.
    by rewrite <- app_assoc, app_nil_r.
  - unfold GiskardWrapper.set_tranlation_goal.
    rewrite (on_last_cmd_snoc _ self cs m Hcs).
    eexists [_], []. unfold GiskardWrapper.append_controller. simpl.
    by rewrite app_nil_r.
  - unfold GiskardWrapper.set_rotation_goal.
    rewrite (on_last_cmd_snoc _ self cs m Hcs).
    eexists [_], []. unfold GiskardWrapper.append_controller. simpl.
    by rewrite app_nil_r.
  - unfold GiskardWrapper.set_joint_goal, and_then, get.
    rewrite (on_last_cmd_snoc _ self cs m Hcs).
    eexists [_], []. unfold GiskardWrapper.append_controller. simpl.
    by rewrite app_nil_r.
  - unfold GiskardWrapper.set_collision_entries.
    rewrite (on_last_cmd_snoc _ self cs m Hcs).
    eexists [], _. unfold GiskardWrapper.extend_collisions. simpl.
    by rewrite app_nil_r.
  - unfold GiskardWrapper.allow_collision, GiskardWrapper.set_collision_entries.
    rewrite (on_last_cmd_snoc _ self cs m Hcs).
    eexists [], _. unfold GiskardWrapper.extend_collisions. simpl.
    by rewrite app_nil_r.
  - unfold GiskardWrapper.avoid_collision, GiskardWrapper.set_collision_entries.
    rewrite (on_last_cmd_snoc _ self cs m Hcs).
    eexists [], _. unfold GiskardWrapper.extend_collisions. simpl.
    by rewrite app_nil_r.
  - unfold GiskardWrapper.allow_all_collisions, GiskardWrapper.set_collision_entries.
    rewrite (on_last_cmd_snoc _ self cs m Hcs).
    eexists [], _. unfold GiskardWrapper.extend_collisions. simpl.
    by rewrite app_nil_r.
  - unfold GiskardWrapper.avoid_all_collisions, GiskardWrapper.set_collision_entries.
    rewrite (on_last_cmd_snoc _ self cs m Hcs).
    eexists [], _. unfold GiskardWrapper.extend_collisions. simpl.
    by rewrite app_nil_r.
  - unfold GiskardWrapper.disable_self_collision, GiskardWrapper.set_collision_entries,
      and_then, get.
    rewrite (on_last_cmd_snoc _ self cs m Hcs).
    eexists [], _. unfold GiskardWrapper.extend_collisions. simpl.
    by rewrite app_nil_r.
Qed.

Lemma run_returns c self :
  GiskardWrapper.cmd_seq self ≠ [] →
  ∃ self', GiskardWrapper.run c self = (Ok tt, self')
           ∧ GiskardWrapper.cmd_seq self' ≠ [].
Proof.
  intros Hne. destruct (GiskardWrapper.is_setter c) eqn:Hc.
  - destruct (GiskardWrapper.cmd_seq self) as [|m0 cs0] eqn:E using rev_ind; [done|].
    clear IHcs0.
    destruct (run_setter c self cs0 m0 Hc E) as (cs & es & ->).
    eexists. split; [done|]. simpl. by destruct cs0.
  - destruct c; try done; eexists; (split; [reflexivity|]); simpl.
    + by destruct (GiskardWrapper.cmd_seq self).
    + done.
    + done.
Qed.

(** X22: the wrapper always has a command to add to.  After [clear_cmds]
    (which [__init__] calls), whatever goals, collision entries and
    commands are set, cleared or handed out, no call raises and the list of
    commands is never empty. *)
Theorem cmd_seq_never_empty calls self :
  ∃ self',
    for_each_do GiskardWrapper.run calls (snd (GiskardWrapper.clear_cmds self))
    = (Ok tt, self')
    ∧ GiskardWrapper.cmd_seq self' ≠ [].
Proof.
  assert (GiskardWrapper.cmd_seq (snd (GiskardWrapper.clear_cmds self)) ≠ []) as Hne
    by done.
  revert Hne. generalize (snd (GiskardWrapper.clear_cmds self)). clear self.
  induction calls as [|c calls IH]; intros self Hne.
  - by exists self.
  - destruct (run_returns c self Hne) as (self1 & Hrun & Hne1).
    destruct (IH self1 Hne1) as (self' & Hrest & Hne').
    exists self'. split; [|done].
    cbn [for_each_do]. unfold and_then. by rewrite Hrun.
Qed.

(** X23: [set_cart_goal] adds two controllers to the end of the last
    command, one for the translation and one for the rotation, in this
    order, both between the same root and tip, towards the same pose and
    with the default gain and speed.  Like every call that sets a goal or
    a collision entry, it leaves the earlier commands, and what the last
    command already holds, as they are. *)
Theorem set_cart_goal_adds_two root tip pose_stamped self cs m :
  GiskardWrapper.cmd_seq self = cs ++ [m] →
  (∃ t r,
     GiskardWrapper.set_cart_goal root tip pose_stamped self
     = (Ok tt,
        GiskardWrapper.set_cmd_seq self
          (cs ++ [{| MoveCmd.controllers := MoveCmd.controllers m ++ [t; r];
                     MoveCmd.collisions := MoveCmd.collisions m |}]))
     ∧ Controller.type t = Controller.TRANSLATION_3D
     ∧ Controller.type r = Controller.ROTATION_3D
     ∧ Controller.root_link t = root ∧ Controller.root_link r = root
     ∧ Controller.tip_link t = tip ∧ Controller.tip_link r = tip
     ∧ Controller.goal_pose t = pose_stamped ∧ Controller.goal_pose r = pose_stamped
     ∧ Controller.p_gain t = num 3 ∧ Controller.p_gain r = num 3
     ∧ Controller.max_speed t = frac 1 5 ∧ Controller.max_speed r = frac 1 5)
  ∧ ∀ c, GiskardWrapper.is_setter c = true →
      ∃ controllers collisions,
        GiskardWrapper.run c self
        = (Ok tt,
           GiskardWrapper.set_cmd_seq self
             (cs ++ [{| MoveCmd.controllers := MoveCmd.controllers m ++ controllers;
                        MoveCmd.collisions := MoveCmd.collisions m ++ collisions |}])).
Proof.
  intros Hcs. split; [|intros c Hc; by apply run_setter].
  unfold GiskardWrapper.set_cart_goal, GiskardWrapper.set_tranlation_goal,
    GiskardWrapper.set_rotation_goal, and_then.
  rewrite (on_last_cmd_snoc _ self cs m Hcs).
  erewrite on_last_cmd_snoc by reflexivity.
  eexists _, _. unfold GiskardWrapper.append_controller. cbn [MoveCmd.controllers
    MoveCmd.collisions]. rewrite <- app_assoc. split; [reflexivity|]. by split_and!.
Qed.

Lemma set_cart_goal_adds_two_witness :
  ∃ t r,
    GiskardWrapper.set_cart_goal "base_link" "hand_link" PoseStamped.new idle_wrapper
    = (Ok tt,
       GiskardWrapper.set_cmd_seq idle_wrapper
         ([] ++ [{| MoveCmd.controllers := MoveCmd.controllers MoveCmd.new ++ [t; r];
                    MoveCmd.collisions := MoveCmd.collisions MoveCmd.new |}]))
    ∧ Controller.type t = Controller.TRANSLATION_3D
    ∧ Controller.type r = Controller.ROTATION_3D.
Proof.
  destruct (set_cart_goal_adds_two "base_link" "hand_link" PoseStamped.new idle_wrapper
              [] MoveCmd.new) as [(t & r & H & Ht & Hr & _) _].
  - reflexivity.
  - exists t, r. split; [exact H|]. split; [exact Ht|exact Hr].
Defined.

(** X24: the box that [make_box] describes from a name and three extents
    is built by [from_world_body] as the tree of one link of that name
    with the box as its geometry.  [make_box] reads the first three
    entries of [size] and raises [IndexError] when there are fewer; without
    a size the body has no dimensions. *)
Theorem make_box_from_world_body name size :
  match size with
  | Some (a :: b :: c :: _) =>
      ∃ body,
        GiskardWrapper.make_box name size = Ok body
        ∧ msg.dimensions (msg.shape body) = [a; b; c]
        ∧ from_world_body body = Ok (single_link (body_link name (up.Box (a, b, c))))
  | Some _ => GiskardWrapper.make_box name size = Raise IndexError
  | None =>
      ∃ body,
        GiskardWrapper.make_box name size = Ok body
        ∧ msg.dimensions (msg.shape body) = []
  end.
Proof.
  destruct size as [[|a [|b [|c rest]]]|]; try done.
  - eexists. split; [reflexivity|]. split; [reflexivity|]. done.
  - eexists. split; [reflexivity|]. reflexivity.
Qed.

(** * Chains *)

Lemma chain_path_below self root tip js : chain_path self root tip js → below self root tip.
Proof.
  induction 1 as [|l js j Hpath IH Hj Hp]; [apply rtc_refl|].
  eapply rtc_r; [exact IH|]. by exists j.
Qed.

Lemma chain_path_links self root tip js :
  chain_path self root tip js →
  (up.parent <$> js) ++ [tip] = root :: (up.child <$> js).
Proof.
  induction 1 as [|l js j Hpath IH Hj Hp]; [done|].
  rewrite !fmap_app. simpl. rewrite Hp, <- app_assoc.
  by rewrite app_assoc, IH.
Qed.

Lemma get_chain_loop_unfold fuel r root link joints links fixed chain :
  link ≠ root →
  Robot.get_chain_loop (S fuel) r root link joints links fixed chain
  = match
      (let* '(joint, parent) := getitem (up.parent_map r) link in
       let* chain :=
         if joints then
           let* keep :=
             if fixed then Ok true
             else let* j := getitem (up.joint_map r) joint in
                  Ok (bool_decide (up.joint_type j ≠ "fixed")) in
           Ok (if keep then chain ++ [joint] else chain)
         else Ok chain in
       let chain := if links then chain ++ [parent] else chain in
       Ok (parent, chain))
    with
    | Ok (parent, chain) => Robot.get_chain_loop fuel r root parent joints links fixed chain
    | Raise e => Some (Raise e)
    end.
Proof. intros Hne. cbn [Robot.get_chain_loop]. by rewrite decide_False. Qed.

Lemma get_chain_loop_mono fuel fuel' r root link joints links fixed chain res :
  Robot.get_chain_loop fuel r root link joints links fixed chain = Some res →
  (fuel ≤ fuel')%nat →
  Robot.get_chain_loop fuel' r root link joints links fixed chain = Some res.
Proof.
  revert fuel' link chain. induction fuel as [|fuel IH]; intros fuel' link chain.
  - destruct (decide (link = root)) as [->|Hne].
    + destruct fuel'; simpl; by rewrite !decide_True.
    + simpl. by rewrite decide_False.
  - destruct (decide (link = root)) as [->|Hne].
    + destruct fuel'; simpl; by rewrite !decide_True.
    + intros H Hle. destruct fuel' as [|fuel']; [lia|].
      rewrite get_chain_loop_unfold in * by done.
      destruct (bind _ _) as [[parent chain']|]; [|done].
      apply IH; [done|lia].
Qed.

Lemma reverse_bind_reverse {A B} (f : A → list B) (l : list A) :
  reverse (reverse l ≫= f) = l ≫= λ x, reverse (f x).
Proof.
  induction l as [|x l IH] using rev_ind; [done|].
  rewrite reverse_snoc, bind_cons, reverse_app, IH, bind_app. simpl.
  by rewrite app_nil_r.
Qed.

Section chains.

Variable self : URDFObject.
Hypothesis Hvalid : valid_tree self.

Lemma get_chain_step fuel root (j : up.Joint) joints links fixed chain :
  j ∈ up.joints (_urdf_robot self) →
  up.child j ≠ root →
  Robot.get_chain_loop (S fuel) (_urdf_robot self) root (up.child j) joints links fixed chain
  = Robot.get_chain_loop fuel (_urdf_robot self) root (up.parent j) joints links fixed
      (chain ++ chain_entries joints links fixed j).
Proof.
  intros Hj Hne. rewrite get_chain_loop_unfold by done.
  unfold getitem. rewrite (valid_parent_map _ Hvalid j Hj). cbn [bind].
  rewrite (joint_map_lookup_joint _ _ _ (valid_ranked _ Hvalid) j Hj).
  unfold chain_entries.
  destruct joints, fixed, links; cbn [bind andb orb]; repeat case_bool_decide;
    try done; by rewrite <- ?app_assoc, ?app_nil_r.
Qed.

Lemma get_chain_loop_path root tip js joints links fixed :
  chain_path self root tip js →
  ∀ fuel chain,
    (length js ≤ fuel)%nat →
    Robot.get_chain_loop fuel (_urdf_robot self) root tip joints links fixed chain
    = Some (Ok (chain ++ (reverse js ≫= chain_entries joints links fixed))).
Proof.
  induction 1 as [|l js j Hpath IH Hj Hp]; intros fuel chain Hle.
  - destruct fuel; simpl; rewrite decide_True by done; by rewrite app_nil_r.
  - rewrite length_app in Hle. simpl in Hle.
    destruct fuel as [|fuel]; [lia|].
    assert (up.child j ≠ root) as Hne.
    { intros Heq. apply chain_path_below in Hpath.
      apply (below_rank _ _ _ (valid_ranked _ Hvalid)) in Hpath.
      destruct (valid_rank _ Hvalid j Hj) as [E _]. rewrite Heq, Hp in E. lia. }
    rewrite get_chain_step, Hp by done.
    rewrite IH by lia. rewrite reverse_snoc. simpl. by rewrite <- app_assoc.
Qed.

End chains.

(** X25: in a valid tree, for joints that lead from [root_link] down to
    [tip_link], the chain functions return (given fuel for the length of
    the path) the names along the path in the order from root to tip:
    [get_joint_names_from_chain] the names of all its joints,
    [get_joint_names_from_chain_controllable] the names of those that are
    not fixed (mimic joints included), and [get_link_names_from_chain] the
    names of its links, [root_link] and [tip_link] included. *)
Theorem chain_names self root_link tip_link js :
  valid_tree self →
  chain_path self root_link tip_link js →
  ∀ fuel, (length js ≤ fuel)%nat →
    get_joint_names_from_chain fuel self root_link tip_link
    = Some (Ok (up.joint_name <$> js))
    ∧ get_joint_names_from_chain_controllable fuel self root_link tip_link
      = Some (Ok (up.joint_name <$> filter (λ j, up.joint_type j ≠ "fixed") js))
    ∧ get_link_names_from_chain fuel self root_link tip_link
      = Some (Ok (root_link :: (up.child <$> js))).
Proof.
  intros Hvalid Hpath fuel Hle.
  unfold get_joint_names_from_chain, get_joint_names_from_chain_controllable,
    get_link_names_from_chain, Robot.get_chain.
  rewrite !(get_chain_loop_path self Hvalid root_link tip_link js) by done.
  rewrite !reverse_app, !reverse_bind_reverse. split_and!; do 2 f_equal.
  - rewrite app_nil_r. clear. induction js as [|j js IH]; [done|].
    rewrite bind_cons, fmap_cons, IH. done.
  - rewrite app_nil_r. clear. induction js as [|j js IH]; [done|].
    rewrite bind_cons, filter_cons, IH. unfold chain_entries. simpl.
    case_bool_decide; [rewrite decide_True by done|rewrite decide_False by auto];
      by rewrite app_nil_r, ?reverse_singleton, ?reverse_nil.
  - rewrite <- (chain_path_links _ _ _ _ Hpath). by f_equal.
Qed.

Lemma chain_names_witness :
  get_joint_names_from_chain 2 three_link_tree "base_link" "hand_link"
  = Some (Ok ["j1"; "j2"])
  ∧ get_joint_names_from_chain_controllable 2 three_link_tree "base_link" "hand_link"
    = Some (Ok ["j1"])
  ∧ get_link_names_from_chain 2 three_link_tree "base_link" "hand_link"
    = Some (Ok ["base_link"; "arm_link"; "hand_link"]).
Proof.
  apply (chain_names three_link_tree "base_link" "hand_link"
           [plain_joint "j1" "base_link" "arm_link" "revolute";
            plain_joint "j2" "arm_link" "hand_link" "fixed"]).
  - valid_by_computation.
  - apply (chain_path_snoc _ _ "arm_link"
             [plain_joint "j1" "base_link" "arm_link" "revolute"]
             (plain_joint "j2" "arm_link" "hand_link" "fixed"));
      [|by_computation|reflexivity].
    apply (chain_path_snoc _ _ "base_link" []
             (plain_joint "j1" "base_link" "arm_link" "revolute"));
      [|by_computation|reflexivity].
    apply chain_path_nil.
  - simpl. lia.
Defined.

Section chain_errors.

Variable self : URDFObject.
Hypothesis Hvalid : valid_tree self.

Lemma get_chain_loop_climbs_out root tree_root joints links fixed n :
  get_root self = Ok tree_root →
  ∀ tip k chain,
    depth n self tip = Some k →
    tip ∈ link_names self →
    ¬ below self root tip →
    Robot.get_chain_loop (S k) (_urdf_robot self) root tip joints links fixed chain
    = Some (Raise (KeyError tree_root)).
Proof.
  intros Hroot.
  destruct (valid_single_root _ Hvalid) as (root' & _ & _ & Hiff & Hroot').
  assert (root' = tree_root) as -> by congruence.
  induction n as [|n IH]; intros tip k chain; rewrite depth_eq;
    destruct (up.parent_map _ !! tip) as [[jn p]|] eqn:Hp; try done.
  - intros [= <-] Htip Hnb. rewrite get_chain_loop_unfold by (intros ->; apply Hnb, rtc_refl).
    unfold getitem. rewrite Hp. cbn [bind]. by rewrite (proj1 (Hiff tip Htip) Hp).
  - destruct (depth n self p) as [k'|] eqn:Hk'; [|done]. intros [= <-] Htip Hnb.
    apply valid_parent_map_inv in Hp as (j & Hj & _ & <- & <-); [|done].
    rewrite (get_chain_step self Hvalid) by (done || intros <-; apply Hnb, rtc_refl).
    apply (IH _ _ _ Hk').
    + by apply (valid_parent_link _ Hvalid).
    + intros Hb. apply Hnb. eapply rtc_r; [exact Hb|]. by exists j.
  - intros [= <-] Htip Hnb. rewrite get_chain_loop_unfold by (intros ->; apply Hnb, rtc_refl).
    unfold getitem. rewrite Hp. cbn [bind]. by rewrite (proj1 (Hiff tip Htip) Hp).
Qed.

End chain_errors.

(** X26: in a valid tree, asking for the chain to a link from a link that
    is not above it makes the chain functions raise [KeyError] with the
    root of the tree as the missing key: the climb goes past where it
    should stop and asks for the parent of the root. *)
Theorem chain_from_wrong_root_raises self root_link tip_link :
  valid_tree self →
  tip_link ∈ link_names self →
  ¬ below self root_link tip_link →
  ∃ n tree_root,
    get_root self = Ok tree_root
    ∧ ∀ fuel, (n ≤ fuel)%nat →
        get_joint_names_from_chain fuel self root_link tip_link
        = Some (Raise (KeyError tree_root))
        ∧ get_joint_names_from_chain_controllable fuel self root_link tip_link
          = Some (Raise (KeyError tree_root))
        ∧ get_link_names_from_chain fuel self root_link tip_link
          = Some (Raise (KeyError tree_root)).
Proof.
  intros Hvalid Htip Hnb.
  destruct (valid_single_root _ Hvalid) as (tree_root & _ & _ & _ & Hroot).
  assert (is_Some (depth (length (link_names self)) self tip_link)) as [k Hk].
  { destruct Hvalid as (_ & _ & _ & H & _). rewrite Forall_forall in H. by apply H. }
  exists (S k), tree_root. split; [done|]. intros fuel Hle.
  unfold get_joint_names_from_chain, get_joint_names_from_chain_controllable,
    get_link_names_from_chain, Robot.get_chain.
  split_and!.
  - rewrite (get_chain_loop_mono (S k) fuel _ _ _ _ _ _ _ (Raise (KeyError tree_root)));
      [done| |done].
    by eapply get_chain_loop_climbs_out.
  - rewrite (get_chain_loop_mono (S k) fuel _ _ _ _ _ _ _ (Raise (KeyError tree_root)));
      [done| |done].
    by eapply get_chain_loop_climbs_out.
  - rewrite (get_chain_loop_mono (S k) fuel _ _ _ _ _ _ _ (Raise (KeyError tree_root)));
      [done| |done].
    by eapply get_chain_loop_climbs_out.
Qed.

Lemma chain_from_wrong_root_raises_witness :
  ∃ n tree_root,
    get_root three_link_tree = Ok tree_root
    ∧ ∀ fuel, (n ≤ fuel)%nat →
        get_joint_names_from_chain fuel three_link_tree "hand_link" "arm_link"
        = Some (Raise (KeyError tree_root)).
Proof.
  destruct (chain_from_wrong_root_raises three_link_tree "hand_link" "arm_link")
    as (n & tree_root & Hroot & H).
  - valid_by_computation.
  - by_computation.
  - intros Hb.
    assert (valid_tree three_link_tree) as Hvalid by valid_by_computation.
    apply (below_rank _ _ _ (valid_ranked _ Hvalid)) in Hb.
    vm_compute in Hb. lia.
  - exists n, tree_root. split; [exact Hroot|]. intros fuel Hle. apply (H fuel Hle).
Defined.
